(** * sdm-pack-k8s: resource addressing and sync-repository reconciliation

    A shallow embedding of the Kubernetes resource addressing functions
    ([isClusterResource], [uriOpts], [specUriPath]), of the spec file
    naming and serialisation helpers of [lib/kubernetes/spec.ts]
    ([kubernetesSpecFileBasename], [kubernetesSpecStringify]) and of the
    sync reconciler of [lib/sync/application.ts] ([matchSpec],
    [uniqueSpecFile], [resourceUpserted], [resourceDeleted],
    [syncResources], [syncApplication]), followed by the deletion of
    resources of [lib/kubernetes/delete.ts] ([deleteSpec],
    [deleteAppResources]), the deploy event handler of
    [lib/events/kubernetesDeploy.ts] ([HandleKubernetesDeploy],
    [failGoal]), the extension pack of [lib/k8.ts] ([kubernetesSupport],
    [configureContext]) and the package information of the tests
    ([pkgInfo]).

    Strings are sequences of ASCII characters, which is what Kubernetes
    kinds, names and namespaces are made of; [toLowerCase] acts on the
    letters A-Z. *)

From Stdlib Require Import String Ascii List Bool Arith ZArith Lia Permutation.
Import ListNotations.
Open Scope list_scope.
Open Scope string_scope.

(* ================================================================== *)
(** * Strings as JavaScript uses them here *)

Definition isUpper (c : ascii) : bool :=
  Nat.leb 65 (nat_of_ascii c) && Nat.leb (nat_of_ascii c) 90.

Definition isLower (c : ascii) : bool :=
  Nat.leb 97 (nat_of_ascii c) && Nat.leb (nat_of_ascii c) 122.

Definition lowerChar (c : ascii) : ascii :=
  if isUpper c then ascii_of_nat (nat_of_ascii c + 32) else c.

(** [String.prototype.toLowerCase] on ASCII text. *)
Fixpoint toLowerCase (s : string) : string :=
  match s with
  | EmptyString => EmptyString
  | String c r => String (lowerChar c) (toLowerCase r)
  end.

(** JavaScript truthiness of a possibly undefined string: [undefined]
    and the empty string are falsy. *)
Definition truthy (o : option string) : bool :=
  match o with
  | Some s => negb (s =? "")
  | None => false
  end.

(** Strict equality [===] on two possibly undefined strings. *)
Definition strictEq (a b : option string) : bool :=
  match a, b with
  | Some x, Some y => x =? y
  | None, None => true
  | _, _ => false
  end.

(** What a template literal prints for a possibly undefined string. *)
Definition interpolate (o : option string) : string :=
  match o with
  | Some s => s
  | None => "undefined"
  end.

Definition inb (x : string) (l : list string) : bool :=
  existsb (String.eqb x) l.

(* ================================================================== *)
(** * Data model *)

(** Modelled from the spec: the declaration of the resource object type
    ([K8sObject], lib/kubernetes/api.ts) is not among the sources.  The
    data model gives it an [apiVersion], a [kind] that path computation
    may find missing, metadata with an optional [name], an optional
    [namespace] and labels, and a payload that depends on the kind. *)
Record ObjectMeta := {
  name : option string;
  namespace : option string;
  labels : list (string * string)
}.

Record K8sObject := {
  apiVersion : string;
  kind : option string;
  metadata : ObjectMeta;
  data : list (string * string);
  payload : string
}.

(** Errors raised to the caller carry a message. *)
Inductive Exn :=
| ValidationError (msg : string)
| TypeError (msg : string)
| Failure (msg : string).

Definition message (e : Exn) : string :=
  match e with
  | ValidationError m | TypeError m | Failure m => m
  end.

(** [e.message = prefix + e.message]: the error object is kept, its
    message is rewritten. *)
Definition setMessage (f : string -> string) (e : Exn) : Exn :=
  match e with
  | ValidationError m => ValidationError (f m)
  | TypeError m => TypeError (f m)
  | Failure m => Failure (f m)
  end.

(* ================================================================== *)
(** * Resource classifier and URI path builder *)

Module Api.

(** The closed set of API actions. *)
Inductive K8sApiAction :=
| ACreate | ADelete | AList | APatch | ARead | AReplace.

Definition apiActions : list K8sApiAction :=
  [ACreate; ADelete; AList; APatch; ARead; AReplace].

Definition clusterResources : list string :=
  [ "APIService"; "AuditSink"; "CertificateSigningRequest";
    "ClusterCustomObject"; "ClusterRole"; "ClusterRoleBinding";
    "CustomResourceDefinition"; "InitializerConfiguration";
    "MutatingWebhookConfiguration"; "Namespace"; "Node";
    "PersistentVolume"; "PodSecurityPolicy"; "PriorityClass";
    "SelfSubjectAccessReview"; "SelfSubjectRulesReview"; "StorageClass";
    "SubjectAccessReview"; "TokenReview";
    "ValidatingWebhookConfiguration"; "VolumeAttachment" ].

Definition clusterStatuses : list string :=
  [ "APIServiceStatus"; "CertificateSigningRequestStatus";
    "CustomResourceDefinitionStatus"; "NamespaceStatus"; "NodeStatus";
    "PersistentVolumeStatus"; "VolumeAttachmentStatus" ].

Definition statusAction (a : K8sApiAction) : bool :=
  match a with
  | APatch | ARead | AReplace => true
  | _ => false
  end.

Definition componentStatusAction (a : K8sApiAction) : bool :=
  match a with
  | AList | ARead => true
  | _ => false
  end.

(** Modelled from the spec: [isClusterResource] (lib/kubernetes/api.ts)
    is not among the sources; only its tests are.  Section 4.1: a kind
    of the cluster-resource list is cluster-scoped for every action, a
    status kind for patch, read and replace, [ComponentStatus] for list
    and read, and every other kind is namespaced. *)
Definition isClusterResource (action : K8sApiAction) (k : string) : bool :=
  if inb k clusterResources then true
  else if inb k clusterStatuses then statusAction action
  else if k =? "ComponentStatus" then componentStatusAction action
  else false.

Record UriOpts := {
  appendName : bool;
  namespaceRequired : bool
}.

(** Modelled from the spec: [uriOpts] (lib/kubernetes/api.ts) is not
    among the sources; only its tests are.  Section 4.2: the name is
    appended for delete, patch, read and replace, and a namespace is
    required when the kind is not cluster-scoped for the action; the
    tests of [uriOpts] have it that listing never requires one. *)
Definition uriOpts (action : K8sApiAction) (k : string) : UriOpts :=
  {| appendName :=
       match action with
       | ACreate | AList => false
       | _ => true
       end;
     namespaceRequired :=
       match action with
       | AList => false
       | _ => negb (isClusterResource action k)
       end |}.

(** The irregular plurals the spec lists by name; every other kind takes
    the default rule. *)
Definition irregularPlurals : list (string * string) :=
  [ ("Ingress", "ingresses");
    ("NetworkPolicy", "networkpolicies");
    ("StorageClass", "storageclasses") ].

Fixpoint assoc (k : string) (l : list (string * string)) : option string :=
  match l with
  | [] => None
  | (k', v) :: r => if k =? k' then Some v else assoc k r
  end.

(** Modelled from the spec: the plural of a kind is its lowercase form
    plus "s", overridden by the table of irregular plurals. *)
Definition pluralKind (k : string) : string :=
  match assoc k irregularPlurals with
  | Some p => p
  | None => toLowerCase k ++ "s"
  end.

Section Path.

(** The rendering of the offending object that ends an error message. *)
Variable stringifyObject : K8sObject -> string.

(** Modelled from the spec: [specUriPath] (lib/kubernetes/api.ts) is not
    among the sources; only its tests are.  Section 4.2, steps 1 to 6:
    a missing kind is a validation error; the prefix is the apiVersion
    verbatim; the namespace segment is inserted only if the namespace
    is set (step 4 names a failure for a namespace that is missing and
    takes it back in the same sentence, and no test expects one); the
    name is appended, and must be there, for the actions that append
    it. *)
Definition specUriPath (o : K8sObject) (action : K8sApiAction)
  : Exn + string :=
  match kind o with
  | None =>
      inl (ValidationError ("Spec does not contain kind: " ++ stringifyObject o))
  | Some k =>
      let opts := uriOpts action k in
      let pfx := apiVersion o in
      let plural := pluralKind k in
      let base :=
        match namespace (metadata o) with
        | Some ns => pfx ++ "/namespaces/" ++ ns
        | None => pfx
        end in
      if appendName opts then
        match name (metadata o) with
        | None =>
            inl (ValidationError
                   ("Spec does not contain name: " ++ stringifyObject o))
        | Some n => inr (base ++ "/" ++ plural ++ "/" ++ n)
        end
      else inr (base ++ "/" ++ plural)
  end.

End Path.

End Api.

(* ================================================================== *)
(** * Spec file names and serialisation (lib/kubernetes/spec.ts) *)

Module Spec.

(** The [switch (resource.kind)] that picks the ordering prefix.  A
    missing kind falls to the default case. *)
Definition orderPrefix (k : option string) : string :=
  match k with
  | None => "90"
  | Some k =>
      if k =? "Namespace" then "10"
      else if (k =? "PersistentVolume") || (k =? "StorageClass") then "15"
      else if k =? "ServiceAccount" then "20"
      else if (k =? "ClusterRole") || (k =? "Role") then "25"
      else if (k =? "ClusterRoleBinding") || (k =? "RoleBinding") then "30"
      else if (k =? "NetworkPolicy") || (k =? "PersistentVolumeClaim")
              || (k =? "PodSecurityPolicy") then "40"
      else if k =? "Service" then "50"
      else if (k =? "ConfigMap") || (k =? "Secret") then "60"
      else if (k =? "CronJob") || (k =? "DaemonSet") || (k =? "Deployment")
              || (k =? "StatefulSet") then "70"
      else if (k =? "HorizontalPodAutoscaler") || (k =? "Ingress")
              || (k =? "PodDisruptionBudget") then "80"
      else "90"
  end.

(** [s.replace(/([a-z])([A-Z])/g, "$1-$2")]: the scan goes left to
    right, and after a match it resumes behind the two characters that
    matched. *)
Fixpoint replaceLowerUpper (s : string) : string :=
  match s with
  | EmptyString => EmptyString
  | String a t =>
      match t with
      | EmptyString => String a EmptyString
      | String b r =>
          if isLower a && isUpper b
          then String a (String "-" (String b (replaceLowerUpper r)))
          else String a (replaceLowerUpper t)
      end
  end.

(** The reading of the same conversion in prose: a hyphen goes between
    every lowercase letter and the uppercase letter that follows it. *)
Fixpoint hyphenateBoundaries (s : string) : string :=
  match s with
  | EmptyString => EmptyString
  | String a t =>
      match t with
      | EmptyString => String a EmptyString
      | String b _ =>
          if isLower a && isUpper b
          then String a (String "-" (hyphenateBoundaries t))
          else String a (hyphenateBoundaries t)
      end
  end.

(** [kubernetesSpecFileBasename]: reading [replace] off a missing kind
    is a [TypeError]; a missing name prints as "undefined". *)
Definition kubernetesSpecFileBasename (resource : K8sObject) : Exn + string :=
  let pfx := orderPrefix (kind resource) in
  let ns :=
    if truthy (namespace (metadata resource))
    then interpolate (namespace (metadata resource)) ++ "_"
    else "" in
  match kind resource with
  | None => inl (TypeError "Cannot read property 'replace' of undefined")
  | Some k =>
      let kebabKind := replaceLowerUpper k in
      inr (toLowerCase
             (pfx ++ "_" ++ ns ++ interpolate (name (metadata resource))
                  ++ "_" ++ kebabKind))
  end.

Inductive Format := Json | Yaml.

Record KubernetesSpecStringifyOptions := {
  format : option Format;
  secretKey : option string
}.

Definition newline : string := String (ascii_of_nat 10) EmptyString.

Section Stringify.

(** The serialisers and the secret encryption are collaborators. *)
Variable yamlSafeDump : K8sObject -> string.
Variable stableStringify : K8sObject -> string.
Variable encryptSecret : K8sObject -> string -> K8sObject.

Definition kubernetesSpecStringify
  (spec : K8sObject) (options : KubernetesSpecStringifyOptions) : string :=
  let resource :=
    if strictEq (kind spec) (Some "Secret") && truthy (secretKey options)
    then encryptSecret spec (interpolate (secretKey options))
    else spec in
  match format options with
  | Some Yaml => yamlSafeDump resource
  | _ => stableStringify resource ++ newline
  end.

End Stringify.

End Spec.

(* ================================================================== *)
(** * The working copy, the logger and the source of random names *)

Record ProjectFile := {
  path : string;
  content : string
}.

Inductive Event :=
| LogWarn (msg : string)
| LogError (msg : string)
| Committed (msg : string)
| Pushed
| ProjectLoaded.

(** Everything a sync pass reads or changes: the files of the working
    copy in the order the project lists them, the tree of the last
    commit, the journal of what was logged, committed and pushed
    (newest first), the values the coming [guid()] calls return, and
    whether the commit and the push of this pass throw. *)
Record World := {
  files : list ProjectFile;
  headTree : list ProjectFile;
  journal : list Event;
  guids : list string;
  commitFault : option Exn;
  pushFault : option Exn
}.

Definition withFiles (fs : list ProjectFile) (w : World) : World :=
  {| files := fs; headTree := headTree w; journal := journal w;
     guids := guids w; commitFault := commitFault w;
     pushFault := pushFault w |}.

Definition withHead (t : list ProjectFile) (w : World) : World :=
  {| files := files w; headTree := t; journal := journal w;
     guids := guids w; commitFault := commitFault w;
     pushFault := pushFault w |}.

Definition withGuids (gs : list string) (w : World) : World :=
  {| files := files w; headTree := headTree w; journal := journal w;
     guids := gs; commitFault := commitFault w;
     pushFault := pushFault w |}.

Definition record (e : Event) (w : World) : World :=
  {| files := files w; headTree := headTree w; journal := e :: journal w;
     guids := guids w; commitFault := commitFault w;
     pushFault := pushFault w |}.

(** The outcome of an asynchronous computation: a value, a thrown
    error, or a loop that has used up every random value it was given
    and would go on. *)
Inductive Res (A : Type) :=
| Ok (a : A)
| Thrown (e : Exn)
| Diverges.

Arguments Ok {A} a.
Arguments Thrown {A} e.
Arguments Diverges {A}.

Definition M (A : Type) : Type := World -> World * Res A.

Definition ret {A} (a : A) : M A := fun w => (w, Ok a).

Definition throw {A} (e : Exn) : M A := fun w => (w, Thrown e).

Definition bind {A B} (m : M A) (k : A -> M B) : M B :=
  fun w =>
    match m w with
    | (w', Ok a) => k a w'
    | (w', Thrown e) => (w', Thrown e)
    | (w', Diverges) => (w', Diverges)
    end.

(** [try { m } catch (e) { h e }] *)
Definition tryCatch {A} (m : M A) (h : Exn -> M A) : M A :=
  fun w =>
    match m w with
    | (w', Thrown e) => h e w'
    | r => r
    end.

Notation "x <- m ;; k" := (bind m (fun x => k))
  (at level 61, m at next level, right associativity).
Notation "m ;;; k" := (bind m (fun _ => k))
  (at level 61, right associativity).

(** [for (const x of l) { await f(x); }] *)
Fixpoint forEach {A} (f : A -> M unit) (l : list A) : M unit :=
  match l with
  | [] => ret tt
  | x :: r => f x ;;; forEach f r
  end.

(** A left-to-right loop that carries an accumulator. *)
Fixpoint foldM {A B} (f : B -> A -> M B) (acc : B) (l : list A) : M B :=
  match l with
  | [] => ret acc
  | x :: r => acc' <- f acc x ;; foldM f acc' r
  end.

Definition logWarn (msg : string) : M unit :=
  fun w => (record (LogWarn msg) w, Ok tt).

Definition logError (msg : string) : M unit :=
  fun w => (record (LogError msg) w, Ok tt).

(** ** The project operations the reconciler calls *)

Definition hasPath (p : string) (fs : list ProjectFile) : bool :=
  existsb (fun f => path f =? p) fs.

Fixpoint lookupFile (p : string) (fs : list ProjectFile) : option string :=
  match fs with
  | [] => None
  | f :: r => if path f =? p then Some (content f) else lookupFile p r
  end.

(** [p.getFile(path)], used for its truthiness only. *)
Definition getFile (p : string) : M bool :=
  fun w => (w, Ok (hasPath p (files w))).

Definition overwrite (p c : string) (f : ProjectFile) : ProjectFile :=
  if path f =? p then {| path := p; content := c |} else f.

(** [file.setContent(c)] on the file at path [p]. *)
Definition setContent (p c : string) : M unit :=
  fun w => (withFiles (map (overwrite p c) (files w)) w, Ok tt).

(** [p.addFile(path, content)]: the project lists the new file last. *)
Definition addFile (p c : string) : M unit :=
  fun w =>
    (withFiles (files w ++ [{| path := p; content := c |}])%list w, Ok tt).

(** [p.deleteFile(path)] *)
Definition deleteFile (p : string) : M unit :=
  fun w =>
    (withFiles (filter (fun f => negb (path f =? p)) (files w)) w, Ok tt).

(** Whether the first tree holds each file of the second one with the
    same content. *)
Definition holdsAll (a b : list ProjectFile) : bool :=
  forallb
    (fun f => strictEq (lookupFile (path f) a) (Some (content f))) b.

(** [p.isClean()]: the working copy has nothing to commit when it and
    the last commit hold the same files with the same contents. *)
Definition sameTree (a b : list ProjectFile) : bool :=
  holdsAll a b && holdsAll b a.

Definition isClean : M bool :=
  fun w => (w, Ok (sameTree (files w) (headTree w))).

(** [p.commit(msg)] *)
Definition commit (msg : string) : M unit :=
  fun w =>
    match commitFault w with
    | Some e => (w, Thrown e)
    | None => (record (Committed msg) (withHead (files w) w), Ok tt)
    end.

(** [p.push()] *)
Definition push : M unit :=
  fun w =>
    match pushFault w with
    | Some e => (w, Thrown e)
    | None => (record Pushed w, Ok tt)
    end.

(* ================================================================== *)
(** * Requests and configuration *)

Module Request.

Record KubernetesDelete := {
  name : string;
  ns : string;
  workspaceId : string
}.

(** Modelled from the spec: [appName] (lib/kubernetes/request.ts) is not
    among the sources.  The commit message names the application as
    namespace, slash, name. *)
Definition appName (app : KubernetesDelete) : string :=
  ns app ++ "/" ++ name app.

End Request.

Module RepoRef.

Record RemoteRepoRef := {
  owner : string;
  repo : string;
  url : string
}.

End RepoRef.

Module Config.

(** [Partial<KubernetesSyncOptions>]: every property may be missing. *)
Record KubernetesSyncOptions := {
  repo : option RepoRef.RemoteRepoRef;
  credentials : option string;
  secretKey : option string
}.

End Config.

(* ================================================================== *)
(** * The sync reconciler (lib/sync/application.ts) *)

Module Sync.

Inductive SyncAction := Upsert | Delete.

Record ProjectFileSpec := {
  file : ProjectFile;
  spec : K8sObject
}.

(** The predicate of [matchSpec]: kind, name and namespace are compared
    with [===]; the apiVersion is not looked at. *)
Definition sameObject (a b : K8sObject) : bool :=
  strictEq (kind a) (kind b)
  && strictEq (name (metadata a)) (name (metadata b))
  && strictEq (namespace (metadata a)) (namespace (metadata b)).

(** [fileSpecs.find(fs => ...)] *)
Definition matchSpec (s : K8sObject) (fileSpecs : list ProjectFileSpec)
  : option ProjectFileSpec :=
  find (fun fs => sameObject s (spec fs)) fileSpecs.

(** [g.split(c)[0]] *)
Fixpoint firstSegment (c : ascii) (g : string) : string :=
  match g with
  | EmptyString => EmptyString
  | String a r =>
      if Ascii.eqb a c then EmptyString else String a (firstSegment c r)
  end.

Definition suffixed (specRoot g : string) : string :=
  specRoot ++ "_" ++ firstSegment "-" g ++ ".json".

(** The [while] loop of [uniqueSpecFile]: as long as a file sits at
    [specPath], the next [guid()] gives another candidate.  The loop
    stops with [None] when the supply of random values ends first. *)
Fixpoint untilFree (fs : list ProjectFile) (specRoot specPath : string)
  (gs : list string) {struct gs} : option string * list string :=
  if hasPath specPath fs then
    match gs with
    | [] => (None, [])
    | g :: gs' => untilFree fs specRoot (suffixed specRoot g) gs'
    end
  else (Some specPath, gs).

Definition uniqueSpecFile (resource : K8sObject) : M string :=
  fun w =>
    match Spec.kubernetesSpecFileBasename resource with
    | inl e => (w, Thrown e)
    | inr specRoot =>
        match untilFree (files w) specRoot (specRoot ++ ".json") (guids w) with
        | (Some p, gs) => (withGuids gs w, Ok p)
        | (None, gs) => (withGuids gs w, Diverges)
        end
    end.

(** [/\.ya?ml$/.test(p)]: the search tries every start position, and
    at each one what is left must be the whole extension. *)
Fixpoint yamlPath (p : string) : bool :=
  (p =? ".yml") || (p =? ".yaml")
  || match p with
     | EmptyString => false
     | String _ r => yamlPath r
     end.

(** [resourceDeleted] *)
Definition resourceDeleted (resource : K8sObject)
  (fs : option ProjectFileSpec) : M unit :=
  match fs with
  | Some m => deleteFile (path (file m))
  | None => ret tt
  end.

Section Reconciler.

Variable parseKubernetesSpecFile : ProjectFile -> Exn + K8sObject.
Variable k8sSpecGlob : string -> bool.
Variable yamlSafeDump : K8sObject -> string.
Variable stableStringify : K8sObject -> string.
Variable encryptSecret : K8sObject -> string -> K8sObject.
Variable commitTag : string.
Variable validSyncOptions : Config.KubernetesSyncOptions -> bool.

Definition stringify :=
  Spec.kubernetesSpecStringify yamlSafeDump stableStringify encryptSecret.

Definition formatFor (fs : option ProjectFileSpec) : Spec.Format :=
  match fs with
  | Some m => if yamlPath (path (file m)) then Spec.Yaml else Spec.Json
  | None => Spec.Json
  end.

(** [resourceUpserted] *)
Definition resourceUpserted (resource : K8sObject)
  (fs : option ProjectFileSpec) (opts : Config.KubernetesSyncOptions)
  : M unit :=
  let stringifyOptions :=
    {| Spec.format := Some (formatFor fs);
       Spec.secretKey := Config.secretKey opts |} in
  let resourceString := stringify resource stringifyOptions in
  match fs with
  | Some m => setContent (path (file m)) resourceString
  | None =>
      specPath <- uniqueSpecFile resource ;;
      addFile specPath resourceString
  end.

(** The callback handed to [doWithFiles]: a file that parses adds a
    pair, a file that does not is logged. *)
Definition collectSpec (specs : list ProjectFileSpec) (f : ProjectFile)
  : M (list ProjectFileSpec) :=
  tryCatch
    (fun w =>
       match parseKubernetesSpecFile f with
       | inr s => (w, Ok (specs ++ [{| file := f; spec := s |}])%list)
       | inl e => (w, Thrown e)
       end)
    (fun e =>
       logWarn ("Failed to process sync repo spec " ++ path f
                  ++ ", ignoring: " ++ message e) ;;;
       ret specs).

(** [projectUtils.doWithFiles(syncProject, k8sSpecGlob, ...)] when the
    parses complete in the order in which the project lists the files
    that match the glob; [scanProjectIn] below is the scan for every
    order of completion. *)
Definition scanProject : M (list ProjectFileSpec) :=
  fun w =>
    foldM collectSpec [] (filter (fun f => k8sSpecGlob (path f)) (files w)) w.

(** [doWithFiles] hands the files that match the glob to the callback
    without waiting for it, and the callback adds its pair, or logs its
    warning, once its file is parsed: pairs and warnings come in the
    order in which the parses complete.  [completion] is that order, a
    rearrangement of the files that match the glob; [scanProject] is
    the scan whose parses complete in the order of the project. *)
Definition scanProjectIn
  (completion : list ProjectFile -> list ProjectFile)
  : M (list ProjectFileSpec) :=
  fun w =>
    foldM collectSpec []
      (completion (filter (fun f => k8sSpecGlob (path f)) (files w))) w.

Definition syncVerb (action : SyncAction) : string :=
  match action with
  | Delete => "Delete"
  | Upsert => "Update"
  end.

Definition syncAction (action : SyncAction) (resource : K8sObject)
  (fs : option ProjectFileSpec) (opts : Config.KubernetesSyncOptions)
  : M unit :=
  match action with
  | Delete => resourceDeleted resource fs
  | Upsert => resourceUpserted resource fs opts
  end.

(** The loop over the changed resources. *)
Definition applyChanges (resources : list K8sObject) (action : SyncAction)
  (opts : Config.KubernetesSyncOptions) (specs : list ProjectFileSpec)
  : M unit :=
  forEach
    (fun resource => syncAction action resource (matchSpec resource specs) opts)
    resources.

Definition commitMessage (app : Request.KubernetesDelete)
  (action : SyncAction) : string :=
  syncVerb action ++ " specs for " ++ Request.appName app
    ++ Spec.newline ++ Spec.newline
    ++ "[atomist:generated] " ++ commitTag ++ Spec.newline.

Definition commitFailed (m : string) : string :=
  "Failed to commit and push resource changes to sync repo: " ++ m.

(** The end of the pass: nothing to do on a clean working copy,
    otherwise commit and push, and a failure of either is logged and
    thrown on with its message extended. *)
Definition commitAndPush (app : Request.KubernetesDelete)
  (action : SyncAction) : M unit :=
  clean <- isClean ;;
  if (clean : bool) then ret tt
  else
    tryCatch
      (commit (commitMessage app action) ;;; push)
      (fun e =>
         let e' := setMessage commitFailed e in
         logError (message e') ;;; throw e').

(** [syncResources(app, resources, action, opts)(syncProject)] *)
Definition syncResources (app : Request.KubernetesDelete)
  (resources : list K8sObject) (action : SyncAction)
  (opts : Config.KubernetesSyncOptions) : M unit :=
  specs <- scanProject ;;
  applyChanges resources action opts specs ;;;
  commitAndPush app action.

(** [syncResources] with the scan in a given completion order. *)
Definition syncResourcesIn
  (completion : list ProjectFile -> list ProjectFile)
  (app : Request.KubernetesDelete)
  (resources : list K8sObject) (action : SyncAction)
  (opts : Config.KubernetesSyncOptions) : M unit :=
  specs <- scanProjectIn completion ;;
  applyChanges resources action opts specs ;;;
  commitAndPush app action.

(** [projectLoader.doWithProject(params, action)]: the project is
    loaded, then the action runs on it. *)
Definition doWithProject (action : M unit) : M unit :=
  fun w => action (record ProjectLoaded w).

Definition syncFailed (slug : string) (r : RepoRef.RemoteRepoRef)
  (m : string) : string :=
  "Failed to perform sync resources from " ++ slug ++ " to sync repo "
    ++ RepoRef.owner r ++ "/" ++ RepoRef.repo r ++ ": " ++ m.

(** [syncApplication]; the configured sync options are its first
    argument here. *)
Definition syncApplication (syncOpts : Config.KubernetesSyncOptions)
  (app : Request.KubernetesDelete) (resources : list K8sObject)
  (action : SyncAction) : M unit :=
  let slug := Request.appName app in
  if negb (validSyncOptions syncOpts) then ret tt
  else
    if Nat.ltb (List.length resources) 1 then ret tt
    else
      tryCatch
        (doWithProject (syncResources app resources action syncOpts))
        (fun e =>
           match Config.repo syncOpts with
           | Some syncRepo =>
               let e' := setMessage (syncFailed slug syncRepo) e in
               logError (message e') ;;; throw e'
           | None =>
               throw (TypeError "Cannot read property 'owner' of undefined")
           end).

End Reconciler.

End Sync.

(* ================================================================== *)
(** * Vocabulary of the properties *)

(** [/needle/.test(hay)] for a pattern without special characters. *)
Fixpoint startsWith (needle hay : string) : bool :=
  match needle, hay with
  | EmptyString, _ => true
  | String a n, String b h => Ascii.eqb a b && startsWith n h
  | String _ _, EmptyString => false
  end.

Fixpoint includes (needle hay : string) : bool :=
  startsWith needle hay
  || match hay with
     | EmptyString => false
     | String _ r => includes needle r
     end.

Definition endsWith (suffix s : string) : Prop :=
  exists front, s = front ++ suffix.

(** A validation error whose message matches the pattern. *)
Definition validationMatching (pattern : string) (r : Exn + string) : Prop :=
  exists m, r = inl (ValidationError m) /\ includes pattern m = true.

Definition withApiVersion (v : string) (o : K8sObject) : K8sObject :=
  {| apiVersion := v; kind := kind o; metadata := metadata o;
     data := data o; payload := payload o |}.

(** The same logical object: equal kind, name and namespace, where two
    undefined values are equal. *)
Definition identifies (a b : K8sObject) : Prop :=
  kind a = kind b
  /\ name (metadata a) = name (metadata b)
  /\ namespace (metadata a) = namespace (metadata b).

Definition reversion (g : Sync.ProjectFileSpec -> string)
  (fs : Sync.ProjectFileSpec) : Sync.ProjectFileSpec :=
  {| Sync.file := Sync.file fs;
     Sync.spec := withApiVersion (g fs) (Sync.spec fs) |}.

(** The table of class priorities as the specification words it. *)
Definition priorityTable : list (string * string) :=
  [ ("Namespace", "10");
    ("PersistentVolume", "15"); ("StorageClass", "15");
    ("ServiceAccount", "20");
    ("ClusterRole", "25"); ("Role", "25");
    ("ClusterRoleBinding", "30"); ("RoleBinding", "30");
    ("NetworkPolicy", "40"); ("PersistentVolumeClaim", "40");
    ("PodSecurityPolicy", "40");
    ("Service", "50");
    ("ConfigMap", "60"); ("Secret", "60");
    ("CronJob", "70"); ("DaemonSet", "70"); ("Deployment", "70");
    ("StatefulSet", "70");
    ("HorizontalPodAutoscaler", "80"); ("Ingress", "80");
    ("PodDisruptionBudget", "80") ].

Definition classPriority (k : string) : string :=
  match Api.assoc k priorityTable with
  | Some nn => nn
  | None => "90"
  end.

(** The optional parts of a path. *)
Definition namespaceSegment (o : K8sObject) : string :=
  match namespace (metadata o) with
  | Some ns => "/namespaces/" ++ ns
  | None => ""
  end.

Definition nameSegment (o : K8sObject) (a : Api.K8sApiAction) (k : string)
  : string :=
  if Api.appendName (Api.uriOpts a k)
  then "/" ++ interpolate (name (metadata o))
  else "".

(** The namespaced kinds on which the tests try [uriOpts]. *)
Definition namespacedKinds : list string :=
  [ "ConfigMap"; "CronJob"; "DaemonSet"; "Deployment"; "Pod"; "Role";
    "Service"; "ServiceAccount"; "StatefulSet" ].

Definition bareObject (v : string) (k n ns : option string) : K8sObject :=
  {| apiVersion := v; kind := k;
     metadata := {| name := n; namespace := ns; labels := [] |};
     data := []; payload := "" |}.

(** The class priority of a kind: the one the table gives it, and 90
    for a kind the table does not list. *)
Definition hasPriority (k nn : string) : Prop :=
  In (k, nn) priorityTable
  \/ (~ In k (map fst priorityTable) /\ nn = "90").

(** The namespace segment of a file name with its separator. *)
Definition namespacePart (o : K8sObject) : string :=
  match namespace (metadata o) with
  | Some ns => if ns =? "" then "" else ns ++ "_"
  | None => ""
  end.

(** The objects of the matching tests. *)
Definition lyleDeployment : K8sObject :=
  bareObject "apps/v1" (Some "Deployment") (Some "lyle") (Some "lovett").

Definition severalFileSpecs : list Sync.ProjectFileSpec :=
  [ {| Sync.file := {| path := "svc.json"; content := "{}" |};
       Sync.spec := bareObject "v1" (Some "Service") (Some "lyle")
                      (Some "lovett") |};
    {| Sync.file := {| path := "jondep.json"; content := "{}" |};
       Sync.spec := bareObject "apps/v1" (Some "Deployment") (Some "jon")
                      (Some "lovett") |};
    {| Sync.file := {| path := "dep.json"; content := "{}" |};
       Sync.spec := lyleDeployment |};
    {| Sync.file := {| path := "beta-dep.json"; content := "{}" |};
       Sync.spec := bareObject "extensions/v1beta1" (Some "Deployment")
                      (Some "lyle") (Some "lovett") |} ].

(** A candidate name that is already taken. *)
Definition taken (fs : list ProjectFile) (specRoot g : string) : Prop :=
  hasPath (Sync.suffixed specRoot g) fs = true.

(** ** Collaborators to run the reconciler on

    A line-based codec stands in for the JSON and YAML libraries: a
    spec is written as its apiVersion, kind, name and namespace
    separated by commas, and read back from the first line of a file. *)
Module Fixture.

Fixpoint splitOn (c : ascii) (s : string) : list string :=
  match s with
  | EmptyString => [EmptyString]
  | String a r =>
      if Ascii.eqb a c then EmptyString :: splitOn c r
      else
        match splitOn c r with
        | h :: t => String a h :: t
        | [] => [String a EmptyString]
        end
  end.

Definition render (o : K8sObject) : string :=
  apiVersion o ++ "," ++ interpolate (kind o) ++ ","
    ++ interpolate (name (metadata o)) ++ ","
    ++ interpolate (namespace (metadata o)).

Definition stableStringify (o : K8sObject) : string := render o.

Definition yamlSafeDump (o : K8sObject) : string := render o ++ Spec.newline.

Definition encryptSecret (o : K8sObject) (key : string) : K8sObject := o.

Definition parseKubernetesSpecFile (f : ProjectFile) : Exn + K8sObject :=
  match splitOn "," (Sync.firstSegment (ascii_of_nat 10) (content f)) with
  | [v; k; n; ns] => inr (bareObject v (Some k) (Some n) (Some ns))
  | _ => inl (Failure "Unexpected token")
  end.

Fixpoint hasSuffix (suffix s : string) : bool :=
  (s =? suffix)
  || match s with
     | EmptyString => false
     | String _ r => hasSuffix suffix r
     end.

(** JSON and YAML files at the root of the repository. *)
Definition k8sSpecGlob (p : string) : bool :=
  negb (includes "/" p)
  && (hasSuffix ".json" p || hasSuffix ".yaml" p || hasSuffix ".yml" p).

Definition commitTag : string := "[atomist:sync-commit=@atomist/sdm-pack-k8s]".

Definition validSyncOptions (o : Config.KubernetesSyncOptions) : bool :=
  match Config.repo o with
  | Some _ => true
  | None => false
  end.

Definition resourceUpserted :=
  Sync.resourceUpserted yamlSafeDump stableStringify encryptSecret.

Definition syncResources :=
  Sync.syncResources parseKubernetesSpecFile k8sSpecGlob yamlSafeDump
    stableStringify encryptSecret commitTag.

Definition syncResourcesIn :=
  Sync.syncResourcesIn parseKubernetesSpecFile k8sSpecGlob yamlSafeDump
    stableStringify encryptSecret commitTag.

Definition syncApplication :=
  Sync.syncApplication parseKubernetesSpecFile k8sSpecGlob yamlSafeDump
    stableStringify encryptSecret commitTag validSyncOptions.

Definition emptyWorld (gs : list string) : World :=
  {| files := []; headTree := []; journal := []; guids := gs;
     commitFault := None; pushFault := None |}.

Definition tonina : Request.KubernetesDelete :=
  {| Request.name := "tonina"; Request.ns := "black-angel";
     Request.workspaceId := "T0N1N4" |}.

Definition syncOptions : Config.KubernetesSyncOptions :=
  {| Config.repo :=
       Some {| RepoRef.owner := "tonina"; RepoRef.repo := "black-angel";
               RepoRef.url := "https://github.com/tonina/black-angel" |};
     Config.credentials := None;
     Config.secretKey := None |}.

Definition toninaService : K8sObject :=
  bareObject "v1" (Some "Service") (Some "tonina") (Some "black-angel").

Definition toninaDeployment : K8sObject :=
  bareObject "apps/v1" (Some "Deployment") (Some "tonina")
    (Some "black-angel").

Definition toninaBetaDeployment : K8sObject :=
  bareObject "extensions/v1beta1" (Some "Deployment") (Some "tonina")
    (Some "black-angel").

End Fixture.

(** A working copy where the name of the Service spec is taken, and
    so is the first random candidate. *)
Definition crowdedWorld : World :=
  {| files :=
       [ {| path := "50_black-angel_tonina_service.json"; content := "{}" |};
         {| path := "50_black-angel_tonina_service_0a1b.json";
            content := "{}" |} ];
     headTree := [];
     journal := [];
     guids := ["0a1b-2c3d"; "4e5f-6071"; "8293-a4b5"];
     commitFault := None;
     pushFault := None |}.

(** The world after some more events, newest first. *)
Definition logged (es : list Event) (w : World) : World :=
  {| files := files w; headTree := headTree w;
     journal := (es ++ journal w)%list;
     guids := guids w; commitFault := commitFault w;
     pushFault := pushFault w |}.

(** How many commits and how many pushes a journal holds. *)
Fixpoint commits (j : list Event) : nat :=
  match j with
  | [] => 0
  | Committed _ :: r => S (commits r)
  | _ :: r => commits r
  end.

Fixpoint pushes (j : list Event) : nat :=
  match j with
  | [] => 0
  | Pushed :: r => S (pushes r)
  | _ :: r => pushes r
  end.

Section ScanVocabulary.

Variable parseKubernetesSpecFile : ProjectFile -> Exn + K8sObject.
Variable k8sSpecGlob : string -> bool.

(** The pairs of a scan in prose: one for every file that matches the
    glob and parses, in the order of the project. *)
Fixpoint parsedSpecs (fs : list ProjectFile) : list Sync.ProjectFileSpec :=
  match fs with
  | [] => []
  | f :: r =>
      if k8sSpecGlob (path f) then
        match parseKubernetesSpecFile f with
        | inr s => {| Sync.file := f; Sync.spec := s |} :: parsedSpecs r
        | inl _ => parsedSpecs r
        end
      else parsedSpecs r
  end.

Definition parseWarning (f : ProjectFile) (e : Exn) : Event :=
  LogWarn ("Failed to process sync repo spec " ++ path f ++ ", ignoring: "
             ++ message e).

(** The warnings of a scan, in the order they are logged. *)
Fixpoint parseWarnings (fs : list ProjectFile) : list Event :=
  match fs with
  | [] => []
  | f :: r =>
      if k8sSpecGlob (path f) then
        match parseKubernetesSpecFile f with
        | inr _ => parseWarnings r
        | inl e => parseWarning f e :: parseWarnings r
        end
      else parseWarnings r
  end.

End ScanVocabulary.

(** A working copy with a spec that parses and a file that does not. *)
Definition brokenWorld : World :=
  {| files :=
       [ {| path := "broken.json"; content := "{" |};
         {| path := "svc.json"; content := "v1,Service,tonina,black-angel" |} ];
     headTree :=
       [ {| path := "broken.json"; content := "{" |};
         {| path := "svc.json"; content := "v1,Service,tonina,black-angel" |} ];
     journal := [];
     guids := [];
     commitFault := None;
     pushFault := None |}.

(** The part of a pass that comes before the commit: the scan and the
    loop over the resources. *)
Definition changesApplied
  (parseKubernetesSpecFile : ProjectFile -> Exn + K8sObject)
  (k8sSpecGlob : string -> bool)
  (yamlSafeDump stableStringify : K8sObject -> string)
  (encryptSecret : K8sObject -> string -> K8sObject)
  (resources : list K8sObject) (action : Sync.SyncAction)
  (opts : Config.KubernetesSyncOptions) : M unit :=
  specs <- Sync.scanProject parseKubernetesSpecFile k8sSpecGlob ;;
  Sync.applyChanges yamlSafeDump stableStringify encryptSecret
    resources action opts specs.

(** The commit message in prose. *)
Definition describedMessage (verb : string) (app : Request.KubernetesDelete)
  (tag : string) : string :=
  verb ++ " specs for " ++ Request.ns app ++ "/" ++ Request.name app
    ++ Spec.newline ++ Spec.newline ++ "[atomist:generated] " ++ tag
    ++ Spec.newline.

(** ** Two passes in a row *)

(** The completion order of a scan rearranges the files it is given. *)
Definition rearranges (completion : list ProjectFile -> list ProjectFile)
  : Prop :=
  forall l, Permutation (completion l) l.

(** No two files at one path. *)
Fixpoint distinctPaths (fs : list ProjectFile) : bool :=
  match fs with
  | [] => true
  | f :: r => negb (hasPath (path f) r) && distinctPaths r
  end.

(** No two different resources of the list are the same logical
    object. *)
Definition oneVersionEach (rs : list K8sObject) : Prop :=
  forall r r',
    In r rs -> In r' rs -> Sync.sameObject r r' = true -> r = r'.

(** Every file that the second tree has and the first one lacks matches
    the glob. *)
Definition globbed (k8sSpecGlob : string -> bool)
  (before after : list ProjectFile) : bool :=
  forallb (fun f => hasPath (path f) before || k8sSpecGlob (path f)) after.

Section TwoPasses.

Variable parseKubernetesSpecFile : ProjectFile -> Exn + K8sObject.
Variable k8sSpecGlob : string -> bool.
Variable yamlSafeDump : K8sObject -> string.
Variable stableStringify : K8sObject -> string.
Variable encryptSecret : K8sObject -> string -> K8sObject.
Variable commitTag : string.
Variable opts : Config.KubernetesSyncOptions.

(** What an upsert writes for a resource into the file at a path. *)
Definition writtenAs (r : K8sObject) (p : string) : string :=
  Spec.kubernetesSpecStringify yamlSafeDump stableStringify encryptSecret r
    {| Spec.format := Some (if Sync.yamlPath p then Spec.Yaml else Spec.Json);
       Spec.secretKey := Config.secretKey opts |}.

(** The file is one that the scan pairs with a spec of the same object
    as the resource. *)
Definition claimed (r : K8sObject) (f : ProjectFile) : bool :=
  k8sSpecGlob (path f)
  && match parseKubernetesSpecFile f with
     | inr s => Sync.sameObject r s
     | inl _ => false
     end.

(** What was written for a resource at a path parses back to the same
    logical object. *)
Definition readsBack (r : K8sObject) (p : string) : bool :=
  match
    parseKubernetesSpecFile {| path := p; content := writtenAs r p |}
  with
  | inr s => Sync.sameObject r s
  | inl _ => false
  end.

Definition faithful (rs : list K8sObject) (fs : list ProjectFile) : bool :=
  forallb (fun r => forallb (fun f => readsBack r (path f)) fs) rs.

(** One step of the loop of an upsert pass over the pairs of a scan. *)
Definition upsertStep (specs : list Sync.ProjectFileSpec) (r : K8sObject)
  : M unit :=
  Sync.resourceUpserted yamlSafeDump stableStringify encryptSecret r
    (Sync.matchSpec r specs) opts.

(** No resource of the list is described by two spec files of the
    project. *)
Definition oneFileEach (rs : list K8sObject) (fs : list ProjectFile)
  : Prop :=
  forall r x y,
    In r rs ->
    In x (parsedSpecs parseKubernetesSpecFile k8sSpecGlob fs) ->
    In y (parsedSpecs parseKubernetesSpecFile k8sSpecGlob fs) ->
    Sync.sameObject r (Sync.spec x) = true ->
    Sync.sameObject r (Sync.spec y) = true ->
    Sync.file x = Sync.file y.

(** The file holds what an upsert writes for the resource; when its
    path is one of the project that the pass started from, the resource
    matched the file of that path among the pairs of the scan. *)
Definition writtenFor (F0 : list ProjectFile)
  (specs : list Sync.ProjectFileSpec) (r : K8sObject) (f : ProjectFile)
  : Prop :=
  content f = writtenAs r (path f)
  /\ (hasPath (path f) F0 = true ->
      exists m,
        Sync.matchSpec r specs = Some m /\ path (Sync.file m) = path f).

(** The file is one of the project that the pass started from, and no
    resource handled so far matched the file of its path. *)
Definition untouched (F0 : list ProjectFile)
  (specs : list Sync.ProjectFileSpec) (done : list K8sObject)
  (f : ProjectFile) : Prop :=
  In f F0
  /\ forall r m,
       In r done -> Sync.matchSpec r specs = Some m ->
       path (Sync.file m) <> path f.

(** How the files of an upsert pass under way relate to the files [F0]
    it started from and to the pairs of its scan, [done] being the
    resources handled so far: no path of [F0] is lost, every file is
    untouched or written for one of them, and each of them has a file
    written for it. *)
Definition passState (F0 : list ProjectFile)
  (specs : list Sync.ProjectFileSpec) (done : list K8sObject)
  (F : list ProjectFile) : Prop :=
  NoDup (map path F)
  /\ (forall p, hasPath p F0 = true -> hasPath p F = true)
  /\ (forall f,
        In f F ->
        untouched F0 specs done f
        \/ exists r, In r done /\ writtenFor F0 specs r f)
  /\ (forall r, In r done -> exists f, In f F /\ writtenFor F0 specs r f).

(** A second upsert pass with the same resources is quiet: it
    succeeds, leaves every file as it is, and neither commits nor
    pushes. *)
Definition secondPassQuiet (app : Request.KubernetesDelete)
  (resources : list K8sObject) (w1 : World) : Prop :=
  exists w2,
    Sync.syncResources parseKubernetesSpecFile k8sSpecGlob yamlSafeDump
      stableStringify encryptSecret commitTag app resources Sync.Upsert
      opts w1 = (w2, Ok tt)
    /\ files w2 = files w1
    /\ headTree w2 = headTree w1
    /\ commits (journal w2) = commits (journal w1)
    /\ pushes (journal w2) = pushes (journal w1).

(** The same of a second pass whose scan completes in a given order. *)
Definition secondPassQuietIn
  (completion : list ProjectFile -> list ProjectFile)
  (app : Request.KubernetesDelete)
  (resources : list K8sObject) (w1 : World) : Prop :=
  exists w2,
    Sync.syncResourcesIn parseKubernetesSpecFile k8sSpecGlob yamlSafeDump
      stableStringify encryptSecret commitTag completion app resources
      Sync.Upsert opts w1 = (w2, Ok tt)
    /\ files w2 = files w1
    /\ headTree w2 = headTree w1
    /\ commits (journal w2) = commits (journal w1)
    /\ pushes (journal w2) = pushes (journal w1).

End TwoPasses.

(** Idempotence for every list of resources, as the statement has it,
    the scans completing in the order of the project: the collaborators
    read back what they write, the files that a pass adds are spec
    files, the project holds one file per path, and the first pass
    succeeds. *)
Definition upsertTwiceQuiet : Prop :=
  forall (parseKubernetesSpecFile : ProjectFile -> Exn + K8sObject)
         (k8sSpecGlob : string -> bool)
         (yamlSafeDump stableStringify : K8sObject -> string)
         (encryptSecret : K8sObject -> string -> K8sObject)
         (commitTag : string) (opts : Config.KubernetesSyncOptions)
         (app : Request.KubernetesDelete) (resources : list K8sObject)
         (w0 w1 : World),
    distinctPaths (files w0) = true ->
    Sync.syncResources parseKubernetesSpecFile k8sSpecGlob yamlSafeDump
      stableStringify encryptSecret commitTag app resources Sync.Upsert
      opts w0 = (w1, Ok tt) ->
    faithful parseKubernetesSpecFile yamlSafeDump stableStringify
      encryptSecret opts resources (files w1) = true ->
    globbed k8sSpecGlob (files w0) (files w1) = true ->
    secondPassQuiet parseKubernetesSpecFile k8sSpecGlob yamlSafeDump
      stableStringify encryptSecret commitTag opts app resources w1.

(** A codec that writes the payload too, which tells two versions of
    one object apart: a spec is written as its apiVersion, kind, name,
    namespace and payload separated by commas. *)
Module Detailed.

Definition render (o : K8sObject) : string :=
  Fixture.render o ++ "," ++ payload o.

Definition stableStringify (o : K8sObject) : string := render o.

Definition yamlSafeDump (o : K8sObject) : string := render o ++ Spec.newline.

Definition parseKubernetesSpecFile (f : ProjectFile) : Exn + K8sObject :=
  match
    Fixture.splitOn "," (Sync.firstSegment (ascii_of_nat 10) (content f))
  with
  | [v; k; n; ns; body] =>
      inr {| apiVersion := v; kind := Some k;
             metadata := {| name := Some n; namespace := Some ns;
                            labels := [] |};
             data := []; payload := body |}
  | _ => inl (Failure "Unexpected token")
  end.

Definition syncResources :=
  Sync.syncResources parseKubernetesSpecFile Fixture.k8sSpecGlob yamlSafeDump
    stableStringify Fixture.encryptSecret Fixture.commitTag.

Definition deployment (body : string) : K8sObject :=
  {| apiVersion := "apps/v1"; kind := Some "Deployment";
     metadata := {| name := Some "tonina"; namespace := Some "black-angel";
                    labels := [] |};
     data := []; payload := body |}.

End Detailed.

(** The world after a first pass, on an empty repository, for two
    versions of one Deployment: the same apiVersion, kind, name and
    namespace, with one replica and with two. *)
Definition twoVersions : list K8sObject :=
  [Detailed.deployment "replicas=1"; Detailed.deployment "replicas=2"].

Definition afterFirstPass : World :=
  fst (Detailed.syncResources Fixture.tonina twoVersions Sync.Upsert
         Fixture.syncOptions (Fixture.emptyWorld ["0a1b-2c3d"])).

Definition afterSecondPass : World :=
  fst (Detailed.syncResources Fixture.tonina twoVersions Sync.Upsert
         Fixture.syncOptions afterFirstPass).

(** A first pass for a Deployment, listed twice, and a Service, on the
    working copy that already has a file for the Service, the scan
    completing in the reverse of the order of the project. *)
Definition stockedWorld : World := withGuids ["0a1b-2c3d"] brokenWorld.

Definition deploymentAndService : list K8sObject :=
  [Fixture.toninaDeployment; Fixture.toninaService; Fixture.toninaDeployment].

(** A working copy in which two files describe the Service. *)
Definition doubledWorld : World :=
  {| files :=
       [ {| path := "svc.json"; content := "v1,Service,tonina,black-angel" |};
         {| path := "old-svc.json";
            content := "v1beta1,Service,tonina,black-angel" |} ];
     headTree :=
       [ {| path := "svc.json"; content := "v1,Service,tonina,black-angel" |};
         {| path := "old-svc.json";
            content := "v1beta1,Service,tonina,black-angel" |} ];
     journal := [];
     guids := [];
     commitFault := None;
     pushFault := None |}.

Definition afterDoubledPass : World :=
  fst (Fixture.syncResourcesIn (fun l => l) Fixture.tonina
         [Fixture.toninaService] Sync.Upsert Fixture.syncOptions
         doubledWorld).

Definition afterReversedPass : World :=
  fst (Fixture.syncResourcesIn (@rev ProjectFile) Fixture.tonina
         deploymentAndService Sync.Upsert Fixture.syncOptions stockedWorld).

(* ================================================================== *)
(** * Vocabulary of the further properties of the reconciler *)

Definition parses (parseKubernetesSpecFile : ProjectFile -> Exn + K8sObject)
  (f : ProjectFile) : bool :=
  match parseKubernetesSpecFile f with
  | inr _ => true
  | inl _ => false
  end.

Definition isWarning (e : Event) : bool :=
  match e with
  | LogWarn _ => true
  | _ => false
  end.

(** The path of the file a resource matches, if it matches one. *)
Definition matchedPath (specs : list Sync.ProjectFileSpec) (r : K8sObject)
  : list string :=
  match Sync.matchSpec r specs with
  | Some m => [path (Sync.file m)]
  | None => []
  end.

Definition deletedPaths (resources : list K8sObject)
  (specs : list Sync.ProjectFileSpec) : list string :=
  flat_map (matchedPath specs) resources.

Definition unmatched (specs : list Sync.ProjectFileSpec) (r : K8sObject)
  : bool :=
  match Sync.matchSpec r specs with
  | Some _ => false
  | None => true
  end.

(** A working copy with two spec files. *)
Definition pairWorld : World :=
  {| files :=
       [ {| path := "dep.json";
            content := "apps/v1,Deployment,tonina,black-angel" |};
         {| path := "svc.yaml";
            content := "v1,Service,tonina,black-angel" |};
         {| path := "README.md"; content := "specs" |} ];
     headTree :=
       [ {| path := "dep.json";
            content := "apps/v1,Deployment,tonina,black-angel" |};
         {| path := "svc.yaml";
            content := "v1,Service,tonina,black-angel" |};
         {| path := "README.md"; content := "specs" |} ];
     journal := [];
     guids := ["0a1b-2c3d"];
     commitFault := None;
     pushFault := None |}.

Definition toninaIngress : K8sObject :=
  bareObject "extensions/v1beta1" (Some "Ingress") (Some "tonina")
    (Some "black-angel").

(** The same working copy when the commit is refused. *)
Definition refusingWorld : World :=
  {| files := files pairWorld; headTree := headTree pairWorld;
     journal := []; guids := guids pairWorld;
     commitFault := Some (Failure "index.lock exists");
     pushFault := None |}.

(** ** Vocabulary of the properties of the file names *)

Fixpoint noUpper (s : string) : bool :=
  match s with
  | EmptyString => true
  | String c r => negb (isUpper c) && noUpper r
  end.

Fixpoint noHyphen (s : string) : bool :=
  match s with
  | EmptyString => true
  | String c r => negb (Ascii.eqb c "-") && noHyphen r
  end.

Fixpoint dropHyphens (s : string) : string :=
  match s with
  | EmptyString => EmptyString
  | String c r =>
      if Ascii.eqb c "-" then dropHyphens r else String c (dropHyphens r)
  end.

(** [b] is [s] letter for letter, but for the case: at each position
    the two have the same character, or [s] has an uppercase letter
    and [b] the character 32 code points after it. *)
Fixpoint sameLetters (s b : string) : bool :=
  match s, b with
  | EmptyString, EmptyString => true
  | String c s', String d b' =>
      (Ascii.eqb c d
       || (isUpper c && Nat.eqb (nat_of_ascii d) (nat_of_ascii c + 32)))
      && sameLetters s' b'
  | _, _ => false
  end.

(** [b] is [s] in lower case. *)
Definition lowercased (s b : string) : Prop :=
  sameLetters s b = true /\ noUpper b = true.

(** The namespace segment and its separator, there whenever the
    namespace is set. *)
Definition setNamespacePart (o : K8sObject) : string :=
  match namespace (metadata o) with
  | Some ns => ns ++ "_"
  | None => ""
  end.

(** The shape of the base name with the namespace segment there
    exactly when the namespace is set, whatever it is set to. *)
Definition basenameWheneverSet : Prop :=
  forall (r : K8sObject) (k n : string),
    kind r = Some k ->
    name (metadata r) = Some n ->
    exists nn b,
      hasPriority k nn
      /\ Spec.kubernetesSpecFileBasename r = inr b
      /\ lowercased
           (nn ++ "_" ++ setNamespacePart r ++ n ++ "_"
               ++ Spec.hyphenateBoundaries k) b.

(** The ordering prefixes of the switch. *)
Definition orderPrefixes : list string :=
  ["10"; "15"; "20"; "25"; "30"; "40"; "50"; "60"; "70"; "80"; "90"].

Definition toninaSecret : K8sObject :=
  {| apiVersion := "v1"; kind := Some "Secret";
     metadata := {| name := Some "tonina"; namespace := Some "black-angel";
                    labels := [] |};
     data := [("Track01", "w4FyYm9sIERlIExhIFZpZGE=")];
     payload := "" |}.

(* ================================================================== *)
(** * Deleting resources (lib/kubernetes/delete.ts) *)

Module Delete.

(** The arguments of a lister or a deleter call; [None] is
    [undefined]. *)
Definition CallArgs : Type := list (option string).

(** What the functions of this file do to the outside, newest first:
    calls of the API with their outcome, and lines of the log. *)
Inductive Step :=
| ListerCalled (args : CallArgs) (ok : bool)
| DeleterCalled (args : CallArgs) (ok : bool)
| ReadCalled (spec : K8sObject) (ok : bool)
| DeleteCalled (spec : K8sObject) (ok : bool)
| Info (msg : string)
| Debug (msg : string)
| Error (msg : string).

Definition succeeded {A} (r : Exn + A) : bool :=
  match r with
  | inr _ => true
  | inl _ => false
  end.

(** [r.kind = r.kind || kind]: a list response does not include the
    kind. *)
Definition backfillKind (k : string) (r : K8sObject) : K8sObject :=
  {| apiVersion := apiVersion r;
     kind := if truthy (kind r) then kind r else Some k;
     metadata := metadata r;
     data := data r;
     payload := payload r |}.

(** [args.shift()] when the resource is a cluster resource. *)
Definition listArgs (clusterResource : bool) (ns selector : string)
  : CallArgs :=
  let args := [Some ns; None; None; None; None; Some selector] in
  if clusterResource then tl args else args.

(** [args.splice(1, 1)] when the resource is a cluster resource. *)
Definition deleteArgs (clusterResource : bool) (resource : K8sObject)
  : CallArgs :=
  let args :=
    [name (metadata resource); namespace (metadata resource);
     None; None; None; None; Some "Background"] in
  if clusterResource then
    match args with
    | a :: _ :: r => a :: r
    | l => l
    end
  else args.

Definition resourceSlug (clusterResource : bool) (k : string)
  (resource : K8sObject) : string :=
  if clusterResource
  then k ++ "/" ++ interpolate (name (metadata resource))
  else k ++ "/" ++ interpolate (namespace (metadata resource)) ++ "/"
         ++ interpolate (name (metadata resource)).

Module Arg.

(** [DeleteAppResourcesArg]; the lister and the deleter act on the
    cluster and may throw. *)
Record t (Cluster : Type) := {
  kind : string;
  req : Request.KubernetesDelete;
  lister : CallArgs -> Cluster -> Cluster * (Exn + list K8sObject);
  deleter : CallArgs -> Cluster -> Cluster * (Exn + unit)
}.

Arguments kind {Cluster} _.
Arguments req {Cluster} _.
Arguments lister {Cluster} _.
Arguments deleter {Cluster} _.

End Arg.

Section Delete.

Variable Cluster : Type.
Variable Response : Type.

(** Helpers of other files. *)
Variable isClusterResource : Api.K8sApiAction -> string -> bool.
Variable specUriPath : K8sObject -> Api.K8sApiAction -> Exn + string.
Variable labelSelector : Request.KubernetesDelete -> string.
Variable errMsg : Exn -> string.
Variable stringifyObject : K8sObject -> string.

Record St := {
  cluster : Cluster;
  trace : list Step
}.

Definition note (s : Step) (st : St) : St :=
  {| cluster := cluster st; trace := s :: trace st |}.

Definition callLister (arg : Arg.t Cluster) (args : CallArgs) (st : St)
  : St * (Exn + list K8sObject) :=
  let (c, r) := Arg.lister arg args (cluster st) in
  ({| cluster := c; trace := ListerCalled args (succeeded r) :: trace st |}, r).

Definition callDeleter (arg : Arg.t Cluster) (args : CallArgs) (st : St)
  : St * (Exn + unit) :=
  let (c, r) := Arg.deleter arg args (cluster st) in
  ({| cluster := c; trace := DeleterCalled args (succeeded r) :: trace st |},
   r).

Definition deleteFailed (resourceSlug slug : string) (e : Exn) : Exn :=
  setMessage
    (fun _ => "Failed to delete " ++ resourceSlug ++ " for " ++ slug ++ ": "
                ++ errMsg e)
    e.

(** The loop over the listed resources: a failure is kept and the loop
    goes on. *)
Fixpoint deleteEach (arg : Arg.t Cluster) (clusterResource : bool)
  (slug : string) (toDelete : list K8sObject) (st : St)
  (deleted : list K8sObject) (errs : list Exn)
  : St * list K8sObject * list Exn :=
  match toDelete with
  | [] => (st, deleted, errs)
  | resource :: rest =>
      let rslug := resourceSlug clusterResource (Arg.kind arg) resource in
      let st1 := note (Info ("Deleting " ++ rslug ++ " for " ++ slug)) st in
      match callDeleter arg (deleteArgs clusterResource resource) st1 with
      | (st2, inr _) =>
          deleteEach arg clusterResource slug rest st2
            (deleted ++ [resource]) errs
      | (st2, inl e) =>
          deleteEach arg clusterResource slug rest st2 deleted
            (errs ++ [deleteFailed rslug slug e])
      end
  end.

Definition listFailed (k slug : string) (e : Exn) : Exn :=
  setMessage (fun _ => "Failed to list " ++ k ++ " for " ++ slug ++ ": "
                         ++ errMsg e) e.

Definition deletesFailed (k slug : string) (errs : list Exn) : string :=
  "Failed to delete " ++ k ++ " resources for " ++ slug ++ ": "
    ++ String.concat "; " (map message errs).

(** [deleteAppResources] *)
Definition deleteAppResources (arg : Arg.t Cluster) (st : St)
  : St * (Exn + list K8sObject) :=
  let slug := Request.appName (Arg.req arg) in
  let selector := labelSelector (Arg.req arg) in
  let clusterResource := isClusterResource Api.AList (Arg.kind arg) in
  match
    callLister arg
      (listArgs clusterResource (Request.ns (Arg.req arg)) selector) st
  with
  | (st1, inl e) =>
      let e' := listFailed (Arg.kind arg) slug e in
      (note (Error (message e')) st1, inl e')
  | (st1, inr items) =>
      let toDelete := map (backfillKind (Arg.kind arg)) items in
      match deleteEach arg clusterResource slug toDelete st1 [] [] with
      | (st2, deleted, []) => (st2, inr deleted)
      | (st2, _, errs) =>
          let msg := deletesFailed (Arg.kind arg) slug errs in
          (note (Error msg) st2, inl (Failure msg))
      end
  end.

(** The client of [deleteSpec]: whether it can be made, what its read
    and its delete do, and the retry wrapper around the delete. *)
Variable makeApiClient : Exn + unit.
Variable clientRead : K8sObject -> Cluster -> Cluster * (Exn + unit).
Variable clientDelete : K8sObject -> Cluster -> Cluster * (Exn + Response).
Variable logRetry :
  (St -> St * (Exn + Response)) -> string -> St -> St * (Exn + Response).

Definition callRead (spec : K8sObject) (st : St) : St * (Exn + unit) :=
  let (c, r) := clientRead spec (cluster st) in
  ({| cluster := c; trace := ReadCalled spec (succeeded r) :: trace st |}, r).

Definition callDelete (spec : K8sObject) (st : St)
  : St * (Exn + Response) :=
  let (c, r) := clientDelete spec (cluster st) in
  ({| cluster := c; trace := DeleteCalled spec (succeeded r) :: trace st |},
   r).

Definition clientFailed (e : Exn) : Exn :=
  setMessage (fun _ => "Failed to create Kubernetes client: " ++ errMsg e) e.

(** [deleteSpec]: [None] is the [undefined] it returns for a resource
    that does not exist. *)
Definition deleteSpec (spec : K8sObject) (st : St)
  : St * (Exn + option Response) :=
  match specUriPath spec Api.ARead with
  | inl e => (st, inl e)
  | inr slug =>
      match makeApiClient with
      | inl e =>
          let e' := clientFailed e in
          (note (Error (message e')) st, inl e')
      | inr _ =>
          match callRead spec st with
          | (st1, inl e) =>
              (note (Debug ("Kubernetes resource " ++ slug
                              ++ " does not exist: " ++ errMsg e)) st1,
               inr None)
          | (st1, inr _) =>
              let st2 :=
                note (Info ("Deleting resource " ++ slug ++ " using '"
                              ++ stringifyObject spec ++ "'")) st1 in
              match
                logRetry (callDelete spec) ("delete resource " ++ slug) st2
              with
              | (st3, inl e) => (st3, inl e)
              | (st3, inr resp) => (st3, inr (Some resp))
              end
          end
      end
  end.

End Delete.

(** The deleter calls of a trace, oldest first, and how many of them
    failed. *)
Fixpoint deleterCalls (t : list Step) : list CallArgs :=
  match t with
  | [] => []
  | DeleterCalled a _ :: r => (deleterCalls r ++ [a])%list
  | _ :: r => deleterCalls r
  end.

Fixpoint failedDeletes (t : list Step) : nat :=
  match t with
  | [] => 0
  | DeleterCalled _ false :: r => S (failedDeletes r)
  | _ :: r => failedDeletes r
  end.

Fixpoint listerCalls (t : list Step) : list CallArgs :=
  match t with
  | [] => []
  | ListerCalled a _ :: r => (listerCalls r ++ [a])%list
  | _ :: r => listerCalls r
  end.

Fixpoint deleteCalls (t : list Step) : nat :=
  match t with
  | [] => 0
  | DeleteCalled _ _ :: r => S (deleteCalls r)
  | _ :: r => deleteCalls r
  end.

(** The report of one failed delete names the kind first. *)
Definition reportsDelete (k : string) (e : Exn) : Prop :=
  startsWith ("Failed to delete " ++ k ++ "/") (message e) = true.

(** A cluster that is the list of the names it holds: the lister gives
    one object per name, the deleter removes a name and fails for a
    name that is not there or that is protected. *)
Definition sampleLister (args : CallArgs) (c : list string)
  : list string * (Exn + list K8sObject) :=
  (c, inr (map (fun n => bareObject "v1" None (Some n) (Some "rihanna")) c)).

Definition sampleDeleter (args : CallArgs) (c : list string)
  : list string * (Exn + unit) :=
  match args with
  | Some n :: _ =>
      if (n =? "protected") || negb (inb n c)
      then (c, inl (Failure ("cannot delete " ++ n)))
      else (filter (fun x => negb (x =? n)) c, inr tt)
  | _ => (c, inl (Failure "no name"))
  end.

Definition sampleArg : Arg.t (list string) :=
  {| Arg.kind := "Service";
     Arg.req := {| Request.name := "good-girl-gone-bad";
                   Request.ns := "rihanna";
                   Request.workspaceId := "AR14NN4" |};
     Arg.lister := sampleLister;
     Arg.deleter := sampleDeleter |}.

Definition sampleState (c : list string) : St (list string) :=
  {| cluster := c; trace := [] |}.

Definition sampleDelete :=
  deleteAppResources (list string) Api.isClusterResource
    (fun r => "app.kubernetes.io/name=" ++ Request.name r) message sampleArg.

(** A client on the same cluster: a resource can be read when its name
    is there. *)
Definition sampleRead (spec : K8sObject) (c : list string)
  : list string * (Exn + unit) :=
  if inb (interpolate (name (metadata spec))) c
  then (c, inr tt)
  else (c, inl (Failure "404"))%string.

Definition sampleClientDelete (spec : K8sObject) (c : list string)
  : list string * (Exn + unit) :=
  sampleDeleter [name (metadata spec)] c.

Definition sampleDeleteSpec :=
  deleteSpec (list string) unit (Api.specUriPath (fun _ => "{}")) message
    (fun _ => "{}") (inr tt) sampleRead sampleClientDelete
    (fun f _ st => f st).

End Delete.

(* ================================================================== *)
(** * The deploy event handler (lib/events/kubernetesDeploy.ts) *)

Module Deploy.

Inductive SdmGoalState := success | failure.

Module Goal.
Record t := {
  goalSetId : string;
  uniqueName : string;
  name : string
}.
End Goal.

(** [ExecuteGoalResult & HandlerResult]: every property may be
    missing. *)
Module Result.
Record t := {
  code : option Z;
  message : option string;
  description : option string;
  externalUrls : option (list string)
}.
End Result.

(** [UpdateSdmGoalParams]; the error is kept as its message. *)
Module Params.
Record t := {
  state : SdmGoalState;
  description : option string;
  error : option string;
  externalUrls : option (list string)
}.
End Params.

(** Truthiness of a possibly undefined number. *)
Definition truthyCode (c : option Z) : bool :=
  match c with
  | Some z => negb (Z.eqb z 0)
  | None => false
  end.

(** The message of [new Error(m)] for a possibly undefined [m]. *)
Definition errorOf (m : option string) : string :=
  match m with
  | Some s => s
  | None => EmptyString
  end.

(** [goalEventString] *)
Definition goalEventString (goalEvent : Goal.t) : string :=
  Goal.goalSetId goalEvent ++ "/" ++ Goal.uniqueName goalEvent.

Section Handler.

(** The world that fulfilling a goal and updating a goal act on. *)
Variable World : Type.
Variable executeKubernetesDeployFulfill :
  Goal.t -> World -> World * (Exn + Result.t).
Variable updateGoal : Goal.t -> Params.t -> World -> World * (Exn + unit).
Variable stringify : Params.t -> string.

(** The world, the lines that the handler writes to the progress log
    and the updates that it asks for, both newest first. *)
Record St := {
  world : World;
  progress : list string;
  updates : list Params.t
}.

Definition write (line : string) (st : St) : St :=
  {| world := world st; progress := line :: progress st;
     updates := updates st |}.

Definition callUpdate (goalEvent : Goal.t) (params : Params.t) (st : St)
  : St * (Exn + unit) :=
  let (w, r) := updateGoal goalEvent params (world st) in
  ({| world := w; progress := progress st; updates := params :: updates st |},
   r).

Definition callFulfill (goalEvent : Goal.t) (st : St)
  : St * (Exn + Result.t) :=
  let (w, r) := executeKubernetesDeployFulfill goalEvent (world st) in
  ({| world := w; progress := progress st; updates := updates st |}, r).

(** [failGoal] *)
Definition failGoal (goalEvent : Goal.t) (msg : string) (st : St)
  : St * Result.t :=
  let st1 := write msg st in
  let params :=
    {| Params.state := failure;
       Params.description := Some msg;
       Params.error := Some msg;
       Params.externalUrls := None |} in
  match callUpdate goalEvent params st1 with
  | (st2, inl e) =>
      let m :=
        "Failed to update SDM goal '" ++ goalEventString goalEvent
          ++ "' with params '" ++ stringify params ++ "': " ++ message e in
      (write m st2,
       {| Result.code := Some 2%Z;
          Result.message := Some (msg ++ "; " ++ m);
          Result.description := None;
          Result.externalUrls := None |})
  | (st2, inr _) =>
      (st2,
       {| Result.code := Some 1%Z;
          Result.message := Some msg;
          Result.description := None;
          Result.externalUrls := None |})
  end.

Definition withMessage (m : string) (r : Result.t) : Result.t :=
  {| Result.code := Result.code r;
     Result.message := Some m;
     Result.description := Result.description r;
     Result.externalUrls := Result.externalUrls r |}.

Definition withCode (c : Z) (r : Result.t) : Result.t :=
  {| Result.code := Some c;
     Result.message := Result.message r;
     Result.description := Result.description r;
     Result.externalUrls := Result.externalUrls r |}.

(** What [HandleKubernetesDeploy] does for one goal of the event, once
    its progress log is there. *)
Definition handleGoal (goalEvent : Goal.t) (st : St) : St * Result.t :=
  match callFulfill goalEvent st with
  | (st1, inl e) => failGoal goalEvent (message e) st1
  | (st1, inr result) =>
      let failed := truthyCode (Result.code result) in
      let updateParams :=
        {| Params.state := if failed then failure else success;
           Params.description := Result.description result;
           Params.error :=
             if failed then Some (errorOf (Result.message result)) else None;
           Params.externalUrls := Result.externalUrls result |} in
      let (st2, result1) :=
        match callUpdate goalEvent updateParams st1 with
        | (st2, inl e) =>
            let msg :=
              "Failed to update SDM goal " ++ goalEventString goalEvent
                ++ " with params '" ++ stringify updateParams ++ "': "
                ++ message e in
            (write msg st2, withMessage (message e ++ "; " ++ msg) result)
        | (st2, inr _) => (st2, result)
        end in
      (st2,
       if truthyCode (Result.code result1) then result1
       else withCode 0%Z result1)
  end.

End Handler.

(** A world that counts the deployments made; fulfilling fails for the
    goal named "broken", and updating fails for the goal set
    "offline". *)
Definition sampleFulfill (g : Goal.t) (w : nat)
  : nat * (Exn + Result.t) :=
  if Goal.name g =? "broken"
  then (w, inl (Failure "image not found"))
  else (S w,
        inr {| Result.code := None; Result.message := None;
               Result.description := Some "deployed";
               Result.externalUrls := None |}).

Definition sampleUpdate (g : Goal.t) (p : Params.t) (w : nat)
  : nat * (Exn + unit) :=
  if Goal.goalSetId g =? "offline"
  then (w, inl (Failure "no connection"))
  else (w, inr tt).

Definition sampleHandle :=
  handleGoal nat sampleFulfill sampleUpdate (fun _ => "{}").

Definition sampleStart : St nat :=
  {| world := 0; progress := []; updates := [] |}.

(** The parameters with which [failGoal] updates the goal. *)
Definition failureParams (msg : string) : Params.t :=
  {| Params.state := failure;
     Params.description := Some msg;
     Params.error := Some msg;
     Params.externalUrls := None |}.

(** The code of a result once the handler has filled it in. *)
Definition codeOf (r : Result.t) : Z :=
  match Result.code r with
  | Some z => z
  | None => 0%Z
  end.

Definition brokenGoal : Goal.t :=
  {| Goal.goalSetId := "offline"; Goal.uniqueName := "deploy#k8";
     Goal.name := "broken" |}.

Definition deployGoal : Goal.t :=
  {| Goal.goalSetId := "offline"; Goal.uniqueName := "deploy#k8";
     Goal.name := "deploy" |}.

End Deploy.

(* ================================================================== *)
(** * The extension pack (lib/k8.ts) *)

Module K8.

(** What the functions read of the kube config: for each entry of
    [contexts] its [context] property, if it has one, with the cluster
    that it names, and the current context. *)
Module KubeConfig.
Record Context := {
  cluster : option string
}.
Record Entry := {
  context : option Context
}.
Record t := {
  contexts : option (list Entry);
  currentContext : option string
}.
End KubeConfig.

Module Options.
(** [KubernetesOptions] *)
Record t := {
  context : option string;
  addCommands : option bool
}.
End Options.

(** What the functions read and change of the machine: the configured
    context and what was registered, newest first. *)
Record Sdm := {
  k8Context : option string;
  events : list string;
  commands : list string;
  startupListeners : list string
}.

Definition setContext (c : option string) (sdm : Sdm) : Sdm :=
  {| k8Context := c; events := events sdm; commands := commands sdm;
     startupListeners := startupListeners sdm |}.

Definition addEvent (e : string) (sdm : Sdm) : Sdm :=
  {| k8Context := k8Context sdm; events := e :: events sdm;
     commands := commands sdm; startupListeners := startupListeners sdm |}.

Definition addCommand (c : string) (sdm : Sdm) : Sdm :=
  {| k8Context := k8Context sdm; events := events sdm;
     commands := c :: commands sdm;
     startupListeners := startupListeners sdm |}.

Definition addStartupListener (l : string) (sdm : Sdm) : Sdm :=
  {| k8Context := k8Context sdm; events := events sdm;
     commands := commands sdm;
     startupListeners := l :: startupListeners sdm |}.

(** [entries.map(c => c.context.cluster)]: an entry without a
    [context] is a [TypeError]. *)
Fixpoint clustersOf (entries : list KubeConfig.Entry)
  : Exn + list (option string) :=
  match entries with
  | [] => inr []
  | c :: r =>
      match KubeConfig.context c with
      | None => inl (TypeError "Cannot read property 'cluster' of undefined")
      | Some x =>
          match clustersOf r with
          | inl e => inl e
          | inr l => inr (KubeConfig.cluster x :: l)
          end
      end
  end.

(** [kubeConfig.contexts.map(c => c.context.cluster)] *)
Definition clusters (kubeConfig : KubeConfig.t)
  : Exn + list (option string) :=
  match KubeConfig.contexts kubeConfig with
  | None => inl (TypeError "Cannot read property 'map' of undefined")
  | Some entries => clustersOf entries
  end.

(** [contexts.includes(x)] *)
Definition includesCluster (x : string) (contexts : list (option string))
  : bool :=
  existsb (strictEq (Some x)) contexts.

(** What [join] prints for an element. *)
Definition joinable (c : option string) : string :=
  match c with
  | Some s => s
  | None => EmptyString
  end.

Section Support.

(** What [loadKubeConfig()] gives and whether [getKubeConfig(context)]
    accepts a context. *)
Variable loadKubeConfig : Exn + KubeConfig.t.
Variable getKubeConfig : option string -> Exn + unit.

(** The context that [configureContext] assigns before it validates
    it; [None] is the [undefined] of a variable never assigned. *)
Definition assignedContext (kubeConfig : KubeConfig.t)
  (contexts : list (option string)) (sdm : Sdm) (options : Options.t)
  : option string :=
  if truthy (Options.context options) then Options.context options
  else if negb (truthy (k8Context sdm)) then
    if includesCluster "minikube" contexts
    then Some "minikube"
    else KubeConfig.currentContext kubeConfig
  else None.

Definition contextFailed (contexts : list (option string))
  (c : option string) : string :=
  "Failed to load Kubernetes cluster context '" ++ interpolate c
    ++ "'. Available contexts are: "
    ++ String.concat ", " (map joinable contexts).

(** [configureContext]: the machine afterwards and the context
    returned.  Loading the kube config and reading the clusters of its
    contexts come before the [try]. *)
Definition configureContext (sdm : Sdm) (options : Options.t)
  : Exn + (Sdm * option string) :=
  match loadKubeConfig with
  | inl e => inl e
  | inr kubeConfig =>
      match clusters kubeConfig with
      | inl e => inl e
      | inr contexts =>
          let c := assignedContext kubeConfig contexts sdm options in
          match getKubeConfig c with
          | inl _ => inl (Failure (contextFailed contexts c))
          | inr _ => inr (setContext c sdm, c)
          end
      end
  end.

(** The [configure] function of [kubernetesSupport(options)]. *)
Definition configure (options : Options.t) (isInLocalMode : bool)
  (sdm : Sdm) : Exn + Sdm :=
  let sdm1 := addEvent "kubernetesDeploy" sdm in
  let sdm2 :=
    match Options.addCommands options with
    | Some true => addCommand "kubeUndeploy" sdm1
    | _ => sdm1
    end in
  if isInLocalMode then
    match configureContext sdm2 options with
    | inl e => inl e
    | inr (sdm3, c) =>
        if strictEq c (Some "minikube")
        then inr (addStartupListener "minikubeStartupListener" sdm3)
        else inr sdm3
    end
  else inr sdm2.

End Support.

Definition blankSdm (c : option string) : Sdm :=
  {| k8Context := c; events := []; commands := []; startupListeners := [] |}.

Definition entryFor (c : string) : KubeConfig.Entry :=
  {| KubeConfig.context := Some {| KubeConfig.cluster := Some c |} |}.

Definition sampleKubeConfig : KubeConfig.t :=
  {| KubeConfig.contexts := Some [entryFor "gke-prod"; entryFor "minikube"];
     KubeConfig.currentContext := Some "gke-prod" |}.

(** A validation that accepts the clusters of the kube config and,
    without a context, the default. *)
Definition sampleGetKubeConfig (c : option string) : Exn + unit :=
  match c with
  | Some x =>
      if inb x ["gke-prod"; "minikube"]
      then inr tt
      else inl (Failure "unknown context")
  | None => inr tt
  end.

Definition sampleConfigure :=
  configure (inr sampleKubeConfig) sampleGetKubeConfig.

Definition withContext (c : option string) : Options.t :=
  {| Options.context := c; Options.addCommands := None |}.

End K8.

(* ================================================================== *)
(** * The package information of the tests *)

Module Pkg.

Definition isDigit (c : ascii) : bool :=
  Nat.leb 48 (nat_of_ascii c) && Nat.leb (nat_of_ascii c) 57.

(** The characters that the class [[^-A-Za-z0-9_.]] leaves out. *)
Definition allowed (c : ascii) : bool :=
  Ascii.eqb c "-" || isUpper c || isLower c || isDigit c
  || Ascii.eqb c "_" || Ascii.eqb c ".".

(** [s.replace(/^@/, "")] *)
Definition dropLeadingAt (s : string) : string :=
  match s with
  | String c r => if Ascii.eqb c "@" then r else s
  | EmptyString => s
  end.

(** [s.replace(/[^-A-Za-z0-9_.]+/g, "_")]: each longest run of other
    characters becomes one underscore; [inRun] tells that the character
    before was one of the run. *)
Fixpoint squash (inRun : bool) (s : string) : string :=
  match s with
  | EmptyString => EmptyString
  | String c r =>
      if allowed c then String c (squash false r)
      else if inRun then squash true r
      else String "_" (squash true r)
  end.

(** The string that [pkgInfo] makes of the name and the version of
    package.json. *)
Definition pkgInfo (name version : option string) : string :=
  squash false
    (dropLeadingAt (interpolate name ++ "_" ++ interpolate version)).

Fixpoint allAllowed (s : string) : bool :=
  match s with
  | EmptyString => true
  | String c r => allowed c && allAllowed r
  end.

End Pkg.

(* ================================================================== *)
(** * Properties *)

(** ** Strings *)

Lemma append_assoc (a b c : string) : (a ++ b) ++ c = a ++ b ++ c.
Proof.
  induction a as [|x a IH]; simpl; [reflexivity | now rewrite IH].
Qed.

Lemma append_empty_r (a : string) : a ++ "" = a.
Proof.
  induction a as [|x a IH]; simpl; [reflexivity | now rewrite IH].
Qed.

Lemma startsWith_append (n rest : string) : startsWith n (n ++ rest) = true.
Proof.
  induction n as [|x n IH]; simpl; [reflexivity|].
  now rewrite Ascii.eqb_refl.
Qed.

Lemma includes_at_front (n rest : string) : includes n (n ++ rest) = true.
Proof.
  assert (F : forall h, startsWith n h = true -> includes n h = true).
  { intros h Hh. destruct h; simpl; rewrite Hh; reflexivity. }
  apply F, startsWith_append.
Qed.

Lemma inb_In (x : string) (l : list string) : inb x l = true <-> In x l.
Proof.
  unfold inb. rewrite existsb_exists. split.
  - intros (y & Hy & E). apply String.eqb_eq in E. now subst.
  - intros H. exists x. split; [assumption | apply String.eqb_refl].
Qed.

Lemma inb_not_In (x : string) (l : list string) :
  inb x l = false <-> ~ In x l.
Proof.
  rewrite <- inb_In. destruct (inb x l); split; congruence.
Qed.

(** ** Classifier *)

Lemma status_kind_not_cluster (k : string) :
  In k Api.clusterStatuses -> inb k Api.clusterResources = false.
Proof.
  intros H. simpl in H.
  repeat (destruct H as [<- | H]; [reflexivity|]). contradiction.
Qed.

(** C2.  For each of the six actions: a kind of the cluster-resource
    list is a cluster resource whatever the action; a status kind is
    one exactly for patch, read and replace; [ComponentStatus] is one
    exactly for list and read; any other kind never is. *)
Theorem isClusterResource_classifies (a : Api.K8sApiAction) (k : string) :
  (In k Api.clusterResources -> Api.isClusterResource a k = true)
  /\ (In k Api.clusterStatuses ->
      (Api.isClusterResource a k = true
       <-> a = Api.APatch \/ a = Api.ARead \/ a = Api.AReplace))
  /\ (k = "ComponentStatus" ->
      (Api.isClusterResource a k = true <-> a = Api.AList \/ a = Api.ARead))
  /\ (~ In k Api.clusterResources -> ~ In k Api.clusterStatuses ->
      k <> "ComponentStatus" -> Api.isClusterResource a k = false).
Proof.
  unfold Api.isClusterResource. repeat split.
  - intros H. apply inb_In in H. now rewrite H.
  - rewrite (status_kind_not_cluster _ H).
    apply inb_In in H. rewrite H.
    destruct a; simpl; intros; auto; discriminate.
  - rewrite (status_kind_not_cluster _ H).
    apply inb_In in H. rewrite H.
    destruct a; simpl; intros [E | [E | E]]; congruence.
  - subst k. destruct a; simpl; intros; auto; discriminate.
  - subst k. destruct a; simpl; intros [E | E]; congruence.
  - intros H1 H2 H3.
    apply inb_not_In in H1. apply inb_not_In in H2.
    apply String.eqb_neq in H3. now rewrite H1, H2, H3.
Qed.

Lemma isClusterResource_classifies_witness :
  Api.isClusterResource Api.ADelete "Namespace" = true
  /\ (Api.isClusterResource Api.APatch "NodeStatus" = true
      <-> Api.APatch = Api.APatch \/ Api.APatch = Api.ARead
          \/ Api.APatch = Api.AReplace)
  /\ (Api.isClusterResource Api.AList "ComponentStatus" = true
      <-> Api.AList = Api.AList \/ Api.AList = Api.ARead)
  /\ Api.isClusterResource Api.ACreate "Pod" = false.
Proof.
  destruct (isClusterResource_classifies Api.ADelete "Namespace")
    as (H1 & _).
  destruct (isClusterResource_classifies Api.APatch "NodeStatus")
    as (_ & H2 & _).
  destruct (isClusterResource_classifies Api.AList "ComponentStatus")
    as (_ & _ & H3 & _).
  destruct (isClusterResource_classifies Api.ACreate "Pod")
    as (_ & _ & _ & H4).
  split; [|split; [|split]].
  - apply H1. apply inb_In. reflexivity.
  - apply H2. apply inb_In. reflexivity.
  - apply H3. reflexivity.
  - apply H4.
    + apply inb_not_In. reflexivity.
    + apply inb_not_In. reflexivity.
    + discriminate.
Defined.

(** ** URI paths *)

Lemma specUriPath_shape (describe : K8sObject -> string) (o : K8sObject)
  (a : Api.K8sApiAction) (p : string) :
  Api.specUriPath describe o a = inr p ->
  exists k,
    kind o = Some k
    /\ p = apiVersion o ++ namespaceSegment o ++ "/" ++ Api.pluralKind k
             ++ nameSegment o a k.
Proof.
  unfold Api.specUriPath, namespaceSegment, nameSegment.
  destruct (kind o) as [k|]; [|discriminate].
  intros H. exists k. split; [reflexivity|].
  destruct (namespace (metadata o)) as [ns|].
  - destruct (Api.appendName (Api.uriOpts a k)).
    + destruct (name (metadata o)) as [n|]; [|discriminate].
      injection H as <-. simpl interpolate.
      now rewrite !append_assoc.
    + injection H as <-. now rewrite !append_assoc, append_empty_r.
  - destruct (Api.appendName (Api.uriOpts a k)).
    + destruct (name (metadata o)) as [n|]; [|discriminate].
      injection H as <-. reflexivity.
    + injection H as <-. simpl. now rewrite append_empty_r.
Qed.

(** The options that the tests of [uriOpts] expect: the name is
    appended for delete, patch, read and replace; a namespace is
    required for the namespaced kinds under every action but list, and
    never for a cluster resource. *)
Lemma uriOpts_tested :
  forallb (fun a => Api.appendName (Api.uriOpts a "Deployment"))
    [Api.ADelete; Api.APatch; Api.ARead; Api.AReplace] = true
  /\ forallb (fun a => negb (Api.appendName (Api.uriOpts a "Deployment")))
       [Api.ACreate; Api.AList] = true
  /\ forallb
       (fun a =>
          forallb (fun r => Api.namespaceRequired (Api.uriOpts a r))
            namespacedKinds)
       [Api.ACreate; Api.ADelete; Api.APatch; Api.ARead; Api.AReplace]
     = true
  /\ forallb
       (fun r => negb (Api.namespaceRequired (Api.uriOpts Api.AList r)))
       namespacedKinds = true
  /\ forallb
       (fun a =>
          forallb (fun r => negb (Api.namespaceRequired (Api.uriOpts a r)))
            Api.clusterResources)
       Api.apiActions = true.
Proof. repeat split. Qed.

(** The plurals and the other literal paths that the specification
    lists. *)
Lemma pluralKind_listed :
  map Api.pluralKind
    [ "Service"; "ServiceAccount"; "Role"; "ClusterRole"; "Ingress";
      "DaemonSet"; "Deployment"; "StorageClass"; "Namespace";
      "NetworkPolicy" ]
  = [ "services"; "serviceaccounts"; "roles"; "clusterroles"; "ingresses";
      "daemonsets"; "deployments"; "storageclasses"; "namespaces";
      "networkpolicies" ].
Proof. reflexivity. Qed.

Lemma specUriPath_listed (describe : K8sObject -> string) :
  Api.specUriPath describe
    (bareObject "v1" (Some "Namespace") (Some "repeater") None) Api.ADelete
  = inr "v1/namespaces/repeater"
  /\ Api.specUriPath describe
       (bareObject "apps/v1" (Some "Deployment") (Some "repeater")
          (Some "fugazi")) Api.ARead
     = inr "apps/v1/namespaces/fugazi/deployments/repeater"
  /\ Api.specUriPath describe
       (bareObject "v1" (Some "Service") None (Some "fugazi")) Api.AList
     = inr "v1/namespaces/fugazi/services"
  /\ Api.specUriPath describe
       (bareObject "v1" (Some "Namespace") (Some "repeater") None) Api.ACreate
     = inr "v1/namespaces".
Proof. repeat split. Qed.

(** C1.  Whatever else the object carries, the Service "repeater" of
    namespace "fugazi" in the core group is patched at
    "v1/namespaces/fugazi/services/repeater", and the Ingress
    "repeater" of "fugazi" in "extensions/v1beta1" is deleted at
    "extensions/v1beta1/namespaces/fugazi/ingresses/repeater"; every
    path the builder returns is the apiVersion, the namespace segment
    when there is a namespace, the plural of the kind, with "ingresses"
    for Ingress, and the name when the action appends it. *)
Theorem specUriPath_literal_paths (describe : K8sObject -> string)
  (lbls dat : list (string * string)) (body : string) :
  Api.specUriPath describe
    {| apiVersion := "v1"; kind := Some "Service";
       metadata := {| name := Some "repeater"; namespace := Some "fugazi";
                      labels := lbls |};
       data := dat; payload := body |} Api.APatch
  = inr "v1/namespaces/fugazi/services/repeater"
  /\ Api.specUriPath describe
       {| apiVersion := "extensions/v1beta1"; kind := Some "Ingress";
          metadata := {| name := Some "repeater"; namespace := Some "fugazi";
                         labels := lbls |};
          data := dat; payload := body |} Api.ADelete
     = inr "extensions/v1beta1/namespaces/fugazi/ingresses/repeater"
  /\ Api.pluralKind "Ingress" = "ingresses"
  /\ (forall o a p,
        Api.specUriPath describe o a = inr p ->
        exists k,
          kind o = Some k
          /\ p = apiVersion o ++ namespaceSegment o ++ "/"
                   ++ Api.pluralKind k ++ nameSegment o a k).
Proof.
  repeat split; try reflexivity.
  intros o a p H. exact (specUriPath_shape describe o a p H).
Qed.

Lemma specUriPath_literal_paths_witness :
  exists k,
    kind (bareObject "apps/v1" (Some "Deployment") (Some "repeater")
            (Some "fugazi")) = Some k
    /\ "apps/v1/namespaces/fugazi/deployments/repeater"
       = "apps/v1" ++ "/namespaces/fugazi" ++ "/" ++ Api.pluralKind k
           ++ "/repeater".
Proof.
  destruct (specUriPath_literal_paths (fun _ => "") [] [] "")
    as (_ & _ & _ & H).
  exact (H (bareObject "apps/v1" (Some "Deployment") (Some "repeater")
              (Some "fugazi"))
           Api.ARead "apps/v1/namespaces/fugazi/deployments/repeater"
           eq_refl).
Defined.

(** C6.  A missing kind is reported for every action.  When the kind
    is there, a missing name is reported for delete, patch, read and
    replace, whatever the namespace is; for create and list a missing
    name is no error and a path is returned. *)
Theorem specUriPath_validation (describe : K8sObject -> string)
  (o : K8sObject) (a : Api.K8sApiAction) :
  (kind o = None ->
   validationMatching "Spec does not contain kind:"
     (Api.specUriPath describe o a))
  /\ (forall k,
        kind o = Some k -> name (metadata o) = None ->
        (a = Api.ADelete \/ a = Api.APatch \/ a = Api.ARead
         \/ a = Api.AReplace) ->
        validationMatching "Spec does not contain name:"
          (Api.specUriPath describe o a))
  /\ (forall k,
        kind o = Some k -> name (metadata o) = None ->
        (a = Api.ACreate \/ a = Api.AList) ->
        exists p, Api.specUriPath describe o a = inr p).
Proof.
  unfold Api.specUriPath, validationMatching.
  split; [|split].
  - intros ->. eexists. split; [reflexivity|].
    apply (includes_at_front "Spec does not contain kind:" (String " " _)).
  - intros k -> Hn Ha. rewrite Hn.
    assert (Happ : Api.appendName (Api.uriOpts a k) = true)
      by (destruct Ha as [-> | [-> | [-> | ->]]]; reflexivity).
    rewrite Happ.
    eexists. split; [reflexivity|].
    apply (includes_at_front "Spec does not contain name:" (String " " _)).
  - intros k -> Hn Ha.
    assert (Happ : Api.appendName (Api.uriOpts a k) = false)
      by (destruct Ha as [-> | ->]; reflexivity).
    rewrite Happ. eexists; reflexivity.
Qed.

Lemma specUriPath_validation_witness :
  validationMatching "Spec does not contain kind:"
    (Api.specUriPath (fun _ => "{}")
       (bareObject "v1" None (Some "repeater") (Some "fugazi")) Api.ACreate)
  /\ validationMatching "Spec does not contain name:"
       (Api.specUriPath (fun _ => "{}")
          (bareObject "v1" (Some "Service") None (Some "fugazi")) Api.ARead)
  /\ validationMatching "Spec does not contain name:"
       (Api.specUriPath (fun _ => "{}")
          (bareObject "v1" (Some "Service") None None) Api.ARead)
  /\ exists p,
       Api.specUriPath (fun _ => "{}")
         (bareObject "v1" (Some "Service") None (Some "fugazi")) Api.AList
       = inr p.
Proof.
  split; [|split; [|split]].
  - apply (specUriPath_validation (fun _ => "{}")
             (bareObject "v1" None (Some "repeater") (Some "fugazi"))
             Api.ACreate).
    reflexivity.
  - apply (proj1 (proj2 (specUriPath_validation (fun _ => "{}")
             (bareObject "v1" (Some "Service") None (Some "fugazi"))
             Api.ARead)) "Service"); try reflexivity.
    right; right; left; reflexivity.
  - apply (proj1 (proj2 (specUriPath_validation (fun _ => "{}")
             (bareObject "v1" (Some "Service") None None)
             Api.ARead)) "Service"); try reflexivity.
    right; right; left; reflexivity.
  - apply (proj2 (proj2 (specUriPath_validation (fun _ => "{}")
             (bareObject "v1" (Some "Service") None (Some "fugazi"))
             Api.AList)) "Service"); try reflexivity.
    right; reflexivity.
Defined.

(** ** Matching a resource against the parsed files *)

Lemma strictEq_eq (a b : option string) : strictEq a b = true <-> a = b.
Proof.
  destruct a as [x|], b as [y|]; simpl; try (split; congruence).
  rewrite String.eqb_eq. split; congruence.
Qed.

Lemma sameObject_identifies (a b : K8sObject) :
  Sync.sameObject a b = true <-> identifies a b.
Proof.
  unfold Sync.sameObject, identifies.
  rewrite !andb_true_iff, !strictEq_eq. tauto.
Qed.

Lemma sameObject_false (a b : K8sObject) :
  Sync.sameObject a b = false <-> ~ identifies a b.
Proof.
  rewrite <- sameObject_identifies.
  destruct (Sync.sameObject a b); split; congruence.
Qed.

Lemma find_first {A} (f : A -> bool) (l : list A) (x : A) :
  find f l = Some x <->
  exists before after,
    l = (before ++ x :: after)%list
    /\ f x = true
    /\ Forall (fun y => f y = false) before.
Proof.
  split.
  - induction l as [|y l IH]; simpl; [discriminate|].
    destruct (f y) eqn:E.
    + intros [= ->]. exists [], l. auto.
    + intros H. destruct (IH H) as (b & a & -> & Hx & Hb).
      exists (y :: b), a. auto.
  - intros (b & a & -> & Hx & Hb).
    induction Hb as [|y b Hy _ IH]; simpl.
    + now rewrite Hx.
    + now rewrite Hy.
Qed.

Lemma find_none_all {A} (f : A -> bool) (l : list A) :
  find f l = None <-> Forall (fun y => f y = false) l.
Proof.
  induction l as [|y l IH]; simpl.
  - split; auto.
  - destruct (f y) eqn:E.
    + split; [discriminate|]. intros H. inversion H. congruence.
    + rewrite IH. split; [auto|]. intros H. now inversion H.
Qed.

(** C3.  [matchSpec] returns the first pair whose spec has the kind,
    the name and the namespace of the resource, two undefined
    namespaces counting as equal; it returns nothing exactly when no
    pair has all three; and the apiVersion of the resource or of the
    entries changes nothing in which entry is found. *)
Theorem matchSpec_first_identified (s : K8sObject)
  (fileSpecs : list Sync.ProjectFileSpec) :
  (forall fs,
     Sync.matchSpec s fileSpecs = Some fs <->
     exists before after,
       fileSpecs = (before ++ fs :: after)%list
       /\ identifies s (Sync.spec fs)
       /\ Forall (fun x => ~ identifies s (Sync.spec x)) before)
  /\ (Sync.matchSpec s fileSpecs = None <->
      Forall (fun x => ~ identifies s (Sync.spec x)) fileSpecs)
  /\ (forall v,
        Sync.matchSpec (withApiVersion v s) fileSpecs
        = Sync.matchSpec s fileSpecs)
  /\ (forall g,
        Sync.matchSpec s (map (reversion g) fileSpecs)
        = option_map (reversion g) (Sync.matchSpec s fileSpecs)).
Proof.
  unfold Sync.matchSpec. split; [|split; [|split]].
  - intros fs. rewrite find_first.
    split; intros (b & a & E & Hx & Hb); exists b, a;
      (split; [exact E|split]).
    + now apply sameObject_identifies.
    + eapply Forall_impl; [|exact Hb].
      intros x. apply sameObject_false.
    + now apply sameObject_identifies.
    + eapply Forall_impl; [|exact Hb].
      intros x. apply sameObject_false.
  - rewrite find_none_all.
    split; intros H; (eapply Forall_impl; [|exact H]);
      intros x; apply sameObject_false.
  - intros v. reflexivity.
  - intros g. induction fileSpecs as [|x l IH]; simpl; [reflexivity|].
    change (Sync.sameObject s (withApiVersion (g x) (Sync.spec x)))
      with (Sync.sameObject s (Sync.spec x)).
    destruct (Sync.sameObject s (Sync.spec x)); [reflexivity | exact IH].
Qed.

Lemma matchSpec_first_identified_witness :
  Sync.matchSpec lyleDeployment severalFileSpecs
  = Some {| Sync.file := {| path := "dep.json"; content := "{}" |};
            Sync.spec := lyleDeployment |}.
Proof.
  apply (proj1 (matchSpec_first_identified lyleDeployment severalFileSpecs)).
  eexists [_; _], [_]. split; [reflexivity|]. split.
  - repeat split.
  - repeat constructor; intros (H1 & H2 & H3); discriminate.
Defined.

(** ** Spec file names *)

Lemma upper_not_lower (c : ascii) : isUpper c = true -> isLower c = false.
Proof.
  unfold isUpper, isLower. rewrite andb_true_iff, !Nat.leb_le.
  intros [_ H]. apply andb_false_iff. left. apply Nat.leb_gt. lia.
Qed.

Lemma hyphenate_after_upper (b : ascii) (r : string) :
  isUpper b = true ->
  Spec.hyphenateBoundaries (String b r)
  = String b (Spec.hyphenateBoundaries r).
Proof.
  intros H. simpl. rewrite (upper_not_lower b H). simpl.
  destruct r; reflexivity.
Qed.

Lemma replaceLowerUpper_pairs (s : string) :
  Spec.replaceLowerUpper s = Spec.hyphenateBoundaries s
  /\ forall a,
       Spec.replaceLowerUpper (String a s)
       = Spec.hyphenateBoundaries (String a s).
Proof.
  induction s as [|b r [IH1 IH2]].
  - split; reflexivity.
  - split; [apply IH2|]. intros a.
    change (Spec.replaceLowerUpper (String a (String b r)))
      with (if isLower a && isUpper b
            then String a (String "-" (String b (Spec.replaceLowerUpper r)))
            else String a (Spec.replaceLowerUpper (String b r))).
    change (Spec.hyphenateBoundaries (String a (String b r)))
      with (if isLower a && isUpper b
            then String a (String "-" (Spec.hyphenateBoundaries (String b r)))
            else String a (Spec.hyphenateBoundaries (String b r))).
    destruct (isLower a && isUpper b) eqn:E.
    + apply andb_true_iff in E. destruct E as [_ Hb].
      now rewrite (hyphenate_after_upper b r Hb), IH1.
    + now rewrite (IH2 b).
Qed.

Lemma replaceLowerUpper_hyphenates (s : string) :
  Spec.replaceLowerUpper s = Spec.hyphenateBoundaries s.
Proof. apply replaceLowerUpper_pairs. Qed.

Lemma orderPrefix_hasPriority (k : string) :
  hasPriority k (Spec.orderPrefix (Some k)).
Proof.
  unfold Spec.orderPrefix, hasPriority.
  repeat match goal with
         | |- context [String.eqb k ?s] =>
             destruct (String.eqb_spec k s) as [-> | ?];
             [left; simpl; repeat (try (left; reflexivity); right)|]
         end.
  right. split; [|reflexivity].
  simpl. intuition congruence.
Qed.

Lemma lowerChar_not_upper (c : ascii) : isUpper (lowerChar c) = false.
Proof.
  destruct c as [[] [] [] [] [] [] [] []]; reflexivity.
Qed.

Lemma toLowerCase_noUpper (s : string) : noUpper (toLowerCase s) = true.
Proof.
  induction s as [|c s IH]; simpl; [reflexivity|].
  now rewrite lowerChar_not_upper, IH.
Qed.

Lemma sameLetters_toLowerCase (s : string) :
  sameLetters s (toLowerCase s) = true.
Proof.
  induction s as [| c s IH]; [reflexivity |].
  cbn [toLowerCase sameLetters]. rewrite IH, andb_true_r.
  destruct c as [[] [] [] [] [] [] [] []]; reflexivity.
Qed.

Lemma hasPriority_Service (nn : string) :
  hasPriority "Service" nn -> nn = "50".
Proof.
  intros [Hin | [Hnot _]].
  - cbn in Hin.
    repeat (destruct Hin as [Hin | Hin]; [congruence |]).
    destruct Hin.
  - exfalso. apply Hnot. cbn. tauto.
Qed.

(** C7, as amended.  For a resource with a kind and a name the base
    name is the lowercase form of priority, namespace, name and kind
    joined by underscores: it holds no uppercase letter and is, but
    for the case, that string letter for letter; the namespace and its
    underscore are there exactly when the namespace is set to a
    non-empty string; the kind carries a hyphen between every lowercase
    letter and the uppercase letter after it; and the priority is the
    one of the table, 90 for a kind the table does not list. *)
Theorem kubernetesSpecFileBasename_shape (r : K8sObject) (k n : string) :
  kind r = Some k ->
  name (metadata r) = Some n ->
  exists nn b,
    hasPriority k nn
    /\ Spec.kubernetesSpecFileBasename r = inr b
    /\ lowercased
         (nn ++ "_" ++ namespacePart r ++ n ++ "_"
             ++ Spec.hyphenateBoundaries k) b
    /\ b = toLowerCase
             (nn ++ "_" ++ namespacePart r ++ n ++ "_"
                 ++ Spec.hyphenateBoundaries k)
    /\ (forall ns,
          namespace (metadata r) = Some ns -> ns <> "" ->
          namespacePart r = ns ++ "_")
    /\ (namespace (metadata r) = None \/ namespace (metadata r) = Some "" ->
        namespacePart r = "").
Proof.
  intros Hk Hn. exists (Spec.orderPrefix (Some k)).
  exists (toLowerCase
            (Spec.orderPrefix (Some k) ++ "_" ++ namespacePart r ++ n ++ "_"
               ++ Spec.hyphenateBoundaries k)).
  split; [apply orderPrefix_hasPriority|]. split; [|split; [|split; [|split]]].
  - unfold Spec.kubernetesSpecFileBasename, namespacePart, truthy.
    rewrite Hk, Hn, replaceLowerUpper_hyphenates. simpl interpolate.
    destruct (namespace (metadata r)) as [ns|]; [|reflexivity].
    destruct (ns =? ""); reflexivity.
  - split; [apply sameLetters_toLowerCase | apply toLowerCase_noUpper].
  - reflexivity.
  - intros ns Hns Hne. unfold namespacePart. rewrite Hns.
    apply String.eqb_neq in Hne. now rewrite Hne.
  - unfold namespacePart. intros [-> | ->]; reflexivity.
Qed.

Lemma kubernetesSpecFileBasename_shape_witness :
  exists nn b,
    hasPriority "RoleBinding" nn
    /\ Spec.kubernetesSpecFileBasename
         (bareObject "rbac.authorization.k8s.io/v1" (Some "RoleBinding")
            (Some "Lyle") (Some "lovett")) = inr b
    /\ lowercased
         (nn ++ "_" ++ "lovett_" ++ "Lyle" ++ "_" ++ "Role-Binding") b.
Proof.
  destruct (kubernetesSpecFileBasename_shape
              (bareObject "rbac.authorization.k8s.io/v1" (Some "RoleBinding")
                 (Some "Lyle") (Some "lovett"))
              "RoleBinding" "Lyle" eq_refl eq_refl)
    as (nn & b & Hp & E & Hl & _).
  exists nn, b. split; [exact Hp | split; [exact E | exact Hl]].
Defined.

(** C7 as it stands does not hold: a Service whose namespace is set to
    the empty string gets no namespace segment and no separator for
    it. *)
Lemma empty_namespace_has_no_segment : ~ basenameWheneverSet.
Proof.
  intros H.
  destruct (H (bareObject "v1" (Some "Service") (Some "s") (Some ""))
              "Service" "s" eq_refl eq_refl)
    as (nn & b & Hp & E & Hl & _).
  apply hasPriority_Service in Hp. subst nn.
  vm_compute in E. injection E as <-.
  vm_compute in Hl. discriminate.
Qed.

(** ** Upserting one resource *)




Lemma untilFree_free (fs : list ProjectFile) (root : string)
  (gs : list string) :
  forall p q rest,
    Sync.untilFree fs root p gs = (Some q, rest) ->
    hasPath q fs = false.
Proof.
  induction gs as [|g gs IH]; intros p q rest; simpl;
    destruct (hasPath p fs) eqn:E; try discriminate.
  - now intros [= <- _].
  - apply IH.
  - now intros [= <- _].
Qed.

Lemma untilFree_draws (fs : list ProjectFile) (root : string)
  (gs : list string) :
  forall p q rest,
    Sync.untilFree fs root p gs = (Some q, rest) ->
    (hasPath p fs = false /\ q = p /\ rest = gs)
    \/ (hasPath p fs = true
        /\ exists before g,
             gs = (before ++ g :: rest)%list
             /\ q = Sync.suffixed root g
             /\ Forall (taken fs root) before).
Proof.
  induction gs as [|g gs IH]; intros p q rest; simpl;
    destruct (hasPath p fs) eqn:E; try discriminate.
  - intros [= <- <-]. now left.
  - intros H. right. split; [reflexivity|].
    destruct (IH _ _ _ H) as [(Hf & -> & ->) | (Ht & before & g' & -> & -> & Hb)].
    + exists [], g. auto.
    + exists (g :: before), g'. repeat split. constructor; assumption.
  - intros [= <- <-]. now left.
Qed.


Section Upsert.

Variable yamlSafeDump : K8sObject -> string.
Variable stableStringify : K8sObject -> string.
Variable encryptSecret : K8sObject -> string -> K8sObject.

Local Abbreviation upsert :=
  (Sync.resourceUpserted yamlSafeDump stableStringify encryptSecret).
Local Abbreviation serialized r f opts :=
  (Spec.kubernetesSpecStringify yamlSafeDump stableStringify encryptSecret r
     {| Spec.format := Some f; Spec.secretKey := Config.secretKey opts |}).

Lemma overwrite_path (p c : string) (f : ProjectFile) :
  path (overwrite p c f) = path f.
Proof.
  unfold overwrite. destruct (String.eqb_spec (path f) p); simpl; congruence.
Qed.

Lemma overwrite_paths (p c : string) (fs : list ProjectFile) :
  map path (map (overwrite p c) fs) = map path fs.
Proof.
  rewrite map_map. apply map_ext. intros f. apply overwrite_path.
Qed.

Lemma overwrite_other (p c : string) (f : ProjectFile) :
  path f <> p -> overwrite p c f = f.
Proof.
  intros H. unfold overwrite. apply String.eqb_neq in H. now rewrite H.
Qed.

Lemma overwrite_hit (p c : string) (f : ProjectFile) :
  path f = p -> overwrite p c f = {| path := p; content := c |}.
Proof.
  intros H. unfold overwrite. apply String.eqb_eq in H. now rewrite H.
Qed.




End Upsert.


(** ** The monad *)

Lemma bind_assoc {A B C} (m : M A) (k : A -> M B) (h : B -> M C) (w : World) :
  bind (bind m k) h w = bind m (fun x => bind (k x) h) w.
Proof.
  unfold bind. destruct (m w) as [w' [a | e |]]; reflexivity.
Qed.

Lemma logged_nil (w : World) : logged [] w = w.
Proof. destruct w; reflexivity. Qed.

Lemma logged_logged (a b : list Event) (w : World) :
  logged a (logged b w) = logged (a ++ b) w.
Proof. unfold logged; simpl. now rewrite app_assoc. Qed.

Lemma record_logged (e : Event) (w : World) : record e w = logged [e] w.
Proof. reflexivity. Qed.

(** ** The scan *)

Section Scan.

Variable parseKubernetesSpecFile : ProjectFile -> Exn + K8sObject.
Variable k8sSpecGlob : string -> bool.

Local Abbreviation parsed := (parsedSpecs parseKubernetesSpecFile k8sSpecGlob).
Local Abbreviation warnings :=
  (parseWarnings parseKubernetesSpecFile k8sSpecGlob).
Local Abbreviation scan :=
  (Sync.scanProject parseKubernetesSpecFile k8sSpecGlob).

Lemma collect_all (fs : list ProjectFile) :
  forall acc w,
    foldM (Sync.collectSpec parseKubernetesSpecFile) acc
      (filter (fun f => k8sSpecGlob (path f)) fs) w
    = (logged (rev (warnings fs)) w, Ok (acc ++ parsed fs)%list).
Proof.
  induction fs as [|f fs IH]; intros acc w; simpl.
  - now rewrite logged_nil, app_nil_r.
  - destruct (k8sSpecGlob (path f)); [|apply IH].
    simpl. unfold bind at 1, Sync.collectSpec at 1, tryCatch.
    destruct (parseKubernetesSpecFile f) as [e|s].
    + unfold bind, logWarn, ret. rewrite IH, record_logged, logged_logged.
      reflexivity.
    + rewrite IH, <- app_assoc. reflexivity.
Qed.

Lemma scanProject_parsed (w : World) :
  scan w = (logged (rev (warnings (files w))) w, Ok (parsed (files w))).
Proof. unfold Sync.scanProject. now rewrite collect_all. Qed.

Lemma parsed_sound (fs : list ProjectFile) (x : Sync.ProjectFileSpec) :
  In x (parsed fs) ->
  In (Sync.file x) fs
  /\ k8sSpecGlob (path (Sync.file x)) = true
  /\ parseKubernetesSpecFile (Sync.file x) = inr (Sync.spec x).
Proof.
  induction fs as [|f fs IH]; simpl; [contradiction|].
  destruct (k8sSpecGlob (path f)) eqn:G.
  - destruct (parseKubernetesSpecFile f) as [e|s] eqn:P.
    + intros H. destruct (IH H) as (? & ? & ?). auto.
    + intros [<- | H]; simpl; [auto|].
      destruct (IH H) as (? & ? & ?). auto.
  - intros H. destruct (IH H) as (? & ? & ?). auto.
Qed.

Lemma parsed_complete (fs : list ProjectFile) (f : ProjectFile)
  (s : K8sObject) :
  In f fs -> k8sSpecGlob (path f) = true ->
  parseKubernetesSpecFile f = inr s ->
  In {| Sync.file := f; Sync.spec := s |} (parsed fs).
Proof.
  intros Hin G P. induction fs as [|g fs IH]; simpl; [contradiction|].
  destruct Hin as [-> | Hin].
  - rewrite G, P. now left.
  - destruct (k8sSpecGlob (path g)); [|auto].
    destruct (parseKubernetesSpecFile g); [auto | right; auto].
Qed.

Lemma warnings_complete (fs : list ProjectFile) (f : ProjectFile) (e : Exn) :
  In f fs -> k8sSpecGlob (path f) = true ->
  parseKubernetesSpecFile f = inl e ->
  In (parseWarning f e) (warnings fs).
Proof.
  intros Hin G P. induction fs as [|g fs IH]; simpl; [contradiction|].
  destruct Hin as [-> | Hin].
  - rewrite G, P. now left.
  - destruct (k8sSpecGlob (path g)); [|auto].
    destruct (parseKubernetesSpecFile g); [right; auto | auto].
Qed.

End Scan.

(** ** One pass *)

Section Pass.

Variable parseKubernetesSpecFile : ProjectFile -> Exn + K8sObject.
Variable k8sSpecGlob : string -> bool.
Variable yamlSafeDump : K8sObject -> string.
Variable stableStringify : K8sObject -> string.
Variable encryptSecret : K8sObject -> string -> K8sObject.
Variable commitTag : string.
Variable validSyncOptions : Config.KubernetesSyncOptions -> bool.

Local Abbreviation parsed := (parsedSpecs parseKubernetesSpecFile k8sSpecGlob).
Local Abbreviation warnings :=
  (parseWarnings parseKubernetesSpecFile k8sSpecGlob).
Local Abbreviation scan :=
  (Sync.scanProject parseKubernetesSpecFile k8sSpecGlob).
Local Abbreviation changes :=
  (Sync.applyChanges yamlSafeDump stableStringify encryptSecret).
Local Abbreviation prepare :=
  (changesApplied parseKubernetesSpecFile k8sSpecGlob yamlSafeDump
     stableStringify encryptSecret).
Local Abbreviation sync :=
  (Sync.syncResources parseKubernetesSpecFile k8sSpecGlob yamlSafeDump
     stableStringify encryptSecret commitTag).
Local Abbreviation finish := (Sync.commitAndPush commitTag).

(** C9.  The scan always returns: its pairs are those of the files that
    match the glob and parse, in order.  A matching file that fails to
    parse gives no pair and one warning, every file that parses keeps
    its pair, and the pass goes on with these pairs to the loop over
    the resources and to the commit. *)
Theorem scanProject_skips_unparseable (app : Request.KubernetesDelete)
  (resources : list K8sObject) (action : Sync.SyncAction)
  (opts : Config.KubernetesSyncOptions) (w : World) :
  scan w = (logged (rev (warnings (files w))) w, Ok (parsed (files w)))
  /\ (forall f e,
        In f (files w) -> k8sSpecGlob (path f) = true ->
        parseKubernetesSpecFile f = inl e ->
        (forall s,
           ~ In {| Sync.file := f; Sync.spec := s |} (parsed (files w)))
        /\ In (parseWarning f e)
             (journal (logged (rev (warnings (files w))) w)))
  /\ (forall f s,
        In f (files w) -> k8sSpecGlob (path f) = true ->
        parseKubernetesSpecFile f = inr s ->
        In {| Sync.file := f; Sync.spec := s |} (parsed (files w)))
  /\ sync app resources action opts w
     = (changes resources action opts (parsed (files w)) ;;;
        finish app action)
         (logged (rev (warnings (files w))) w).
Proof.
  split; [apply scanProject_parsed|]. split; [|split].
  - intros f e Hin G P. split.
    + intros s H. apply parsed_sound in H. simpl in H.
      destruct H as (_ & _ & H). congruence.
    + simpl. apply in_or_app. left. apply in_rev. rewrite rev_involutive.
      now apply warnings_complete.
  - intros f s. apply parsed_complete.
  - unfold Sync.syncResources, bind at 1.
    now rewrite scanProject_parsed.
Qed.

Lemma syncResources_stages (app : Request.KubernetesDelete)
  (resources : list K8sObject) (action : Sync.SyncAction)
  (opts : Config.KubernetesSyncOptions) (w : World) :
  sync app resources action opts w
  = (prepare resources action opts ;;; finish app action) w.
Proof.
  unfold changesApplied, Sync.syncResources. now rewrite bind_assoc.
Qed.

Lemma message_setMessage (f : string -> string) (e : Exn) :
  message (setMessage f e) = f (message e).
Proof. destruct e; reflexivity. Qed.

Lemma commitMessage_described (app : Request.KubernetesDelete)
  (action : Sync.SyncAction) :
  Sync.commitMessage commitTag app action
  = describedMessage (Sync.syncVerb action) app commitTag.
Proof.
  unfold Sync.commitMessage, describedMessage, Request.appName.
  now rewrite !append_assoc.
Qed.

Lemma commitAndPush_cases (app : Request.KubernetesDelete)
  (action : Sync.SyncAction) (w : World) :
  finish app action w
  = if sameTree (files w) (headTree w) then (w, Ok tt)
    else
      tryCatch
        (commit (Sync.commitMessage commitTag app action) ;;; push)
        (fun e =>
           logError (message (setMessage Sync.commitFailed e)) ;;;
           throw (setMessage Sync.commitFailed e))
        w.
Proof.
  unfold Sync.commitAndPush, bind at 1, isClean.
  destruct (sameTree (files w) (headTree w)); reflexivity.
Qed.

(** C5.  Once the resources are applied: on a clean working copy the
    pass returns and nothing is committed or pushed; otherwise there is
    one commit, with the message "Update specs for" or "Delete specs
    for", namespace, slash, name, a blank line and the two tags, the
    verb being "Delete" exactly for the delete action, and then one
    push; when the commit or the push throws, the error is logged and
    thrown on with its message behind the added context, without a
    push after a failed commit. *)
Theorem syncResources_commits_once (app : Request.KubernetesDelete)
  (resources : list K8sObject) (action : Sync.SyncAction)
  (opts : Config.KubernetesSyncOptions) (w w1 : World) :
  prepare resources action opts w = (w1, Ok tt) ->
  let msg :=
    describedMessage
      (match action with Sync.Delete => "Delete" | Sync.Upsert => "Update" end)
      app commitTag in
  let committed := record (Committed msg) (withHead (files w1) w1) in
  (sameTree (files w1) (headTree w1) = true ->
   sync app resources action opts w = (w1, Ok tt))
  /\ (sameTree (files w1) (headTree w1) = false ->
      commitFault w1 = None -> pushFault w1 = None ->
      sync app resources action opts w = (record Pushed committed, Ok tt)
      /\ commits (journal (record Pushed committed)) = S (commits (journal w1))
      /\ pushes (journal (record Pushed committed)) = S (pushes (journal w1)))
  /\ (forall e,
        sameTree (files w1) (headTree w1) = false ->
        commitFault w1 = Some e ->
        sync app resources action opts w
        = (record (LogError (Sync.commitFailed (message e))) w1,
           Thrown (setMessage Sync.commitFailed e))
        /\ message (setMessage Sync.commitFailed e)
           = "Failed to commit and push resource changes to sync repo: "
               ++ message e)
  /\ (forall e,
        sameTree (files w1) (headTree w1) = false ->
        commitFault w1 = None -> pushFault w1 = Some e ->
        sync app resources action opts w
        = (record (LogError (Sync.commitFailed (message e))) committed,
           Thrown (setMessage Sync.commitFailed e))
        /\ message (setMessage Sync.commitFailed e)
           = "Failed to commit and push resource changes to sync repo: "
               ++ message e).
Proof.
  intros Hprep msg committed.
  assert (Hmsg : Sync.commitMessage commitTag app action = msg).
  { rewrite commitMessage_described. now destruct action. }
  assert (Hsync : sync app resources action opts w
                  = Sync.commitAndPush commitTag app action w1).
  { rewrite syncResources_stages. unfold bind at 1. now rewrite Hprep. }
  rewrite Hsync, commitAndPush_cases, Hmsg.
  split; [|split; [|split]].
  - intros ->. reflexivity.
  - intros -> Hc Hp.
    unfold tryCatch, bind, commit, push. rewrite Hc. simpl. rewrite Hp.
    repeat split.
  - intros e -> Hc.
    unfold tryCatch, bind, commit. rewrite Hc.
    unfold logError, throw. rewrite message_setMessage. split; reflexivity.
  - intros e -> Hc Hp.
    unfold tryCatch, bind, commit, push. rewrite Hc. simpl. rewrite Hp.
    unfold logError, throw. rewrite message_setMessage. split; reflexivity.
Qed.

(** C10.  With no resource to synchronise, or with sync options that
    are not valid, [syncApplication] returns at once and the world is
    what it was: no project is loaded, no file changes, nothing is
    logged, committed or pushed. *)
Theorem syncApplication_guards (syncOpts : Config.KubernetesSyncOptions)
  (app : Request.KubernetesDelete) (resources : list K8sObject)
  (action : Sync.SyncAction) (w : World) :
  resources = [] \/ validSyncOptions syncOpts = false ->
  Sync.syncApplication parseKubernetesSpecFile k8sSpecGlob yamlSafeDump
    stableStringify encryptSecret commitTag validSyncOptions
    syncOpts app resources action w
  = (w, Ok tt).
Proof.
  unfold Sync.syncApplication. intros [-> | ->].
  - destruct (negb (validSyncOptions syncOpts)); reflexivity.
  - reflexivity.
Qed.

End Pass.

Lemma scanProject_skips_unparseable_witness :
  (forall s,
     ~ In {| Sync.file := {| path := "broken.json"; content := "{" |};
             Sync.spec := s |}
          (parsedSpecs Fixture.parseKubernetesSpecFile Fixture.k8sSpecGlob
             (files brokenWorld)))
  /\ In (LogWarn
           "Failed to process sync repo spec broken.json, ignoring: Unexpected token")
        (journal
           (logged
              (rev (parseWarnings Fixture.parseKubernetesSpecFile
                      Fixture.k8sSpecGlob (files brokenWorld)))
              brokenWorld)).
Proof.
  destruct (scanProject_skips_unparseable Fixture.parseKubernetesSpecFile
              Fixture.k8sSpecGlob Fixture.yamlSafeDump Fixture.stableStringify
              Fixture.encryptSecret Fixture.commitTag Fixture.tonina
              [Fixture.toninaService] Sync.Upsert Fixture.syncOptions
              brokenWorld)
    as (_ & Hskip & _).
  apply (Hskip {| path := "broken.json"; content := "{" |}
               (Failure "Unexpected token")).
  - left. reflexivity.
  - reflexivity.
  - reflexivity.
Defined.

Lemma syncResources_commits_once_witness :
  exists w',
    Fixture.syncResources Fixture.tonina [Fixture.toninaService] Sync.Upsert
      Fixture.syncOptions (Fixture.emptyWorld []) = (w', Ok tt)
    /\ commits (journal w') = 1
    /\ pushes (journal w') = 1.
Proof.
  destruct (syncResources_commits_once Fixture.parseKubernetesSpecFile
              Fixture.k8sSpecGlob Fixture.yamlSafeDump Fixture.stableStringify
              Fixture.encryptSecret Fixture.commitTag Fixture.tonina
              [Fixture.toninaService] Sync.Upsert Fixture.syncOptions
              (Fixture.emptyWorld []) _ eq_refl)
    as (_ & Hdirty & _).
  destruct (Hdirty eq_refl eq_refl eq_refl) as (E & Hc & Hp).
  eexists. split; [exact E|]. split; [exact Hc | exact Hp].
Defined.

Lemma syncApplication_guards_witness :
  Fixture.syncApplication Fixture.syncOptions Fixture.tonina []
    Sync.Upsert brokenWorld
  = (brokenWorld, Ok tt).
Proof.
  apply (syncApplication_guards Fixture.parseKubernetesSpecFile
           Fixture.k8sSpecGlob Fixture.yamlSafeDump Fixture.stableStringify
           Fixture.encryptSecret Fixture.commitTag Fixture.validSyncOptions
           Fixture.syncOptions Fixture.tonina [] Sync.Upsert brokenWorld).
  left. reflexivity.
Defined.

(** ** Two passes in a row *)

(** C8 as it stands does not hold.  On an empty repository the pass
    for two versions of one Deployment, with one replica and with two,
    writes two files and commits.  The second pass matches both
    resources with the first file, leaves the spec of the second
    resource in it, and commits again. *)
Lemma second_pass_commits_again : ~ upsertTwiceQuiet.
Proof.
  intros H.
  destruct (H Detailed.parseKubernetesSpecFile Fixture.k8sSpecGlob
              Detailed.yamlSafeDump Detailed.stableStringify
              Fixture.encryptSecret Fixture.commitTag Fixture.syncOptions
              Fixture.tonina twoVersions
              (Fixture.emptyWorld ["0a1b-2c3d"]) afterFirstPass
              eq_refl eq_refl eq_refl eq_refl)
    as (w2 & E & _ & _ & Hc & _).
  assert (E2 : w2 = afterSecondPass).
  { unfold afterSecondPass, Detailed.syncResources. now rewrite E. }
  subst w2. vm_compute in Hc. discriminate.
Qed.

Lemma length_append (a b : string) :
  String.length (a ++ b) = String.length a + String.length b.
Proof.
  induction a as [|x a IH]; simpl; [reflexivity | now rewrite IH].
Qed.

Lemma yamlPath_json (x : string) : Sync.yamlPath (x ++ ".json") = false.
Proof.
  induction x as [|c x IH]; [reflexivity|].
  change (String c x ++ ".json") with (String c (x ++ ".json")).
  cbn [Sync.yamlPath]. rewrite IH, orb_false_r.
  apply orb_false_iff.
  split; apply String.eqb_neq; intros E;
    apply (f_equal String.length) in E; simpl in E;
    rewrite length_append in E; simpl in E; lia.
Qed.

Lemma hasPath_In (p : string) (fs : list ProjectFile) :
  hasPath p fs = true <-> In p (map path fs).
Proof.
  unfold hasPath. rewrite existsb_exists, in_map_iff.
  split; intros (f & H1 & H2).
  - apply String.eqb_eq in H2. eauto.
  - exists f. split; [assumption | now apply String.eqb_eq].
Qed.

Lemma hasPath_not_In (p : string) (fs : list ProjectFile) :
  hasPath p fs = false <-> ~ In p (map path fs).
Proof.
  rewrite <- hasPath_In. destruct (hasPath p fs); split; congruence.
Qed.

Lemma distinctPaths_NoDup (fs : list ProjectFile) :
  distinctPaths fs = true -> NoDup (map path fs).
Proof.
  induction fs as [|f fs IH]; simpl; [constructor|].
  rewrite andb_true_iff, negb_true_iff, hasPath_not_In.
  intros [H1 H2]. constructor; auto.
Qed.

Lemma same_path_same_file (fs : list ProjectFile) (f g : ProjectFile) :
  NoDup (map path fs) -> In f fs -> In g fs -> path f = path g -> f = g.
Proof.
  induction fs as [|x fs IH]; simpl; [contradiction|].
  intros Hnd Hf Hg E. inversion Hnd as [|? ? Hx Hnd']; subst.
  destruct Hf as [-> | Hf], Hg as [-> | Hg]; auto.
  - exfalso. apply Hx. rewrite E. now apply in_map.
  - exfalso. apply Hx. rewrite <- E. now apply in_map.
Qed.

Lemma lookupFile_own (fs : list ProjectFile) (f : ProjectFile) :
  NoDup (map path fs) -> In f fs ->
  lookupFile (path f) fs = Some (content f).
Proof.
  induction fs as [|x fs IH]; simpl; [contradiction|].
  intros Hnd Hf. inversion Hnd as [|? ? Hx Hnd']; subst.
  destruct Hf as [-> | Hf].
  - now rewrite String.eqb_refl.
  - destruct (String.eqb_spec (path x) (path f)) as [E | _]; [|auto].
    exfalso. apply Hx. rewrite E. now apply in_map.
Qed.

Lemma sameTree_refl (fs : list ProjectFile) :
  NoDup (map path fs) -> sameTree fs fs = true.
Proof.
  intros Hnd. unfold sameTree.
  assert (H : holdsAll fs fs = true).
  { unfold holdsAll. apply forallb_forall. intros f Hf.
    rewrite (lookupFile_own fs f Hnd Hf). simpl. apply String.eqb_refl. }
  now rewrite H.
Qed.

Lemma overwrite_same (fs : list ProjectFile) (f : ProjectFile) :
  NoDup (map path fs) -> In f fs ->
  map (overwrite (path f) (content f)) fs = fs.
Proof.
  intros Hnd Hf. rewrite <- (map_id fs) at 2. apply map_ext_in.
  intros g Hg. destruct (String.eqb_spec (path g) (path f)) as [E | N].
  - rewrite (overwrite_hit _ _ _ E).
    rewrite <- (same_path_same_file fs g f Hnd Hg Hf E), E.
    rewrite (same_path_same_file fs g f Hnd Hg Hf E). now destruct f.
  - now apply overwrite_other.
Qed.

Lemma withFiles_same (w : World) : withFiles (files w) w = w.
Proof. destruct w; reflexivity. Qed.

Lemma forEach_cons {A} (f : A -> M unit) (x : A) (l : list A) (w : World) :
  forEach f (x :: l) w
  = match f x w with
    | (w', Ok _) => forEach f l w'
    | (w', Thrown e) => (w', Thrown e)
    | (w', Diverges) => (w', Diverges)
    end.
Proof. reflexivity. Qed.

Lemma commits_warnings parse glob (fs : list ProjectFile) (j : list Event) :
  commits (rev (parseWarnings parse glob fs) ++ j)%list = commits j
  /\ pushes (rev (parseWarnings parse glob fs) ++ j)%list = pushes j.
Proof.
  revert j. induction fs as [|f fs IH]; intros j; simpl; [auto|].
  destruct (glob (path f)); [|apply IH].
  destruct (parse f); [|apply IH].
  simpl. rewrite <- app_assoc. simpl.
  destruct (IH (parseWarning f e :: j)) as [-> ->]. auto.
Qed.

Lemma identifies_trans_sym (a b s : K8sObject) :
  identifies a s -> identifies b s -> identifies a b.
Proof. unfold identifies. intuition congruence. Qed.

Lemma sameObject_sym_trans (a b s : K8sObject) :
  Sync.sameObject a s = true -> Sync.sameObject b s = true ->
  Sync.sameObject a b = true.
Proof.
  rewrite !sameObject_identifies. apply identifies_trans_sym.
Qed.

Lemma NoDup_snoc {A} (l : list A) (a : A) :
  NoDup l -> ~ In a l -> NoDup (l ++ [a]).
Proof.
  induction l as [|x l IH]; simpl; intros Hnd Hin.
  - constructor; [auto | constructor].
  - inversion Hnd as [|? ? Hx Hl]; subst. constructor.
    + rewrite in_app_iff. simpl. intuition.
    + apply IH; intuition.
Qed.

Lemma filter_all {A} (f : A -> bool) (l : list A) :
  (forall x, In x l -> f x = true) -> filter f l = l.
Proof.
  induction l as [| a l IH]; intros H; [reflexivity |].
  cbn. rewrite (H a (or_introl eq_refl)). f_equal.
  apply IH. intros x Hx. apply H. now right.
Qed.

Lemma pair_eta (x : Sync.ProjectFileSpec) :
  {| Sync.file := Sync.file x; Sync.spec := Sync.spec x |} = x.
Proof. destruct x; reflexivity. Qed.

Section Steps.

Variable yamlSafeDump : K8sObject -> string.
Variable stableStringify : K8sObject -> string.
Variable encryptSecret : K8sObject -> string -> K8sObject.
Variable opts : Config.KubernetesSyncOptions.

Local Abbreviation str :=
  (writtenAs yamlSafeDump stableStringify encryptSecret opts).
Local Abbreviation step :=
  (upsertStep yamlSafeDump stableStringify encryptSecret opts).

Lemma step_matched (specs : list Sync.ProjectFileSpec) (r : K8sObject)
  (x : Sync.ProjectFileSpec) (w : World) :
  Sync.matchSpec r specs = Some x ->
  step specs r w
  = (withFiles
       (map (overwrite (path (Sync.file x)) (str r (path (Sync.file x))))
            (files w)) w,
     Ok tt).
Proof. unfold upsertStep. intros ->. reflexivity. Qed.

Lemma step_unmatched (specs : list Sync.ProjectFileSpec) (r : K8sObject)
  (w w' : World) :
  Sync.matchSpec r specs = None ->
  step specs r w = (w', Ok tt) ->
  exists np,
    hasPath np (files w) = false
    /\ files w'
       = (files w ++ [{| path := np; content := str r np |}])%list.
Proof.
  unfold upsertStep. intros ->.
  unfold Sync.resourceUpserted, bind, Sync.uniqueSpecFile, addFile.
  destruct (Spec.kubernetesSpecFileBasename r) as [e|root]; [discriminate|].
  destruct (Sync.untilFree (files w) root (root ++ ".json") (guids w))
    as [[q|] rest] eqn:E; [|discriminate].
  intros [= <-]. exists q.
  split; [exact (untilFree_free _ _ _ _ _ _ E)|].
  assert (Hq : Sync.yamlPath q = false).
  { destruct (untilFree_draws _ _ _ _ _ _ E)
      as [(_ & -> & _) | (_ & before & g & _ & -> & _)].
    - apply yamlPath_json.
    - unfold Sync.suffixed.
      rewrite <- (append_assoc "_"), <- (append_assoc root).
      apply yamlPath_json. }
  unfold writtenAs. now rewrite Hq.
Qed.

End Steps.

Section AnyOrderScan.

Variable parseKubernetesSpecFile : ProjectFile -> Exn + K8sObject.
Variable k8sSpecGlob : string -> bool.

Local Abbreviation parsed := (parsedSpecs parseKubernetesSpecFile k8sSpecGlob).
Local Abbreviation warnings :=
  (parseWarnings parseKubernetesSpecFile k8sSpecGlob).
Local Abbreviation globbedFiles :=
  (filter (fun f : ProjectFile => k8sSpecGlob (path f))).
Local Abbreviation scanIn :=
  (Sync.scanProjectIn parseKubernetesSpecFile k8sSpecGlob).

Lemma rearranged_globbed (completion : list ProjectFile -> list ProjectFile)
  (fs : list ProjectFile) :
  rearranges completion ->
  globbedFiles (completion (globbedFiles fs)) = completion (globbedFiles fs).
Proof.
  intros Hc. apply filter_all. intros x Hx.
  apply (Permutation_in _ (Hc _)) in Hx.
  apply filter_In in Hx. exact (proj2 Hx).
Qed.

Lemma scanProjectIn_parsed
  (completion : list ProjectFile -> list ProjectFile) (w : World) :
  rearranges completion ->
  scanIn completion w
  = (logged (rev (warnings (completion (globbedFiles (files w))))) w,
     Ok (parsed (completion (globbedFiles (files w))))).
Proof.
  intros Hc. unfold Sync.scanProjectIn.
  rewrite <- (rearranged_globbed completion (files w) Hc) at 1.
  now rewrite (collect_all parseKubernetesSpecFile k8sSpecGlob).
Qed.

Lemma parsed_rearranged
  (completion : list ProjectFile -> list ProjectFile)
  (fs : list ProjectFile) (x : Sync.ProjectFileSpec) :
  rearranges completion ->
  In x (parsed (completion (globbedFiles fs))) <-> In x (parsed fs).
Proof.
  intros Hc. split; intros H.
  - apply parsed_sound in H. destruct H as (Hin & Hg & Hp).
    apply (Permutation_in _ (Hc _)) in Hin.
    apply filter_In in Hin.
    rewrite <- (pair_eta x). apply parsed_complete; tauto.
  - apply parsed_sound in H. destruct H as (Hin & Hg & Hp).
    rewrite <- (pair_eta x). apply parsed_complete; try assumption.
    apply (Permutation_in _ (Permutation_sym (Hc _))).
    apply filter_In. split; assumption.
Qed.

End AnyOrderScan.

Section AnyOrderPass.

Variable parseKubernetesSpecFile : ProjectFile -> Exn + K8sObject.
Variable k8sSpecGlob : string -> bool.
Variable yamlSafeDump : K8sObject -> string.
Variable stableStringify : K8sObject -> string.
Variable encryptSecret : K8sObject -> string -> K8sObject.
Variable opts : Config.KubernetesSyncOptions.
Variable resources : list K8sObject.
Variable F0 : list ProjectFile.
Variable specs : list Sync.ProjectFileSpec.

Local Abbreviation str :=
  (writtenAs yamlSafeDump stableStringify encryptSecret opts).
Local Abbreviation claims := (claimed parseKubernetesSpecFile k8sSpecGlob).
Local Abbreviation step :=
  (upsertStep yamlSafeDump stableStringify encryptSecret opts).
Local Abbreviation parsed := (parsedSpecs parseKubernetesSpecFile k8sSpecGlob).
Local Abbreviation state :=
  (passState yamlSafeDump stableStringify encryptSecret opts F0 specs).
Local Abbreviation written :=
  (writtenFor yamlSafeDump stableStringify encryptSecret opts F0 specs).

Hypothesis one_per_path : NoDup (map path F0).
Hypothesis one_version : oneVersionEach resources.
Hypothesis scanned : forall x, In x specs <-> In x (parsed F0).

Lemma matched_pair (r : K8sObject) (m : Sync.ProjectFileSpec) :
  Sync.matchSpec r specs = Some m ->
  In (Sync.file m) F0
  /\ k8sSpecGlob (path (Sync.file m)) = true
  /\ parseKubernetesSpecFile (Sync.file m) = inr (Sync.spec m)
  /\ Sync.sameObject r (Sync.spec m) = true.
Proof.
  intros H. unfold Sync.matchSpec in H.
  pose proof (find_some _ _ H) as [Hin Hs].
  apply scanned, (parsed_sound parseKubernetesSpecFile k8sSpecGlob) in Hin.
  tauto.
Qed.

(** Two resources of the list that match the file of one path are one
    resource. *)
Lemma one_resource_per_path (r r' : K8sObject)
  (m m' : Sync.ProjectFileSpec) :
  In r resources -> In r' resources ->
  Sync.matchSpec r specs = Some m -> Sync.matchSpec r' specs = Some m' ->
  path (Sync.file m) = path (Sync.file m') ->
  r = r'.
Proof.
  intros Hr Hr' Hm Hm' Hp.
  destruct (matched_pair r m Hm) as (Hin & _ & Hparse & Hs).
  destruct (matched_pair r' m' Hm') as (Hin' & _ & Hparse' & Hs').
  assert (E : Sync.file m = Sync.file m')
    by exact (same_path_same_file F0 _ _ one_per_path Hin Hin' Hp).
  rewrite E in Hparse. rewrite Hparse' in Hparse.
  injection Hparse as E'. rewrite <- E' in Hs.
  apply one_version; try assumption.
  exact (sameObject_sym_trans r r' _ Hs Hs').
Qed.

Lemma start_state : state [] F0.
Proof.
  split; [exact one_per_path |]. split; [auto |]. split.
  - intros f Hf. left. split; [exact Hf |]. intros r m [].
  - intros r [].
Qed.

Lemma state_matched (done : list K8sObject) (r : K8sObject)
  (m : Sync.ProjectFileSpec) (F : list ProjectFile) :
  In r resources -> incl done resources ->
  Sync.matchSpec r specs = Some m ->
  state done F ->
  state (r :: done)
    (map (overwrite (path (Sync.file m)) (str r (path (Sync.file m)))) F).
Proof.
  intros Hr Hdone Hm (Hnd & Hkeep & Hall & Hdone').
  set (p := path (Sync.file m)). set (c := str r p).
  destruct (matched_pair r m Hm) as (Hin & _ & _ & _).
  assert (Hp0 : hasPath p F0 = true).
  { apply hasPath_In, in_map. exact Hin. }
  assert (Hwr : written r {| path := p; content := c |}).
  { split; [reflexivity |]. intros _. exists m. split; [exact Hm | reflexivity]. }
  split; [|split; [|split]].
  - now rewrite overwrite_paths.
  - intros q Hq. apply hasPath_In. rewrite overwrite_paths.
    apply hasPath_In. now apply Hkeep.
  - intros f' Hf'. apply in_map_iff in Hf'. destruct Hf' as (f & <- & Hf).
    destruct (String.eqb_spec (path f) p) as [E | E].
    + rewrite (overwrite_hit p c f E). right. exists r.
      split; [now left | exact Hwr].
    + rewrite (overwrite_other p c f E).
      destruct (Hall f Hf) as [(H0 & Hno) | (r' & Hr' & Hw)].
      * left. split; [exact H0 |].
        intros r1 m1 [<- | H1] Hm1.
        -- rewrite Hm in Hm1. injection Hm1 as <-. exact (not_eq_sym E).
        -- now apply (Hno r1 m1).
      * right. exists r'. split; [now right | exact Hw].
  - intros r' [<- | Hr'].
    + pose proof (Hkeep p Hp0) as Hp.
      apply hasPath_In, in_map_iff in Hp. destruct Hp as (f & E & Hf).
      exists {| path := p; content := c |}. split; [| exact Hwr].
      apply in_map_iff. exists f. split; [| exact Hf].
      now apply overwrite_hit.
    + destruct (Hdone' r' Hr') as (f & Hf & Hw).
      destruct (String.eqb_spec (path f) p) as [E | E].
      * exists {| path := p; content := c |}. split.
        -- apply in_map_iff. exists f. split; [| exact Hf].
           now apply overwrite_hit.
        -- destruct Hw as (_ & Hmatch).
           rewrite E in Hmatch. destruct (Hmatch Hp0) as (m' & Hm' & Hp').
           assert (Er : r = r').
           { apply (one_resource_per_path r r' m m'); auto. }
           subst r'. exact Hwr.
      * exists f. split; [| exact Hw].
        apply in_map_iff. exists f. split; [| exact Hf].
        now apply overwrite_other.
Qed.

Lemma state_unmatched (done : list K8sObject) (r : K8sObject)
  (np : string) (F : list ProjectFile) :
  Sync.matchSpec r specs = None ->
  hasPath np F = false ->
  state done F ->
  state (r :: done) (F ++ [{| path := np; content := str r np |}]).
Proof.
  intros Hm Hnp (Hnd & Hkeep & Hall & Hdone').
  assert (Hwr : written r {| path := np; content := str r np |}).
  { split; [reflexivity |]. cbn [path]. intros H0.
    apply Hkeep in H0. congruence. }
  split; [|split; [|split]].
  - rewrite map_app. cbn [map path].
    apply NoDup_snoc; [exact Hnd | now apply hasPath_not_In].
  - intros q Hq. apply hasPath_In. rewrite map_app.
    apply in_or_app. left. apply hasPath_In. now apply Hkeep.
  - intros f Hf. apply in_app_or in Hf. destruct Hf as [Hf | [<- | []]].
    + destruct (Hall f Hf) as [(H0 & Hno) | (r' & Hr' & Hw)].
      * left. split; [exact H0 |].
        intros r1 m1 [<- | H1] Hm1; [congruence |].
        now apply (Hno r1 m1).
      * right. exists r'. split; [now right | exact Hw].
    + right. exists r. split; [now left | exact Hwr].
  - intros r' [<- | Hr'].
    + eexists. split; [| exact Hwr]. apply in_or_app. right. now left.
    + destruct (Hdone' r' Hr') as (f & Hf & Hw).
      exists f. split; [apply in_or_app; now left | exact Hw].
Qed.

(** The loop of an upsert pass keeps the state, whatever the pairs of
    the scan are matched in. *)
Lemma run_state (rest : list K8sObject) :
  forall done w w',
    incl done resources -> incl rest resources ->
    state done (files w) ->
    forEach (step specs) rest w = (w', Ok tt) ->
    exists done',
      (forall r, In r done' <-> In r done \/ In r rest)
      /\ state done' (files w').
Proof.
  induction rest as [| r rest IH]; intros done w w' Hdone Hrest Hst.
  - intros [= <-]. exists done. split; [| exact Hst].
    intros r. cbn. tauto.
  - rewrite forEach_cons.
    destruct (step specs r w) as [w1 [[] | e |]] eqn:E; try discriminate.
    intros Hrun.
    assert (Hr : In r resources) by (apply Hrest; now left).
    assert (Hst1 : state (r :: done) (files w1)).
    { destruct (Sync.matchSpec r specs) as [m |] eqn:Em.
      - rewrite (step_matched yamlSafeDump stableStringify encryptSecret
                   opts specs r m w Em) in E.
        injection E as <-. cbn [files withFiles].
        replace (files (withFiles _ w)) with
          (map (overwrite (path (Sync.file m)) (str r (path (Sync.file m))))
             (files w)) by (destruct w; reflexivity).
        now apply state_matched.
      - destruct (step_unmatched yamlSafeDump stableStringify encryptSecret
                    opts specs r w w1 Em E) as (np & Hnp & ->).
        now apply state_unmatched. }
    destruct (IH (r :: done) w1 w') as (done' & Hd & Hst'); auto.
    + intros x [<- | Hx]; auto.
    + intros x Hx. apply Hrest. now right.
    + exists done'. split; [| exact Hst'].
      intros x. rewrite Hd. cbn. tauto.
Qed.

End AnyOrderPass.

Section Twice.

Variable parseKubernetesSpecFile : ProjectFile -> Exn + K8sObject.
Variable k8sSpecGlob : string -> bool.
Variable yamlSafeDump : K8sObject -> string.
Variable stableStringify : K8sObject -> string.
Variable encryptSecret : K8sObject -> string -> K8sObject.
Variable commitTag : string.

Local Abbreviation parsed := (parsedSpecs parseKubernetesSpecFile k8sSpecGlob).
Local Abbreviation warnings :=
  (parseWarnings parseKubernetesSpecFile k8sSpecGlob).
Local Abbreviation prepare :=
  (changesApplied parseKubernetesSpecFile k8sSpecGlob yamlSafeDump
     stableStringify encryptSecret).
Local Abbreviation sync :=
  (Sync.syncResources parseKubernetesSpecFile k8sSpecGlob yamlSafeDump
     stableStringify encryptSecret commitTag).

Lemma prepare_upserts (resources : list K8sObject)
  (opts : Config.KubernetesSyncOptions) (w : World) :
  prepare resources Sync.Upsert opts w
  = forEach
      (upsertStep yamlSafeDump stableStringify encryptSecret opts
         (parsed (files w)))
      resources (logged (rev (warnings (files w))) w).
Proof.
  unfold changesApplied, bind at 1. now rewrite scanProject_parsed.
Qed.

Lemma first_pass_ok (app : Request.KubernetesDelete)
  (resources : list K8sObject) (action : Sync.SyncAction)
  (opts : Config.KubernetesSyncOptions) (w0 w1 : World) :
  sync app resources action opts w0 = (w1, Ok tt) ->
  exists wa,
    prepare resources action opts w0 = (wa, Ok tt)
    /\ files w1 = files wa
    /\ (NoDup (map path (files wa)) ->
        sameTree (files w1) (headTree w1) = true).
Proof.
  rewrite syncResources_stages. unfold bind at 1.
  destruct (prepare resources action opts w0) as [wa [[]|e|]];
    try discriminate.
  rewrite commitAndPush_cases.
  destruct (sameTree (files wa) (headTree wa)) eqn:Eclean.
  - intros [= <-]. exists wa. auto.
  - unfold tryCatch, bind, commit, push, logError, throw.
    destruct (commitFault wa); [discriminate|]. simpl.
    destruct (pushFault wa); [discriminate|].
    intros [= <-]. exists wa. simpl. split; [reflexivity|].
    split; [reflexivity|]. apply sameTree_refl.
Qed.

End Twice.

Section AnyOrderTwice.

Variable parseKubernetesSpecFile : ProjectFile -> Exn + K8sObject.
Variable k8sSpecGlob : string -> bool.
Variable yamlSafeDump : K8sObject -> string.
Variable stableStringify : K8sObject -> string.
Variable encryptSecret : K8sObject -> string -> K8sObject.
Variable commitTag : string.
Variable opts : Config.KubernetesSyncOptions.

Local Abbreviation str :=
  (writtenAs yamlSafeDump stableStringify encryptSecret opts).
Local Abbreviation claims := (claimed parseKubernetesSpecFile k8sSpecGlob).
Local Abbreviation step :=
  (upsertStep yamlSafeDump stableStringify encryptSecret opts).
Local Abbreviation parsed := (parsedSpecs parseKubernetesSpecFile k8sSpecGlob).
Local Abbreviation warnings :=
  (parseWarnings parseKubernetesSpecFile k8sSpecGlob).
Local Abbreviation globbedFiles :=
  (filter (fun f : ProjectFile => k8sSpecGlob (path f))).
Local Abbreviation changes :=
  (Sync.applyChanges yamlSafeDump stableStringify encryptSecret).
Local Abbreviation finish := (Sync.commitAndPush commitTag).
Local Abbreviation syncIn :=
  (Sync.syncResourcesIn parseKubernetesSpecFile k8sSpecGlob yamlSafeDump
     stableStringify encryptSecret commitTag).

(** The pass whose scan completes in the order of the project is
    [syncResources] as it is written above. *)
Lemma syncResourcesIn_listed (app : Request.KubernetesDelete)
  (resources : list K8sObject) (action : Sync.SyncAction) :
  syncIn (fun l => l) app resources action opts
  = Sync.syncResources parseKubernetesSpecFile k8sSpecGlob yamlSafeDump
      stableStringify encryptSecret commitTag app resources action opts.
Proof. reflexivity. Qed.

Lemma syncResourcesIn_stages
  (completion : list ProjectFile -> list ProjectFile)
  (app : Request.KubernetesDelete) (resources : list K8sObject)
  (action : Sync.SyncAction) (w : World) :
  rearranges completion ->
  syncIn completion app resources action opts w
  = (changes resources action opts
       (parsed (completion (globbedFiles (files w)))) ;;;
     finish app action)
      (logged (rev (warnings (completion (globbedFiles (files w))))) w).
Proof.
  intros Hc. unfold Sync.syncResourcesIn, bind at 1.
  now rewrite (scanProjectIn_parsed parseKubernetesSpecFile k8sSpecGlob
                 completion w Hc).
Qed.

Lemma commitAndPush_ok (app : Request.KubernetesDelete)
  (action : Sync.SyncAction) (wa w1 : World) :
  finish app action wa = (w1, Ok tt) ->
  files w1 = files wa
  /\ (NoDup (map path (files wa)) ->
      sameTree (files w1) (headTree w1) = true).
Proof.
  rewrite commitAndPush_cases.
  destruct (sameTree (files wa) (headTree wa)) eqn:Eclean.
  - intros [= <-]. auto.
  - unfold tryCatch, bind, commit, push, logError, throw.
    destruct (commitFault wa); [discriminate|]. simpl.
    destruct (pushFault wa); [discriminate|].
    intros [= <-]. simpl. split; [reflexivity|]. apply sameTree_refl.
Qed.

Section Settled.

Variable resources : list K8sObject.
Variable F0 F1 : list ProjectFile.
Variable specs : list Sync.ProjectFileSpec.
Variable done : list K8sObject.

Hypothesis one_per_path : NoDup (map path F0).
Hypothesis one_version : oneVersionEach resources.
Hypothesis one_file :
  oneFileEach parseKubernetesSpecFile k8sSpecGlob resources F0.
Hypothesis scanned : forall x, In x specs <-> In x (parsed F0).
Hypothesis readback :
  faithful parseKubernetesSpecFile yamlSafeDump stableStringify
    encryptSecret opts resources F1 = true.
Hypothesis spec_files : globbed k8sSpecGlob F0 F1 = true.
Hypothesis all_done : forall r, In r done <-> In r resources.
Hypothesis reached :
  passState yamlSafeDump stableStringify encryptSecret opts F0 specs done F1.

Lemma reads_back (r : K8sObject) (f : ProjectFile) :
  In r resources -> In f F1 -> content f = str r (path f) ->
  exists s,
    parseKubernetesSpecFile f = inr s /\ Sync.sameObject r s = true.
Proof.
  intros Hr Hf Hc.
  unfold faithful in readback. rewrite forallb_forall in readback.
  specialize (readback r Hr). rewrite forallb_forall in readback.
  specialize (readback f Hf). unfold readsBack in readback.
  rewrite <- Hc in readback.
  replace {| path := path f; content := content f |} with f in readback
    by (destruct f; reflexivity).
  destruct (parseKubernetesSpecFile f) as [e | s]; [discriminate |].
  now exists s.
Qed.

(** After the first pass a file that the scan pairs with a resource of
    the list holds what an upsert writes for that resource. *)
Lemma claimed_written (r : K8sObject) (f : ProjectFile) :
  In r resources -> In f F1 -> claims r f = true ->
  content f = str r (path f).
Proof.
  intros Hr Hf Hcl. unfold claimed in Hcl.
  apply andb_true_iff in Hcl. destruct Hcl as [Hg Hcl].
  destruct (parseKubernetesSpecFile f) as [e | s] eqn:Hp; [discriminate |].
  destruct reached as (_ & _ & Hall & _).
  destruct (Hall f Hf) as [(H0 & Hno) | (r' & Hr' & Hw & _)].
  - exfalso.
    assert (Hx : In {| Sync.file := f; Sync.spec := s |} (parsed F0))
      by now apply parsed_complete.
    destruct (Sync.matchSpec r specs) as [m |] eqn:Em.
    + pose proof (find_some _ _ Em) as [Hin Hs].
      apply scanned in Hin.
      assert (E : f = Sync.file m).
      { exact (one_file r {| Sync.file := f; Sync.spec := s |} m
                 Hr Hx Hin Hcl Hs). }
      apply (Hno r m); [now apply all_done | exact Em | now rewrite E].
    + unfold Sync.matchSpec in Em.
      apply scanned in Hx.
      pose proof (find_none _ _ Em _ Hx) as Hn. cbn in Hn. congruence.
  - apply all_done in Hr'.
    destruct (reads_back r' f Hr' Hf Hw) as (s' & Hp' & Hs').
    rewrite Hp in Hp'. injection Hp' as <-.
    assert (E : r = r').
    { apply one_version; try assumption.
      rewrite sameObject_identifies in *.
      exact (identifies_trans_sym r r' s Hcl Hs'). }
    now subst r'.
Qed.

(** After the first pass every resource of the list has a file that the
    scan pairs with it. *)
Lemma has_claimant (r : K8sObject) :
  In r resources -> exists f, In f F1 /\ claims r f = true.
Proof.
  intros Hr. destruct reached as (_ & _ & _ & Hdone).
  destruct (Hdone r (proj2 (all_done r) Hr)) as (f & Hf & Hw & Hm).
  exists f. split; [exact Hf |].
  destruct (reads_back r f Hr Hf Hw) as (s & Hp & Hs).
  unfold claimed. rewrite Hp, Hs, andb_true_r.
  destruct (hasPath (path f) F0) eqn:E0.
  - destruct (Hm eq_refl) as (m & Em & <-).
    pose proof (find_some _ _ Em) as [Hin _].
    apply scanned, (parsed_sound parseKubernetesSpecFile k8sSpecGlob) in Hin.
    tauto.
  - unfold globbed in spec_files. rewrite forallb_forall in spec_files.
    specialize (spec_files f Hf). now rewrite E0 in spec_files.
Qed.

(** The loop of the second pass, over whatever pairs its scan gives,
    changes nothing. *)
Lemma second_loop (specs2 : list Sync.ProjectFileSpec)
  (rs : list K8sObject) :
  (forall x, In x specs2 <-> In x (parsed F1)) ->
  incl rs resources ->
  forall w, files w = F1 -> forEach (step specs2) rs w = (w, Ok tt).
Proof.
  intros Hscan2. induction rs as [| r rs IH]; intros Hrs w Hw;
    [reflexivity |].
  assert (Hr : In r resources) by (apply Hrs; now left).
  rewrite forEach_cons.
  destruct (Sync.matchSpec r specs2) as [m |] eqn:Em.
  - rewrite (step_matched yamlSafeDump stableStringify encryptSecret opts
               specs2 r m w Em).
    pose proof (find_some _ _ Em) as [Hin Hs].
    apply Hscan2, (parsed_sound parseKubernetesSpecFile k8sSpecGlob) in Hin.
    destruct Hin as (Hin & Hg & Hp).
    assert (Hc : content (Sync.file m) = str r (path (Sync.file m))).
    { apply claimed_written; try assumption.
      unfold claimed. now rewrite Hg, Hp. }
    rewrite <- Hc, Hw.
    rewrite overwrite_same;
      [| exact (proj1 reached) | exact Hin].
    rewrite <- Hw, withFiles_same.
    apply IH; [| exact Hw].
    intros x Hx. apply Hrs. now right.
  - exfalso. destruct (has_claimant r Hr) as (f & Hf & Hcl).
    unfold claimed in Hcl. apply andb_true_iff in Hcl.
    destruct Hcl as [Hg Hcl].
    destruct (parseKubernetesSpecFile f) as [e | s] eqn:Hp; [discriminate |].
    assert (Hx : In {| Sync.file := f; Sync.spec := s |} specs2)
      by now apply Hscan2, parsed_complete.
    pose proof (find_none _ _ Em _ Hx) as Hn. cbn in Hn. congruence.
Qed.

End Settled.

(** C8, as amended.  In a project with one file per path, where no
    resource of the list is described by two spec files, and for a
    list in which no two different resources have the same kind, name
    and namespace: after a first upsert pass that succeeded, a second
    pass with the same application and resources succeeds, leaves
    every file and the last commit as they are, and neither commits
    nor pushes, in whatever order the scans of the two passes complete.
    What the first pass wrote parses back to the same object, and the
    files it added match the spec glob. *)
Theorem upsert_twice_quiet
  (first second : list ProjectFile -> list ProjectFile)
  (app : Request.KubernetesDelete)
  (resources : list K8sObject) (w0 w1 : World) :
  rearranges first -> rearranges second ->
  oneVersionEach resources ->
  oneFileEach parseKubernetesSpecFile k8sSpecGlob resources (files w0) ->
  distinctPaths (files w0) = true ->
  syncIn first app resources Sync.Upsert opts w0 = (w1, Ok tt) ->
  faithful parseKubernetesSpecFile yamlSafeDump stableStringify encryptSecret
    opts resources (files w1) = true ->
  globbed k8sSpecGlob (files w0) (files w1) = true ->
  secondPassQuietIn parseKubernetesSpecFile k8sSpecGlob yamlSafeDump
    stableStringify encryptSecret commitTag opts second app resources w1.
Proof.
  intros Hfirst Hsecond Hone Hfile Hpaths Hpass Hfaithful Hglob.
  apply distinctPaths_NoDup in Hpaths.
  rewrite (syncResourcesIn_stages first app resources Sync.Upsert w0 Hfirst)
    in Hpass.
  unfold bind at 1 in Hpass.
  set (l1 := first (globbedFiles (files w0))) in *.
  destruct (changes resources Sync.Upsert opts (parsed l1)
              (logged (rev (warnings l1)) w0))
    as [wa [[] | e |]] eqn:Eloop; try discriminate.
  destruct (commitAndPush_ok app Sync.Upsert wa w1 Hpass) as (Efiles & Hclean).
  assert (Hscan1 : forall x, In x (parsed l1) <-> In x (parsed (files w0))).
  { intros x. now apply parsed_rearranged. }
  destruct (run_state parseKubernetesSpecFile k8sSpecGlob yamlSafeDump
              stableStringify encryptSecret opts resources (files w0)
              (parsed l1) Hpaths Hone Hscan1 resources []
              (logged (rev (warnings l1)) w0) wa)
    as (done & Hdone & Hstate).
  - intros x [].
  - apply incl_refl.
  - apply start_state. exact Hpaths.
  - exact Eloop.
  - rewrite <- Efiles in Hstate.
    assert (Hall : forall r, In r done <-> In r resources).
    { intros r. rewrite Hdone. cbn. tauto. }
    assert (Hnd : NoDup (map path (files wa)))
      by (rewrite <- Efiles; exact (proj1 Hstate)).
    specialize (Hclean Hnd).
    set (l2 := second (globbedFiles (files w1))).
    exists (logged (rev (warnings l2)) w1).
    split; [| split; [reflexivity | split; [reflexivity |]]].
    + rewrite (syncResourcesIn_stages second app resources Sync.Upsert w1
                 Hsecond).
      fold l2. unfold bind at 1.
      change (changes resources Sync.Upsert opts (parsed l2))
        with (forEach (step (parsed l2)) resources).
      rewrite (second_loop resources (files w0) (files w1) (parsed l1) done
                 Hone Hfile Hscan1 Hfaithful Hglob Hall Hstate (parsed l2)
                 resources).
      * rewrite commitAndPush_cases. cbn [files headTree logged].
        now rewrite Hclean.
      * intros x. now apply parsed_rearranged.
      * apply incl_refl.
      * reflexivity.
    + cbn [journal logged]. apply commits_warnings.
Qed.

End AnyOrderTwice.

(** Where two files describe a resource, the second pass is quiet when
    its scan completes in the order of the first one and commits again
    when it completes in the reverse order. *)
Lemma two_files_for_one_resource :
  commits (journal afterDoubledPass) = 1
  /\ commits
       (journal
          (fst (Fixture.syncResourcesIn (fun l => l) Fixture.tonina
                  [Fixture.toninaService] Sync.Upsert Fixture.syncOptions
                  afterDoubledPass))) = 1
  /\ commits
       (journal
          (fst (Fixture.syncResourcesIn (@rev ProjectFile) Fixture.tonina
                  [Fixture.toninaService] Sync.Upsert Fixture.syncOptions
                  afterDoubledPass))) = 2.
Proof. repeat split. Qed.

Lemma upsert_twice_quiet_witness :
  secondPassQuietIn Fixture.parseKubernetesSpecFile Fixture.k8sSpecGlob
    Fixture.yamlSafeDump Fixture.stableStringify Fixture.encryptSecret
    Fixture.commitTag Fixture.syncOptions (fun l => l) Fixture.tonina
    deploymentAndService afterReversedPass.
Proof.
  apply (upsert_twice_quiet Fixture.parseKubernetesSpecFile
           Fixture.k8sSpecGlob Fixture.yamlSafeDump Fixture.stableStringify
           Fixture.encryptSecret Fixture.commitTag Fixture.syncOptions
           (@rev ProjectFile) (fun l => l) Fixture.tonina
           deploymentAndService stockedWorld afterReversedPass).
  - intros l. apply Permutation_sym, Permutation_rev.
  - intros l. apply Permutation_refl.
  - intros r r' Hr Hr' Hs. cbn in Hr, Hr'.
    destruct Hr as [<- | [<- | [<- | []]]];
      destruct Hr' as [<- | [<- | [<- | []]]];
      try reflexivity; discriminate Hs.
  - intros r x y _ Hx Hy _ _. cbn in Hx, Hy.
    destruct Hx as [<- | []]. destruct Hy as [<- | []]. reflexivity.
  - reflexivity.
  - reflexivity.
  - reflexivity.
  - reflexivity.
Defined.

(* ================================================================== *)
(** * Further properties of the reconciler *)

Lemma commitAndPush_frame (commitTag : string)
  (app : Request.KubernetesDelete) (action : Sync.SyncAction)
  (w w' : World) (res : Res unit) :
  Sync.commitAndPush commitTag app action w = (w', res) ->
  files w' = files w /\ guids w' = guids w /\ res <> Diverges.
Proof.
  rewrite commitAndPush_cases.
  destruct (sameTree (files w) (headTree w)).
  - intros [= <- <-]. repeat split. discriminate.
  - unfold tryCatch, bind, commit, push, logError, throw.
    destruct (commitFault w); simpl.
    + intros [= <- <-]. repeat split. discriminate.
    + destruct (pushFault w); simpl; intros [= <- <-];
        repeat split; discriminate.
Qed.

Lemma forEach_app {A} (f : A -> M unit) (l1 l2 : list A) (w : World) :
  forEach f (l1 ++ l2) w
  = match forEach f l1 w with
    | (w', Ok _) => forEach f l2 w'
    | other => other
    end.
Proof.
  revert w. induction l1 as [|x l1 IH]; intros w; [reflexivity|].
  simpl app. rewrite !forEach_cons.
  destruct (f x w) as [w' [[]|e|]]; [apply IH | reflexivity | reflexivity].
Qed.

Lemma filter_filter {A} (f g : A -> bool) (l : list A) :
  filter f (filter g l) = filter (fun x => g x && f x) l.
Proof.
  induction l as [|x l IH]; simpl; [reflexivity|].
  destruct (g x); simpl; [destruct (f x); now rewrite IH | exact IH].
Qed.

Section Frame.

Variable parseKubernetesSpecFile : ProjectFile -> Exn + K8sObject.
Variable k8sSpecGlob : string -> bool.
Variable yamlSafeDump : K8sObject -> string.
Variable stableStringify : K8sObject -> string.
Variable encryptSecret : K8sObject -> string -> K8sObject.
Variable commitTag : string.
Variable validSyncOptions : Config.KubernetesSyncOptions -> bool.

Local Abbreviation parsed := (parsedSpecs parseKubernetesSpecFile k8sSpecGlob).
Local Abbreviation warnings :=
  (parseWarnings parseKubernetesSpecFile k8sSpecGlob).
Local Abbreviation scan :=
  (Sync.scanProject parseKubernetesSpecFile k8sSpecGlob).
Local Abbreviation changes :=
  (Sync.applyChanges yamlSafeDump stableStringify encryptSecret).
Local Abbreviation prepare :=
  (changesApplied parseKubernetesSpecFile k8sSpecGlob yamlSafeDump
     stableStringify encryptSecret).
Local Abbreviation sync :=
  (Sync.syncResources parseKubernetesSpecFile k8sSpecGlob yamlSafeDump
     stableStringify encryptSecret commitTag).
Local Abbreviation finish := (Sync.commitAndPush commitTag).
Local Abbreviation upsert :=
  (upsertStep yamlSafeDump stableStringify encryptSecret).
Local Abbreviation globbedFiles :=
  (filter (fun f : ProjectFile => k8sSpecGlob (path f))).
Local Abbreviation scanIn :=
  (Sync.scanProjectIn parseKubernetesSpecFile k8sSpecGlob).
Local Abbreviation syncIn :=
  (Sync.syncResourcesIn parseKubernetesSpecFile k8sSpecGlob yamlSafeDump
     stableStringify encryptSecret commitTag).

Lemma parsed_files (fs : list ProjectFile) :
  map Sync.file (parsed fs)
  = filter (fun f => k8sSpecGlob (path f) && parses parseKubernetesSpecFile f)
      fs.
Proof.
  unfold parses. induction fs as [|f fs IH]; simpl; [reflexivity|].
  destruct (k8sSpecGlob (path f)); simpl; [|exact IH].
  destruct (parseKubernetesSpecFile f); simpl; [exact IH | now rewrite IH].
Qed.

Lemma parsed_warnings_count (fs : list ProjectFile) :
  List.length (parsed fs) + List.length (warnings fs)
  = List.length (filter (fun f => k8sSpecGlob (path f)) fs).
Proof.
  induction fs as [|f fs IH]; simpl; [reflexivity|].
  destruct (k8sSpecGlob (path f)); simpl; [|exact IH].
  destruct (parseKubernetesSpecFile f); simpl; lia.
Qed.

Lemma warnings_are_warnings (fs : list ProjectFile) :
  forallb isWarning (warnings fs) = true.
Proof.
  induction fs as [|f fs IH]; simpl; [reflexivity|].
  destruct (k8sSpecGlob (path f)); simpl; [|exact IH].
  destruct (parseKubernetesSpecFile f); simpl; exact IH.
Qed.

Lemma filter_rearranged {A} (f : A -> bool) (l l' : list A) :
  Permutation l l' -> Permutation (filter f l) (filter f l').
Proof.
  induction 1 as [| x l l' _ IH | x y l | l l' l'' _ IH1 _ IH2].
  - constructor.
  - cbn. destruct (f x); [now constructor | exact IH].
  - cbn. destruct (f x), (f y); try apply Permutation_refl.
    apply perm_swap.
  - exact (Permutation_trans IH1 IH2).
Qed.

(** X1.  In whatever order the parses complete, the scan changes
    nothing but the journal, to which it adds warnings only: the files
    it pairs are those that match the glob and parse, each of them once
    and with the spec the parser gave, in the order of completion; and
    pairs and warnings together are as many as the files that match
    the glob. *)
Theorem scanProject_partitions
  (completion : list ProjectFile -> list ProjectFile) (w : World) :
  rearranges completion ->
  exists specs warned,
    scanIn completion w = (logged warned w, Ok specs)
    /\ forallb isWarning warned = true
    /\ map Sync.file specs
       = filter (parses parseKubernetesSpecFile)
           (completion (globbedFiles (files w)))
    /\ Permutation (map Sync.file specs)
         (filter
            (fun f =>
               k8sSpecGlob (path f) && parses parseKubernetesSpecFile f)
            (files w))
    /\ Forall
         (fun x => parseKubernetesSpecFile (Sync.file x) = inr (Sync.spec x))
         specs
    /\ List.length specs + List.length warned
       = List.length (globbedFiles (files w)).
Proof.
  intros Hc. set (l := completion (globbedFiles (files w))).
  assert (Hl : globbedFiles l = l)
    by (apply rearranged_globbed; exact Hc).
  assert (Hfiles : map Sync.file (parsed l)
                   = filter (parses parseKubernetesSpecFile) l).
  { rewrite parsed_files, <- (filter_filter _ _ l). now rewrite Hl. }
  exists (parsed l), (rev (warnings l)).
  split; [now apply scanProjectIn_parsed |].
  split; [| split; [exact Hfiles | split; [| split]]].
  - rewrite forallb_forall. intros e He. apply in_rev in He.
    pose proof (warnings_are_warnings l) as H.
    rewrite forallb_forall in H. now apply H.
  - rewrite Hfiles.
    rewrite <- (filter_filter (parses parseKubernetesSpecFile)
                  (fun f => k8sSpecGlob (path f)) (files w)).
    apply filter_rearranged. exact (Hc _).
  - apply Forall_forall. intros x Hx.
    now apply (parsed_sound parseKubernetesSpecFile k8sSpecGlob) in Hx.
  - rewrite length_rev, parsed_warnings_count, Hl.
    apply Permutation_length. exact (Hc _).
Qed.

Lemma delete_loop (specs : list Sync.ProjectFileSpec)
  (opts : Config.KubernetesSyncOptions) (rs : list K8sObject) :
  forall w,
    changes rs Sync.Delete opts specs w
    = (withFiles
         (filter (fun f => negb (inb (path f) (deletedPaths rs specs)))
                 (files w)) w,
       Ok tt).
Proof.
  unfold Sync.applyChanges.
  induction rs as [|r rs IH]; intros w.
  - simpl. unfold ret. f_equal.
    rewrite <- (withFiles_same w) at 1. f_equal.
    symmetry. apply forallb_filter_id. apply forallb_forall. auto.
  - rewrite forEach_cons. unfold deletedPaths. simpl flat_map.
    fold (deletedPaths rs specs).
    unfold Sync.syncAction at 1, Sync.resourceDeleted, matchedPath.
    destruct (Sync.matchSpec r specs) as [m|].
    + unfold deleteFile. rewrite IH. simpl. rewrite filter_filter.
      f_equal. unfold withFiles. simpl. f_equal.
      apply filter_ext. intros f. unfold inb. simpl.
      now rewrite negb_orb.
    + unfold ret. rewrite IH. reflexivity.
Qed.

(** X2.  A delete pass that succeeds, in whatever order its scan
    completes, has added no file, rewritten none and drawn no random
    value: the files it leaves are the files it found, in their order,
    without those at the path of the file that a resource matched among
    the pairs of the scan, which are those of the files that match the
    glob and parse. *)
Theorem delete_pass_removes_matched
  (completion : list ProjectFile -> list ProjectFile)
  (app : Request.KubernetesDelete)
  (resources : list K8sObject) (opts : Config.KubernetesSyncOptions)
  (w w' : World) :
  rearranges completion ->
  syncIn completion app resources Sync.Delete opts w = (w', Ok tt) ->
  exists specs,
    (forall x, In x specs <-> In x (parsed (files w)))
    /\ files w'
       = filter
           (fun f => negb (inb (path f) (deletedPaths resources specs)))
           (files w)
    /\ (forall p,
          In p (deletedPaths resources specs) <->
          exists r m,
            In r resources
            /\ Sync.matchSpec r specs = Some m
            /\ p = path (Sync.file m))
    /\ guids w' = guids w.
Proof.
  intros Hc.
  unfold Sync.syncResourcesIn, bind at 1.
  rewrite (scanProjectIn_parsed parseKubernetesSpecFile k8sSpecGlob
             completion w Hc).
  set (specs := parsed (completion (globbedFiles (files w)))).
  unfold bind at 1. rewrite delete_loop. intros H.
  apply commitAndPush_frame in H. destruct H as (Hf & Hg & _).
  exists specs.
  split; [intros x; now apply parsed_rearranged |].
  split; [exact Hf |]. split; [| exact Hg].
  intros p. unfold deletedPaths. rewrite in_flat_map. unfold matchedPath.
  split.
  - intros (r & Hr' & Hp).
    destruct (Sync.matchSpec r specs) as [m|] eqn:E; [|contradiction].
    destruct Hp as [<- | []]. exists r, m. auto.
  - intros (r & m & Hr' & E & ->). exists r. split; [exact Hr'|].
    rewrite E. now left.
Qed.

(** X3.  Deleting resources none of which has a spec file, on a clean
    working copy, is a no-op: no file changes, nothing is committed and
    nothing is pushed. *)
Theorem delete_without_match_is_quiet (app : Request.KubernetesDelete)
  (resources : list K8sObject) (opts : Config.KubernetesSyncOptions)
  (w : World) :
  (forall r, In r resources -> Sync.matchSpec r (parsed (files w)) = None) ->
  sameTree (files w) (headTree w) = true ->
  exists w',
    sync app resources Sync.Delete opts w = (w', Ok tt)
    /\ files w' = files w
    /\ headTree w' = headTree w
    /\ commits (journal w') = commits (journal w)
    /\ pushes (journal w') = pushes (journal w).
Proof.
  intros Hnone Hclean.
  assert (Hd : deletedPaths resources (parsed (files w)) = []).
  { unfold deletedPaths. induction resources as [|r rs IH]; [reflexivity|].
    simpl. unfold matchedPath at 1. rewrite (Hnone r (or_introl eq_refl)).
    apply IH. intros r' Hr'. apply Hnone. now right. }
  exists (logged (rev (warnings (files w))) w).
  split; [|split; [reflexivity | split; [reflexivity|]]].
  - rewrite syncResources_stages.
    unfold bind at 1, changesApplied, bind at 1.
    rewrite scanProject_parsed, delete_loop, Hd. simpl files.
    assert (E : filter (fun f : ProjectFile => negb (inb (path f) []))
                  (files w) = files w).
    { apply forallb_filter_id. apply forallb_forall. auto. }
    rewrite E.
    assert (E' : withFiles (files w) (logged (rev (warnings (files w))) w)
                 = logged (rev (warnings (files w))) w)
      by apply (withFiles_same (logged _ w)).
    rewrite E', commitAndPush_cases. simpl. now rewrite Hclean.
  - simpl. apply commits_warnings.
Qed.

Lemma step_any (specs : list Sync.ProjectFileSpec)
  (opts : Config.KubernetesSyncOptions) (r : K8sObject)
  (w w' : World) (res : Res unit) :
  upsert opts specs r w = (w', res) ->
  (exists m,
     Sync.matchSpec r specs = Some m /\ res = Ok tt
     /\ files w'
        = map (overwrite (path (Sync.file m))
                 (writtenAs yamlSafeDump stableStringify encryptSecret opts r
                    (path (Sync.file m))))
            (files w))
  \/ (Sync.matchSpec r specs = None /\ res = Ok tt
      /\ exists np,
           hasPath np (files w) = false
           /\ files w'
              = (files w
                   ++ [{| path := np;
                          content :=
                            writtenAs yamlSafeDump stableStringify
                              encryptSecret opts r np |}])%list)
  \/ (Sync.matchSpec r specs = None /\ res <> Ok tt
      /\ files w' = files w /\ headTree w' = headTree w
      /\ journal w' = journal w).
Proof.
  destruct (Sync.matchSpec r specs) as [m|] eqn:E.
  - rewrite (step_matched _ _ _ opts specs r m w E). intros [= <- <-].
    left. exists m. auto.
  - destruct res as [[]|e|].
    + intros H. right. left. split; [reflexivity|]. split; [reflexivity|].
      exact (step_unmatched _ _ _ opts specs r w w' E H).
    + unfold upsertStep. rewrite E.
      unfold Sync.resourceUpserted, bind, Sync.uniqueSpecFile, addFile.
      destruct (Spec.kubernetesSpecFileBasename r) as [e'|root].
      * intros [= <- <-]. right. right. repeat split. discriminate.
      * destruct (Sync.untilFree (files w) root (root ++ ".json") (guids w))
          as [[q|] rest]; discriminate.
    + unfold upsertStep. rewrite E.
      unfold Sync.resourceUpserted, bind, Sync.uniqueSpecFile, addFile.
      destruct (Spec.kubernetesSpecFileBasename r) as [e'|root];
        [discriminate|].
      destruct (Sync.untilFree (files w) root (root ++ ".json") (guids w))
        as [[q|] rest]; [discriminate|].
      intros [= <-]. right. right. repeat split. discriminate.
Qed.

Lemma upsert_loop_paths (specs : list Sync.ProjectFileSpec)
  (opts : Config.KubernetesSyncOptions) (rs : list K8sObject) :
  forall w w' res,
    forEach (upsert opts specs) rs w = (w', res) ->
    exists extra, map path (files w') = (map path (files w) ++ extra)%list.
Proof.
  induction rs as [|r rs IH]; intros w w' res.
  - intros [= <- <-]. exists []. now rewrite app_nil_r.
  - rewrite forEach_cons.
    destruct (upsert opts specs r w) as [w1 r1] eqn:E.
    assert (H1 : exists x1,
               map path (files w1) = (map path (files w) ++ x1)%list).
    { destruct (step_any specs opts r w w1 r1 E)
        as [(m & _ & _ & ->) | [(_ & _ & np & _ & ->) | (_ & _ & -> & _)]].
      - exists []. now rewrite overwrite_paths, app_nil_r.
      - exists [np]. now rewrite map_app.
      - exists []. now rewrite app_nil_r. }
    destruct H1 as (x1 & E1).
    destruct r1 as [[]|e|].
    + intros H. destruct (IH _ _ _ H) as (x2 & E2).
      exists (x1 ++ x2)%list. now rewrite E2, E1, app_assoc.
    + intros [= <- <-]. now exists x1.
    + intros [= <- <-]. now exists x1.
Qed.

(** X4.  An upsert pass never deletes or renames a file, whatever its
    outcome: the paths it found are still there, in their order, and
    the paths of the files it added come after them. *)
Theorem upsert_pass_keeps_paths (app : Request.KubernetesDelete)
  (resources : list K8sObject) (opts : Config.KubernetesSyncOptions)
  (w w' : World) (res : Res unit) :
  sync app resources Sync.Upsert opts w = (w', res) ->
  exists extra, map path (files w') = (map path (files w) ++ extra)%list.
Proof.
  rewrite syncResources_stages. unfold bind at 1.
  rewrite prepare_upserts.
  destruct (forEach _ resources _) as [w1 r1] eqn:E.
  apply upsert_loop_paths in E. simpl in E.
  destruct r1 as [[]|e|].
  - intros H. apply commitAndPush_frame in H. destruct H as (-> & _). exact E.
  - intros [= <- <-]. exact E.
  - intros [= <- <-]. exact E.
Qed.

Lemma upsert_loop_count (specs : list Sync.ProjectFileSpec)
  (opts : Config.KubernetesSyncOptions) (rs : list K8sObject) :
  forall w w',
    forEach (upsert opts specs) rs w = (w', Ok tt) ->
    List.length (files w')
    = List.length (files w) + List.length (filter (unmatched specs) rs).
Proof.
  induction rs as [|r rs IH]; intros w w'.
  - intros [= <-]. simpl. lia.
  - rewrite forEach_cons.
    destruct (upsert opts specs r w) as [w1 [[]|e|]] eqn:E;
      try discriminate.
    intros H. rewrite (IH _ _ H). simpl. unfold unmatched at 2.
    destruct (step_any specs opts r w w1 (Ok tt) E)
      as [(m & -> & _ & ->) | [(-> & _ & np & _ & ->) | (_ & Hn & _)]].
    + rewrite length_map. lia.
    + rewrite length_app. simpl. lia.
    + congruence.
Qed.

(** X5.  An upsert pass that succeeds adds exactly one file for each
    resource that matches no pair of the scan, and none for the
    others. *)
Theorem upsert_pass_adds_one_per_unmatched (app : Request.KubernetesDelete)
  (resources : list K8sObject) (opts : Config.KubernetesSyncOptions)
  (w w' : World) :
  sync app resources Sync.Upsert opts w = (w', Ok tt) ->
  List.length (files w')
  = List.length (files w)
    + List.length (filter (unmatched (parsed (files w))) resources).
Proof.
  intros H.
  destruct (first_pass_ok _ _ _ _ _ _ _ _ _ _ _ _ H) as (wa & Hp & -> & _).
  rewrite prepare_upserts in Hp.
  now rewrite (upsert_loop_count _ _ _ _ _ Hp).
Qed.

Lemma action_keeps_stranger (specs : list Sync.ProjectFileSpec)
  (opts : Config.KubernetesSyncOptions) (action : Sync.SyncAction)
  (f : ProjectFile) (r : K8sObject) (w w' : World) (res : Res unit) :
  (forall m, In m specs -> path (Sync.file m) <> path f) ->
  Sync.syncAction yamlSafeDump stableStringify encryptSecret action r
    (Sync.matchSpec r specs) opts w = (w', res) ->
  In f (files w) -> In f (files w').
Proof.
  intros Hs H Hin.
  assert (Hm : forall m, Sync.matchSpec r specs = Some m ->
                         path f <> path (Sync.file m)).
  { intros m E. apply find_some in E. destruct E as (E & _).
    intros Ef. now apply (Hs m E). }
  destruct action.
  - destruct (step_any specs opts r w w' res H)
      as [(m & E & _ & ->) | [(_ & _ & np & _ & ->) | (_ & _ & -> & _)]].
    + apply in_map_iff. exists f. split; [|exact Hin].
      apply overwrite_other. now apply Hm.
    + apply in_or_app. now left.
    + exact Hin.
  - unfold Sync.syncAction, Sync.resourceDeleted in H.
    destruct (Sync.matchSpec r specs) as [m|] eqn:E.
    + unfold deleteFile in H. injection H as <- <-. simpl.
      apply filter_In. split; [exact Hin|].
      apply negb_true_iff, String.eqb_neq. now apply Hm.
    + unfold ret in H. now injection H as <- <-.
Qed.

Lemma loop_keeps_stranger (specs : list Sync.ProjectFileSpec)
  (opts : Config.KubernetesSyncOptions) (action : Sync.SyncAction)
  (f : ProjectFile) (rs : list K8sObject) :
  (forall m, In m specs -> path (Sync.file m) <> path f) ->
  forall w w' res,
    changes rs action opts specs w = (w', res) ->
    In f (files w) -> In f (files w').
Proof.
  intros Hs. unfold Sync.applyChanges.
  induction rs as [|r rs IH]; intros w w' res.
  - now intros [= <- <-].
  - rewrite forEach_cons.
    destruct (Sync.syncAction _ _ _ action r _ opts w) as [w1 r1] eqn:E.
    intros H Hin.
    pose proof (action_keeps_stranger specs opts action f r w w1 r1 Hs E Hin)
      as Hin1.
    destruct r1 as [[]|e|].
    + exact (IH _ _ _ H Hin1).
    + now injection H as <- <-.
    + now injection H as <- <-.
Qed.

(** X6.  A pass, upsert or delete and whatever its outcome, leaves
    alone every file that the scan did not pair: in a project with one
    file per path, a file that does not match the glob, or that does
    not parse, is still there with its content when the pass ends. *)
Theorem pass_keeps_unscanned_files (app : Request.KubernetesDelete)
  (resources : list K8sObject) (action : Sync.SyncAction)
  (opts : Config.KubernetesSyncOptions) (f : ProjectFile)
  (w w' : World) (res : Res unit) :
  NoDup (map path (files w)) ->
  In f (files w) ->
  k8sSpecGlob (path f) = false \/ parses parseKubernetesSpecFile f = false ->
  sync app resources action opts w = (w', res) ->
  In f (files w').
Proof.
  intros Hnd Hin Hout.
  assert (Hs : forall m, In m (parsed (files w)) ->
                         path (Sync.file m) <> path f).
  { intros m Hm Ep. apply parsed_sound in Hm. destruct Hm as (Hm & Hg & Hp).
    assert (Sync.file m = f)
      by (apply (same_path_same_file (files w)); auto).
    subst f. unfold parses in Hout. rewrite Hg, Hp in Hout.
    destruct Hout; discriminate. }
  rewrite syncResources_stages.
  unfold bind at 1, changesApplied, bind at 1. rewrite scanProject_parsed.
  destruct (changes resources action opts (parsed (files w)) _)
    as [w1 r1] eqn:E.
  apply (loop_keeps_stranger _ opts action f resources Hs) in E;
    [|exact Hin].
  destruct r1 as [[]|e|].
  - intros H. apply commitAndPush_frame in H. destruct H as (-> & _). exact E.
  - now intros [= <- <-].
  - now intros [= <- <-].
Qed.

End Frame.

Section Wrapping.

Variable parseKubernetesSpecFile : ProjectFile -> Exn + K8sObject.
Variable k8sSpecGlob : string -> bool.
Variable yamlSafeDump : K8sObject -> string.
Variable stableStringify : K8sObject -> string.
Variable encryptSecret : K8sObject -> string -> K8sObject.
Variable commitTag : string.
Variable validSyncOptions : Config.KubernetesSyncOptions -> bool.

Local Abbreviation parsed := (parsedSpecs parseKubernetesSpecFile k8sSpecGlob).
Local Abbreviation prepare :=
  (changesApplied parseKubernetesSpecFile k8sSpecGlob yamlSafeDump
     stableStringify encryptSecret).
Local Abbreviation sync :=
  (Sync.syncResources parseKubernetesSpecFile k8sSpecGlob yamlSafeDump
     stableStringify encryptSecret commitTag).
Local Abbreviation syncApp :=
  (Sync.syncApplication parseKubernetesSpecFile k8sSpecGlob yamlSafeDump
     stableStringify encryptSecret commitTag validSyncOptions).

(** X7.  When the sync options are valid and there are resources, the
    project is loaded, and a commit that fails reaches the caller of
    [syncApplication] with both contexts in front of its message, the
    one of [syncApplication] first; the error is logged twice, nothing
    is committed or pushed, and the changes stay in the working copy. *)
Theorem syncApplication_wraps_commit_failure
  (syncOpts : Config.KubernetesSyncOptions) (syncRepo : RepoRef.RemoteRepoRef)
  (app : Request.KubernetesDelete) (resources : list K8sObject)
  (action : Sync.SyncAction) (w w1 : World) (e : Exn) :
  validSyncOptions syncOpts = true ->
  resources <> [] ->
  Config.repo syncOpts = Some syncRepo ->
  prepare resources action syncOpts (record ProjectLoaded w) = (w1, Ok tt) ->
  sameTree (files w1) (headTree w1) = false ->
  commitFault w1 = Some e ->
  exists w' e',
    syncApp syncOpts app resources action w = (w', Thrown e')
    /\ message e'
       = "Failed to perform sync resources from " ++ Request.ns app ++ "/"
           ++ Request.name app ++ " to sync repo " ++ RepoRef.owner syncRepo
           ++ "/" ++ RepoRef.repo syncRepo
           ++ ": Failed to commit and push resource changes to sync repo: "
           ++ message e
    /\ journal w'
       = LogError (message e')
           :: LogError
                ("Failed to commit and push resource changes to sync repo: "
                   ++ message e)
           :: journal w1
    /\ files w' = files w1
    /\ headTree w' = headTree w1.
Proof.
  intros Hvalid Hres Hrepo Hprep Hdirty Hfault.
  unfold Sync.syncApplication. rewrite Hvalid.
  destruct resources as [|r0 rs]; [congruence|].
  change (negb true) with false.
  change (Nat.ltb (List.length (r0 :: rs)) 1) with false.
  unfold tryCatch at 1, Sync.doWithProject. cbv beta iota.
  rewrite syncResources_stages. unfold bind at 1. rewrite Hprep.
  rewrite commitAndPush_cases, Hdirty.
  unfold tryCatch, bind at 1, commit. rewrite Hfault.
  unfold bind, logError, throw. rewrite Hrepo.
  eexists. eexists. split; [reflexivity|].
  rewrite !message_setMessage. unfold Sync.syncFailed, Sync.commitFailed,
    Request.appName.
  repeat split. now rewrite !append_assoc.
Qed.

(** X8.  An upsert pass stops at the first resource that has no kind
    and matches no file: the [TypeError] of the base name reaches the
    caller, the resources after it are not looked at, nothing is
    committed or pushed, and what the resources before it wrote stays
    in the working copy. *)
Theorem upsert_without_kind_aborts (app : Request.KubernetesDelete)
  (before after : list K8sObject) (r : K8sObject)
  (opts : Config.KubernetesSyncOptions) (w w1 : World) :
  kind r = None ->
  Sync.matchSpec r (parsed (files w)) = None ->
  prepare before Sync.Upsert opts w = (w1, Ok tt) ->
  exists m,
    sync app (before ++ r :: after) Sync.Upsert opts w
    = (w1, Thrown (TypeError m)).
Proof.
  intros Hkind Hnone Hprep.
  rewrite prepare_upserts in Hprep.
  eexists. rewrite syncResources_stages. unfold bind at 1.
  rewrite prepare_upserts, forEach_app, Hprep, forEach_cons.
  unfold upsertStep at 1. rewrite Hnone.
  unfold Sync.resourceUpserted, bind, Sync.uniqueSpecFile,
    Spec.kubernetesSpecFileBasename.
  rewrite Hkind. reflexivity.
Qed.

End Wrapping.

Lemma sameObject_respects (s s' o : K8sObject) :
  identifies s s' -> Sync.sameObject s o = Sync.sameObject s' o.
Proof.
  intros (Hk & Hn & Hns). unfold Sync.sameObject. now rewrite Hk, Hn, Hns.
Qed.

(** X9.  Two resources that are the same logical object, whatever
    else sets them apart, match the same pair of any list, or both
    match none. *)
Theorem matchSpec_respects_identity (s s' : K8sObject)
  (fileSpecs : list Sync.ProjectFileSpec) :
  identifies s s' ->
  Sync.matchSpec s fileSpecs = Sync.matchSpec s' fileSpecs.
Proof.
  intros H. unfold Sync.matchSpec.
  induction fileSpecs as [|x l IH]; simpl; [reflexivity|].
  rewrite (sameObject_respects s s' (Sync.spec x) H).
  destruct (Sync.sameObject s' (Sync.spec x)); [reflexivity | exact IH].
Qed.

(** X10.  A path that [uniqueSpecFile] returns starts with the base
    name of the resource and ends in ".json", so that a later upsert
    that matches the file writes JSON again; finding it changes no
    file, logs nothing, and uses up only the random values it drew. *)
Theorem uniqueSpecFile_json_path (resource : K8sObject) (w w' : World)
  (p : string) :
  Sync.uniqueSpecFile resource w = (w', Ok p) ->
  (exists specRoot,
     Spec.kubernetesSpecFileBasename resource = inr specRoot
     /\ startsWith specRoot p = true)
  /\ endsWith ".json" p
  /\ (forall m, path (Sync.file m) = p ->
                Sync.formatFor (Some m) = Spec.Json)
  /\ files w' = files w
  /\ headTree w' = headTree w
  /\ journal w' = journal w
  /\ exists drawn, guids w = (drawn ++ guids w')%list.
Proof.
  unfold Sync.uniqueSpecFile.
  destruct (Spec.kubernetesSpecFileBasename resource) as [e|root];
    [discriminate|].
  destruct (Sync.untilFree (files w) root (root ++ ".json") (guids w))
    as [[q|] rest] eqn:E; [|discriminate].
  intros [= <- <-].
  assert (Hq : (exists x, q = root ++ x ++ ".json")
               /\ exists drawn, guids w = (drawn ++ rest)%list).
  { destruct (untilFree_draws _ _ _ _ _ _ E)
      as [(_ & -> & ->) | (_ & before & g & -> & -> & _)].
    - split; [now exists "" | now exists []].
    - split.
      + exists ("_" ++ Sync.firstSegment "-" g). unfold Sync.suffixed.
        now rewrite append_assoc.
      + exists (before ++ [g])%list. now rewrite <- app_assoc. }
  destruct Hq as ((x & ->) & Hd).
  split; [exists root; split; [reflexivity | apply startsWith_append]|].
  split; [exists (root ++ x); now rewrite append_assoc|].
  split; [|now repeat split].
  intros m Hm. unfold Sync.formatFor.
  now rewrite Hm, <- append_assoc, yamlPath_json.
Qed.

(** ** The further properties on the sample working copies *)

Lemma scanProject_partitions_witness :
  exists specs warned,
    Sync.scanProjectIn Fixture.parseKubernetesSpecFile Fixture.k8sSpecGlob
      (@rev ProjectFile) brokenWorld
    = (logged warned brokenWorld, Ok specs)
    /\ map Sync.file specs
       = [{| path := "svc.json"; content := "v1,Service,tonina,black-angel" |}]
    /\ List.length specs + List.length warned = 2.
Proof.
  destruct (scanProject_partitions Fixture.parseKubernetesSpecFile
              Fixture.k8sSpecGlob (@rev ProjectFile) brokenWorld
              (fun l => Permutation_sym (Permutation_rev l)))
    as (specs & warned & E & _ & Hf & _ & _ & Hn).
  exists specs, warned. split; [exact E |]. split; [exact Hf | exact Hn].
Defined.

Lemma delete_pass_removes_matched_witness :
  exists specs,
    files
      (fst (Fixture.syncResourcesIn (@rev ProjectFile) Fixture.tonina
              [Fixture.toninaDeployment; toninaIngress] Sync.Delete
              Fixture.syncOptions pairWorld))
    = filter
        (fun f =>
           negb (inb (path f)
                   (deletedPaths [Fixture.toninaDeployment; toninaIngress]
                      specs)))
        (files pairWorld)
    /\ (forall x,
          In x specs <->
          In x (parsedSpecs Fixture.parseKubernetesSpecFile
                  Fixture.k8sSpecGlob (files pairWorld))).
Proof.
  destruct (delete_pass_removes_matched Fixture.parseKubernetesSpecFile
              Fixture.k8sSpecGlob Fixture.yamlSafeDump Fixture.stableStringify
              Fixture.encryptSecret Fixture.commitTag (@rev ProjectFile)
              Fixture.tonina
              [Fixture.toninaDeployment; toninaIngress] Fixture.syncOptions
              pairWorld
              (fst (Fixture.syncResourcesIn (@rev ProjectFile) Fixture.tonina
                      [Fixture.toninaDeployment; toninaIngress] Sync.Delete
                      Fixture.syncOptions pairWorld))
              (fun l => Permutation_sym (Permutation_rev l)) eq_refl)
    as (specs & Hs & H & _).
  exists specs. split; [exact H | exact Hs].
Defined.

Lemma delete_without_match_is_quiet_witness :
  exists w',
    Fixture.syncResources Fixture.tonina [toninaIngress] Sync.Delete
      Fixture.syncOptions pairWorld = (w', Ok tt)
    /\ files w' = files pairWorld.
Proof.
  destruct (delete_without_match_is_quiet Fixture.parseKubernetesSpecFile
              Fixture.k8sSpecGlob Fixture.yamlSafeDump Fixture.stableStringify
              Fixture.encryptSecret Fixture.commitTag Fixture.tonina
              [toninaIngress] Fixture.syncOptions pairWorld)
    as (w' & H & Hf & _).
  - intros r [<- | []]. reflexivity.
  - reflexivity.
  - exists w'. split; assumption.
Defined.

Lemma upsert_pass_keeps_paths_witness :
  exists extra,
    map path
      (files
         (fst (Fixture.syncResources Fixture.tonina
                 [toninaIngress; Fixture.toninaService] Sync.Upsert
                 Fixture.syncOptions pairWorld)))
    = (["dep.json"; "svc.yaml"; "README.md"] ++ extra)%list.
Proof.
  exact (upsert_pass_keeps_paths Fixture.parseKubernetesSpecFile
           Fixture.k8sSpecGlob Fixture.yamlSafeDump Fixture.stableStringify
           Fixture.encryptSecret Fixture.commitTag Fixture.tonina
           [toninaIngress; Fixture.toninaService] Fixture.syncOptions
           pairWorld _ _ (surjective_pairing _)).
Defined.

Lemma upsert_pass_adds_one_per_unmatched_witness :
  List.length
    (files
       (fst (Fixture.syncResources Fixture.tonina
               [toninaIngress; Fixture.toninaService] Sync.Upsert
               Fixture.syncOptions pairWorld)))
  = 3 + 1.
Proof.
  exact (upsert_pass_adds_one_per_unmatched Fixture.parseKubernetesSpecFile
           Fixture.k8sSpecGlob Fixture.yamlSafeDump Fixture.stableStringify
           Fixture.encryptSecret Fixture.commitTag Fixture.tonina
           [toninaIngress; Fixture.toninaService] Fixture.syncOptions
           pairWorld _ eq_refl).
Defined.

Lemma pass_keeps_unscanned_files_witness :
  In {| path := "README.md"; content := "specs" |}
     (files
        (fst (Fixture.syncResources Fixture.tonina
                [Fixture.toninaDeployment; toninaIngress] Sync.Delete
                Fixture.syncOptions pairWorld))).
Proof.
  apply (pass_keeps_unscanned_files Fixture.parseKubernetesSpecFile
           Fixture.k8sSpecGlob Fixture.yamlSafeDump Fixture.stableStringify
           Fixture.encryptSecret Fixture.commitTag Fixture.tonina
           [Fixture.toninaDeployment; toninaIngress] Sync.Delete
           Fixture.syncOptions {| path := "README.md"; content := "specs" |}
           pairWorld _ (snd (Fixture.syncResources Fixture.tonina
                [Fixture.toninaDeployment; toninaIngress] Sync.Delete
                Fixture.syncOptions pairWorld))).
  - apply distinctPaths_NoDup. reflexivity.
  - simpl. auto.
  - left. reflexivity.
  - apply surjective_pairing.
Defined.

Lemma syncApplication_wraps_commit_failure_witness :
  exists w' e',
    Fixture.syncApplication Fixture.syncOptions Fixture.tonina
      [toninaIngress] Sync.Upsert refusingWorld = (w', Thrown e')
    /\ message e'
       = "Failed to perform sync resources from black-angel/tonina to sync repo tonina/black-angel: Failed to commit and push resource changes to sync repo: index.lock exists".
Proof.
  assert (Hne : [toninaIngress] <> []) by discriminate.
  destruct (syncApplication_wraps_commit_failure
              Fixture.parseKubernetesSpecFile Fixture.k8sSpecGlob
              Fixture.yamlSafeDump Fixture.stableStringify
              Fixture.encryptSecret Fixture.commitTag Fixture.validSyncOptions
              Fixture.syncOptions
              {| RepoRef.owner := "tonina"; RepoRef.repo := "black-angel";
                 RepoRef.url := "https://github.com/tonina/black-angel" |}
              Fixture.tonina [toninaIngress] Sync.Upsert refusingWorld
              _ (Failure "index.lock exists")
              eq_refl Hne eq_refl eq_refl eq_refl eq_refl)
    as (w' & e' & H & Hm & _).
  exists w', e'. split; [exact H | exact Hm].
Defined.

Lemma upsert_without_kind_aborts_witness :
  exists w1 m,
    Fixture.syncResources Fixture.tonina
      ([Fixture.toninaService] ++ bareObject "v1" None (Some "x") None
         :: [toninaIngress])
      Sync.Upsert Fixture.syncOptions pairWorld
    = (w1, Thrown (TypeError m)).
Proof.
  eexists.
  apply (upsert_without_kind_aborts Fixture.parseKubernetesSpecFile
           Fixture.k8sSpecGlob Fixture.yamlSafeDump Fixture.stableStringify
           Fixture.encryptSecret Fixture.commitTag Fixture.tonina
           [Fixture.toninaService] [toninaIngress]
           (bareObject "v1" None (Some "x") None) Fixture.syncOptions
           pairWorld).
  - reflexivity.
  - reflexivity.
  - reflexivity.
Defined.

Lemma matchSpec_respects_identity_witness :
  Sync.matchSpec Fixture.toninaDeployment severalFileSpecs
  = Sync.matchSpec Fixture.toninaBetaDeployment severalFileSpecs.
Proof.
  apply matchSpec_respects_identity. repeat split.
Defined.

Lemma uniqueSpecFile_json_path_witness :
  endsWith ".json"
    (match Sync.uniqueSpecFile Fixture.toninaService crowdedWorld with
     | (_, Ok p) => p
     | _ => ""
     end).
Proof.
  apply (uniqueSpecFile_json_path Fixture.toninaService crowdedWorld
           _ _ eq_refl).
Defined.

(* ================================================================== *)
(** * Further properties of the file names and of the serialisation *)

Lemma orderPrefix_listed (k : option string) :
  In (Spec.orderPrefix k) orderPrefixes.
Proof.
  destruct k as [k|]; [|simpl; tauto].
  unfold Spec.orderPrefix, orderPrefixes.
  repeat match goal with
         | |- context [String.eqb k ?s] =>
             destruct (String.eqb k s); simpl; [tauto|]
         end.
  tauto.
Qed.

Lemma basename_split (r : K8sObject) (b : string) :
  Spec.kubernetesSpecFileBasename r = inr b ->
  exists rest, b = toLowerCase (Spec.orderPrefix (kind r) ++ "_" ++ rest).
Proof.
  unfold Spec.kubernetesSpecFileBasename.
  destruct (kind r) as [k|]; [|discriminate].
  intros [= <-]. eexists. reflexivity.
Qed.

(** X11.  Base names sort as the classes of their kinds do: when the
    ordering prefix of one resource comes before that of another, so
    does its base name in the order of strings, whatever the names and
    namespaces are. *)
Theorem basename_sorts_by_priority (r1 r2 : K8sObject) (b1 b2 : string) :
  Spec.kubernetesSpecFileBasename r1 = inr b1 ->
  Spec.kubernetesSpecFileBasename r2 = inr b2 ->
  String.ltb (Spec.orderPrefix (kind r1)) (Spec.orderPrefix (kind r2)) = true ->
  String.ltb b1 b2 = true.
Proof.
  intros H1 H2.
  destruct (basename_split r1 b1 H1) as (x1 & ->).
  destruct (basename_split r2 b2 H2) as (x2 & ->).
  pose proof (orderPrefix_listed (kind r1)) as P1.
  pose proof (orderPrefix_listed (kind r2)) as P2.
  revert P1 P2.
  generalize (Spec.orderPrefix (kind r1)) (Spec.orderPrefix (kind r2)).
  intros p1 p2 P1 P2. unfold orderPrefixes in P1, P2. simpl in P1, P2.
  repeat (destruct P1 as [<- | P1]; [|]);
    try contradiction;
    repeat (destruct P2 as [<- | P2]; [|]);
    try contradiction;
    intros L; try discriminate L; reflexivity.
Qed.

Lemma kubernetesSpecFileBasename_order_witness :
  String.ltb "10_black-angel_namespace"
    "70_black-angel_tonina_deployment" = true.
Proof.
  apply (basename_sorts_by_priority
           (bareObject "v1" (Some "Namespace") (Some "black-angel") None)
           Fixture.toninaDeployment); reflexivity.
Defined.


(** X12.  A base name holds no uppercase letter, whatever the case of
    the kind, the name and the namespace. *)
Theorem basename_has_no_uppercase (r : K8sObject) (b : string) :
  Spec.kubernetesSpecFileBasename r = inr b -> noUpper b = true.
Proof.
  intros H. destruct (basename_split r b H) as (x & ->).
  apply toLowerCase_noUpper.
Qed.

Lemma basename_has_no_uppercase_witness :
  noUpper "25_lovett_lyle_cluster-role" = true.
Proof.
  apply (basename_has_no_uppercase
           (bareObject "rbac.authorization.k8s.io/v1" (Some "ClusterRole")
              (Some "Lyle") (Some "Lovett"))).
  reflexivity.
Defined.

Lemma dropHyphens_hyphenate (s : string) :
  noHyphen s = true -> dropHyphens (Spec.hyphenateBoundaries s) = s.
Proof.
  induction s as [|a t IH]; [reflexivity|].
  cbn [noHyphen]. rewrite andb_true_iff, negb_true_iff. intros [Ha Ht].
  specialize (IH Ht).
  destruct t as [|b r].
  - simpl. now rewrite Ha.
  - change (Spec.hyphenateBoundaries (String a (String b r)))
      with (if isLower a && isUpper b
            then String a (String "-" (Spec.hyphenateBoundaries (String b r)))
            else String a (Spec.hyphenateBoundaries (String b r))).
    destruct (isLower a && isUpper b); cbn [dropHyphens]; rewrite Ha;
      [rewrite Ascii.eqb_refl|]; now rewrite IH.
Qed.

(** X13.  The hyphens that the conversion to kebab case puts into a
    kind are all it changes: taking the hyphens out of the result
    gives the kind back when the kind has none, so two such kinds with
    one kebab form are one kind. *)
Theorem replaceLowerUpper_round_trip (k k' : string) :
  noHyphen k = true ->
  dropHyphens (Spec.replaceLowerUpper k) = k
  /\ (noHyphen k' = true ->
      Spec.replaceLowerUpper k = Spec.replaceLowerUpper k' -> k = k').
Proof.
  intros Hk. rewrite replaceLowerUpper_hyphenates.
  split; [now apply dropHyphens_hyphenate|].
  intros Hk' E. rewrite !replaceLowerUpper_hyphenates in E.
  rewrite <- (dropHyphens_hyphenate k Hk), E.
  now apply dropHyphens_hyphenate.
Qed.

Lemma replaceLowerUpper_round_trip_witness :
  dropHyphens (Spec.replaceLowerUpper "HorizontalPodAutoscaler")
  = "HorizontalPodAutoscaler".
Proof.
  apply (replaceLowerUpper_round_trip "HorizontalPodAutoscaler" "").
  reflexivity.
Defined.

(** X14.  Only a Secret is encrypted, and only with a key that is a
    non-empty string: any other resource, and a Secret without such a
    key, is written as if no key had been given; a Secret with a key
    is written as its encrypted form is without one; and what is not
    written as YAML ends with a newline. *)
Theorem stringify_encrypts_only_secrets
  (yamlSafeDump stableStringify : K8sObject -> string)
  (encryptSecret : K8sObject -> string -> K8sObject)
  (spec : K8sObject) (options : Spec.KubernetesSpecStringifyOptions) :
  (kind spec <> Some "Secret" \/ Spec.secretKey options = None
   \/ Spec.secretKey options = Some "" ->
   Spec.kubernetesSpecStringify yamlSafeDump stableStringify encryptSecret
     spec options
   = Spec.kubernetesSpecStringify yamlSafeDump stableStringify encryptSecret
       spec
       {| Spec.format := Spec.format options; Spec.secretKey := None |})
  /\ (forall key,
        kind spec = Some "Secret" -> Spec.secretKey options = Some key ->
        key <> "" ->
        Spec.kubernetesSpecStringify yamlSafeDump stableStringify
          encryptSecret spec options
        = Spec.kubernetesSpecStringify yamlSafeDump stableStringify
            encryptSecret (encryptSecret spec key)
            {| Spec.format := Spec.format options; Spec.secretKey := None |})
  /\ (Spec.format options <> Some Spec.Yaml ->
      endsWith Spec.newline
        (Spec.kubernetesSpecStringify yamlSafeDump stableStringify
           encryptSecret spec options)).
Proof.
  unfold Spec.kubernetesSpecStringify. simpl.
  split; [|split].
  - intros [H | [H | H]].
    + destruct (strictEq (kind spec) (Some "Secret")) eqn:E;
        [|now rewrite andb_false_r].
      apply strictEq_eq in E. contradiction.
    + rewrite H. simpl. now rewrite !andb_false_r.
    + rewrite H. simpl. now rewrite !andb_false_r.
  - intros key Hk Hkey Hne. rewrite Hk, Hkey. simpl.
    apply String.eqb_neq in Hne. rewrite Hne. simpl.
    now rewrite andb_false_r.
  - intros Hf. destruct (Spec.format options) as [[]|];
      try congruence; eexists; reflexivity.
Qed.

Lemma stringify_encrypts_only_secrets_witness :
  Spec.kubernetesSpecStringify Fixture.yamlSafeDump Fixture.stableStringify
    (fun o key => withApiVersion key o) Fixture.toninaService
    {| Spec.format := Some Spec.Json; Spec.secretKey := Some "key" |}
  = Spec.kubernetesSpecStringify Fixture.yamlSafeDump Fixture.stableStringify
      (fun o key => withApiVersion key o) Fixture.toninaService
      {| Spec.format := Some Spec.Json; Spec.secretKey := None |}
  /\ Spec.kubernetesSpecStringify Fixture.yamlSafeDump Fixture.stableStringify
       (fun o key => withApiVersion key o) toninaSecret
       {| Spec.format := Some Spec.Json; Spec.secretKey := Some "key" |}
     = Spec.kubernetesSpecStringify Fixture.yamlSafeDump
         Fixture.stableStringify (fun o key => withApiVersion key o)
         (withApiVersion "key" toninaSecret)
         {| Spec.format := Some Spec.Json; Spec.secretKey := None |}.
Proof.
  split.
  - apply (proj1 (stringify_encrypts_only_secrets Fixture.yamlSafeDump
             Fixture.stableStringify (fun o key => withApiVersion key o)
             Fixture.toninaService
             {| Spec.format := Some Spec.Json;
                Spec.secretKey := Some "key" |})).
    left. discriminate.
  - apply (proj1 (proj2 (stringify_encrypts_only_secrets Fixture.yamlSafeDump
             Fixture.stableStringify (fun o key => withApiVersion key o)
             toninaSecret
             {| Spec.format := Some Spec.Json;
                Spec.secretKey := Some "key" |})) "key");
      [reflexivity | reflexivity | discriminate].
Defined.

(* ================================================================== *)
(** * Properties of the deletion of resources *)

Section DeleteProperties.

Variable Cluster : Type.
Variable Response : Type.
Variable isClusterResource : Api.K8sApiAction -> string -> bool.
Variable specUriPath : K8sObject -> Api.K8sApiAction -> Exn + string.
Variable labelSelector : Request.KubernetesDelete -> string.
Variable errMsg : Exn -> string.
Variable stringifyObject : K8sObject -> string.
Variable makeApiClient : Exn + unit.
Variable clientRead : K8sObject -> Cluster -> Cluster * (Exn + unit).
Variable clientDelete : K8sObject -> Cluster -> Cluster * (Exn + Response).
Variable logRetry :
  (Delete.St Cluster -> Delete.St Cluster * (Exn + Response)) -> string ->
  Delete.St Cluster -> Delete.St Cluster * (Exn + Response).
Variable arg : Delete.Arg.t Cluster.

Local Abbreviation deleteApp :=
  (Delete.deleteAppResources Cluster isClusterResource labelSelector errMsg).
Local Abbreviation clusterResource :=
  (isClusterResource Api.AList (Delete.Arg.kind arg)).
Local Abbreviation slug := (Request.appName (Delete.Arg.req arg)).
Local Abbreviation firstArgs :=
  (Delete.listArgs clusterResource (Request.ns (Delete.Arg.req arg))
     (labelSelector (Delete.Arg.req arg))).
Local Abbreviation each :=
  (Delete.deleteEach Cluster errMsg arg clusterResource slug).
Local Abbreviation deleteSpec :=
  (Delete.deleteSpec Cluster Response specUriPath errMsg stringifyObject
     makeApiClient clientRead clientDelete logRetry).

Local Abbreviation reportsDelete :=
  (Delete.reportsDelete (Delete.Arg.kind arg)).

Lemma deleteFailed_reports (r : K8sObject) (e : Exn) :
  reportsDelete
    (Delete.deleteFailed errMsg
       (Delete.resourceSlug clusterResource (Delete.Arg.kind arg) r) slug e).
Proof.
  unfold Delete.reportsDelete, Delete.deleteFailed.
  rewrite message_setMessage. unfold Delete.resourceSlug.
  destruct clusterResource.
  - set (rest := " for " ++ slug ++ ": " ++ errMsg e).
    assert (E : "Failed to delete "
                  ++ (Delete.Arg.kind arg ++ "/"
                        ++ interpolate (name (metadata r))) ++ rest
                = ("Failed to delete " ++ Delete.Arg.kind arg ++ "/")
                    ++ interpolate (name (metadata r)) ++ rest)
      by now rewrite !append_assoc.
    rewrite E. apply startsWith_append.
  - set (rest := " for " ++ slug ++ ": " ++ errMsg e).
    assert (E : "Failed to delete "
                  ++ (Delete.Arg.kind arg ++ "/"
                        ++ interpolate (namespace (metadata r)) ++ "/"
                        ++ interpolate (name (metadata r))) ++ rest
                = ("Failed to delete " ++ Delete.Arg.kind arg ++ "/")
                    ++ interpolate (namespace (metadata r)) ++ "/"
                    ++ interpolate (name (metadata r)) ++ rest)
      by now rewrite !append_assoc.
    rewrite E. apply startsWith_append.
Qed.

Lemma deleteEach_calls (toDelete : list K8sObject) :
  forall st deleted errs st' deleted' errs',
    each toDelete st deleted errs = (st', deleted', errs') ->
    Delete.deleterCalls (Delete.trace Cluster st')
    = (Delete.deleterCalls (Delete.trace Cluster st)
         ++ map (Delete.deleteArgs clusterResource) toDelete)%list
    /\ Delete.listerCalls (Delete.trace Cluster st')
       = Delete.listerCalls (Delete.trace Cluster st)
    /\ exists ok bad,
         deleted' = (deleted ++ ok)%list
         /\ errs' = (errs ++ bad)%list
         /\ Delete.failedDeletes (Delete.trace Cluster st')
            = Delete.failedDeletes (Delete.trace Cluster st)
              + List.length bad
         /\ (bad = [] -> ok = toDelete)
         /\ Forall reportsDelete bad.
Proof.
  induction toDelete as [|r rest IH]; intros st deleted errs st' deleted' errs'.
  - intros [= <- <- <-]. rewrite app_nil_r. split; [reflexivity|].
    split; [reflexivity|]. exists [], [].
    rewrite !app_nil_r, Nat.add_0_r. repeat split; auto.
  - cbn [Delete.deleteEach]. unfold Delete.callDeleter, Delete.note.
    cbn [Delete.cluster Delete.trace].
    destruct (Delete.Arg.deleter arg _ (Delete.cluster Cluster st))
      as [c [e|[]]] eqn:E; intros H; apply IH in H;
      cbn [Delete.trace Delete.deleterCalls Delete.listerCalls
             Delete.failedDeletes Delete.succeeded] in H;
      destruct H as (Hc & Hl & ok & bad & -> & -> & Hf & Hall & Hrep).
    + split; [now rewrite Hc, <- app_assoc|]. split; [exact Hl|].
      exists ok, (Delete.deleteFailed errMsg
                    (Delete.resourceSlug clusterResource
                       (Delete.Arg.kind arg) r) slug e :: bad).
      split; [reflexivity|]. split; [now rewrite <- app_assoc|].
      split; [rewrite Hf; simpl; lia|]. split; [discriminate|].
      constructor; [apply deleteFailed_reports | exact Hrep].
    + split; [now rewrite Hc, <- app_assoc|]. split; [exact Hl|].
      exists (r :: ok), bad.
      split; [now rewrite <- app_assoc|]. split; [reflexivity|].
      split; [exact Hf|]. split; [|exact Hrep].
      intros Hb. now rewrite (Hall Hb).
Qed.



(** X16.  [deleteAppResources] returns all or nothing: when it
    returns, no delete failed and the result is the whole list in
    order, with the kind filled in; when a delete failed it throws one
    error whose message joins, with semicolons, one report for each
    delete that failed. *)
Theorem deleteAppResources_all_or_error
  (st st' : Delete.St Cluster) (c1 : Cluster) (items : list K8sObject)
  (res : Exn + list K8sObject) :
  Delete.Arg.lister arg firstArgs (Delete.cluster Cluster st)
  = (c1, inr items) ->
  deleteApp arg st = (st', res) ->
  (forall deleted,
     res = inr deleted ->
     deleted = map (Delete.backfillKind (Delete.Arg.kind arg)) items
     /\ Delete.failedDeletes (Delete.trace Cluster st')
        = Delete.failedDeletes (Delete.trace Cluster st))
  /\ (forall e,
        res = inl e ->
        exists reports,
          reports <> []
          /\ e = Failure
                 ("Failed to delete " ++ Delete.Arg.kind arg
                    ++ " resources for " ++ slug ++ ": "
                    ++ String.concat "; " (map message reports))
          /\ Delete.failedDeletes (Delete.trace Cluster st')
             = Delete.failedDeletes (Delete.trace Cluster st)
               + List.length reports
          /\ Forall reportsDelete reports).
Proof.
  intros Hlist. unfold Delete.deleteAppResources, Delete.callLister.
  rewrite Hlist.
  destruct (each _ _ [] []) as [[st2 deleted] errs] eqn:E.
  apply deleteEach_calls in E. cbn [Delete.trace Delete.failedDeletes] in E.
  destruct E as (_ & _ & ok & bad & -> & -> & Hf & Hall & Hrep).
  simpl app. destruct bad as [|b bad].
  - intros [= <- <-]. split; [|discriminate].
    intros deleted [= <-]. split; [now apply Hall|].
    rewrite Hf. simpl. lia.
  - intros [= <- <-]. split; [discriminate|].
    intros e [= <-]. exists (b :: bad).
    split; [discriminate|]. split; [reflexivity|].
    split; [exact Hf | exact Hrep].
Qed.

(** X17.  When listing fails nothing is deleted: the error of the
    lister is thrown on with the kind and the application in its
    message, it is logged, and no deleter call is made. *)
Theorem deleteAppResources_list_failure
  (st : Delete.St Cluster) (c1 : Cluster) (e : Exn) :
  Delete.Arg.lister arg firstArgs (Delete.cluster Cluster st)
  = (c1, inl e) ->
  exists st' e',
    deleteApp arg st = (st', inl e')
    /\ message e'
       = "Failed to list " ++ Delete.Arg.kind arg ++ " for " ++ slug ++ ": "
           ++ errMsg e
    /\ Delete.cluster Cluster st' = c1
    /\ Delete.trace Cluster st'
       = Delete.Error (message e')
           :: Delete.ListerCalled firstArgs false :: Delete.trace Cluster st
    /\ Delete.deleterCalls (Delete.trace Cluster st')
       = Delete.deleterCalls (Delete.trace Cluster st).
Proof.
  intros Hlist. unfold Delete.deleteAppResources, Delete.callLister.
  rewrite Hlist. eexists. eexists. split; [reflexivity|].
  unfold Delete.listFailed. rewrite message_setMessage. repeat split.
Qed.

Lemma backfillKind_truthy (k : string) (r : K8sObject) :
  k <> "" -> truthy (kind (Delete.backfillKind k r)) = true.
Proof.
  intros Hk. unfold Delete.backfillKind. simpl.
  destruct (truthy (kind r)) eqn:E; [exact E|].
  simpl. apply String.eqb_neq in Hk. now rewrite Hk.
Qed.

(** X18.  Every resource that [deleteAppResources] returns keeps the
    kind it was listed with when it had one and gets the kind that was
    asked for otherwise, so that it has a kind whenever the kind asked
    for is not the empty string; its apiVersion, metadata and payload
    are those of the list. *)
Theorem deleteAppResources_returns_kinds
  (st st' : Delete.St Cluster) (c1 : Cluster)
  (items deleted : list K8sObject) :
  Delete.Arg.lister arg firstArgs (Delete.cluster Cluster st)
  = (c1, inr items) ->
  deleteApp arg st = (st', inr deleted) ->
  Forall2
    (fun listed r =>
       (truthy (kind listed) = true -> kind r = kind listed)
       /\ (truthy (kind listed) = false ->
           kind r = Some (Delete.Arg.kind arg))
       /\ (Delete.Arg.kind arg <> "" -> truthy (kind r) = true)
       /\ apiVersion r = apiVersion listed
       /\ metadata r = metadata listed
       /\ data r = data listed
       /\ payload r = payload listed)
    items deleted.
Proof.
  intros Hlist. unfold Delete.deleteAppResources, Delete.callLister.
  rewrite Hlist.
  destruct (each _ _ [] []) as [[st2 deleted'] errs] eqn:E.
  apply deleteEach_calls in E.
  destruct E as (_ & _ & ok & bad & -> & -> & _ & Hall & _).
  simpl app. destruct bad; [|discriminate].
  intros [= <- <-]. rewrite (Hall eq_refl).
  clear Hlist Hall.
  induction items as [|x l IH]; simpl; constructor; [|exact IH].
  split; [|split; [|split]].
  - unfold Delete.backfillKind. simpl. intros H. now rewrite H.
  - unfold Delete.backfillKind. simpl. intros H. now rewrite H.
  - intros Hk. now apply backfillKind_truthy.
  - repeat split.
Qed.

(** X19.  [deleteSpec] refuses a spec whose path cannot be built
    before it does anything, and it does not delete what it cannot
    read: when the read fails it returns nothing instead of throwing,
    the cluster is as the read left it, and the delete is not
    called. *)
Theorem deleteSpec_skips_what_it_cannot_read (spec : K8sObject)
  (st : Delete.St Cluster) :
  (forall e,
     specUriPath spec Api.ARead = inl e ->
     deleteSpec spec st = (st, inl e))
  /\ (forall path c1 e,
        specUriPath spec Api.ARead = inr path ->
        makeApiClient = inr tt ->
        clientRead spec (Delete.cluster Cluster st) = (c1, inl e) ->
        exists st',
          deleteSpec spec st = (st', inr None)
          /\ Delete.cluster Cluster st' = c1
          /\ Delete.deleteCalls (Delete.trace Cluster st')
             = Delete.deleteCalls (Delete.trace Cluster st)).
Proof.
  unfold Delete.deleteSpec. split.
  - intros e ->. reflexivity.
  - intros path c1 e -> -> Hread. unfold Delete.callRead. rewrite Hread.
    eexists. split; [reflexivity|]. split; reflexivity.
Qed.

End DeleteProperties.


Lemma deleteAppResources_all_or_error_witness :
  (exists deleted,
     snd (Delete.sampleDelete (Delete.sampleState ["a"; "b"])) = inr deleted
     /\ deleted
        = map (Delete.backfillKind "Service")
            [ bareObject "v1" None (Some "a") (Some "rihanna");
              bareObject "v1" None (Some "b") (Some "rihanna") ])
  /\ exists reports,
       reports <> []
       /\ snd (Delete.sampleDelete
                 (Delete.sampleState ["a"; "protected"; "b"]))
          = inl (Failure
                   ("Failed to delete Service resources for rihanna/good-girl-gone-bad: "
                      ++ String.concat "; " (map message reports))).
Proof.
  split.
  - destruct (deleteAppResources_all_or_error (list string)
                Api.isClusterResource
                (fun r => "app.kubernetes.io/name=" ++ Request.name r) message
                Delete.sampleArg (Delete.sampleState ["a"; "b"])
                _ _ _ _ eq_refl (surjective_pairing _))
      as (Hok & _).
    eexists. split; [reflexivity|].
    exact (proj1 (Hok _ eq_refl)).
  - destruct (deleteAppResources_all_or_error (list string)
                Api.isClusterResource
                (fun r => "app.kubernetes.io/name=" ++ Request.name r) message
                Delete.sampleArg
                (Delete.sampleState ["a"; "protected"; "b"])
                _ _ _ _ eq_refl (surjective_pairing _))
      as (_ & Hbad).
    destruct (Hbad _ eq_refl) as (reports & Hne & E & _).
    exists reports. split; [exact Hne|].
    unfold Delete.sampleDelete. exact (f_equal inl E).
Defined.

Lemma deleteAppResources_list_failure_witness :
  exists st' e',
    Delete.deleteAppResources (list string) Api.isClusterResource
      (fun r => "app.kubernetes.io/name=" ++ Request.name r) message
      {| Delete.Arg.kind := "Service";
         Delete.Arg.req := Delete.Arg.req Delete.sampleArg;
         Delete.Arg.lister := fun _ c => (c, inl (Failure "timeout"));
         Delete.Arg.deleter := Delete.sampleDeleter |}
      (Delete.sampleState ["a"]) = (st', inl e')
    /\ message e'
       = "Failed to list Service for rihanna/good-girl-gone-bad: timeout".
Proof.
  destruct (deleteAppResources_list_failure (list string)
              Api.isClusterResource
              (fun r => "app.kubernetes.io/name=" ++ Request.name r) message
              {| Delete.Arg.kind := "Service";
                 Delete.Arg.req := Delete.Arg.req Delete.sampleArg;
                 Delete.Arg.lister := fun _ c => (c, inl (Failure "timeout"));
                 Delete.Arg.deleter := Delete.sampleDeleter |}
              (Delete.sampleState ["a"]) ["a"] (Failure "timeout") eq_refl)
    as (st' & e' & H & Hm & _).
  exists st', e'. split; [exact H | exact Hm].
Defined.

Lemma deleteAppResources_returns_kinds_witness :
  exists deleted,
    snd (Delete.sampleDelete (Delete.sampleState ["a"; "b"])) = inr deleted
    /\ Forall (fun r => kind r = Some "Service") deleted.
Proof.
  eexists. split; [reflexivity|].
  pose proof (deleteAppResources_returns_kinds (list string)
                Api.isClusterResource
                (fun r => "app.kubernetes.io/name=" ++ Request.name r) message
                Delete.sampleArg (Delete.sampleState ["a"; "b"])
                _ _ _ _ eq_refl eq_refl) as H.
  inversion H as [|x1 r1 l1 d1 (_ & H1 & _) H']; subst.
  inversion H' as [|x2 r2 l2 d2 (_ & H2 & _) H'']; subst.
  inversion H''; subst.
  constructor; [exact (H1 eq_refl)|].
  constructor; [exact (H2 eq_refl) | constructor].
Defined.

Lemma deleteSpec_skips_what_it_cannot_read_witness :
  (exists e,
     Delete.sampleDeleteSpec (bareObject "v1" None (Some "a") None)
       (Delete.sampleState ["a"])
     = (Delete.sampleState ["a"], inl e))
  /\ exists st',
       Delete.sampleDeleteSpec
         (bareObject "v1" (Some "Service") (Some "gone") (Some "rihanna"))
         (Delete.sampleState ["a"])
       = (st', inr None)
       /\ Delete.cluster _ st' = ["a"].
Proof.
  destruct (deleteSpec_skips_what_it_cannot_read (list string) unit
              (Api.specUriPath (fun _ => "{}")) message (fun _ => "{}")
              (inr tt) Delete.sampleRead Delete.sampleClientDelete
              (fun f _ st => f st)
              (bareObject "v1" None (Some "a") None)
              (Delete.sampleState ["a"]))
    as (Hpath & _).
  destruct (deleteSpec_skips_what_it_cannot_read (list string) unit
              (Api.specUriPath (fun _ => "{}")) message (fun _ => "{}")
              (inr tt) Delete.sampleRead Delete.sampleClientDelete
              (fun f _ st => f st)
              (bareObject "v1" (Some "Service") (Some "gone")
                 (Some "rihanna"))
              (Delete.sampleState ["a"]))
    as (_ & Hread).
  split.
  - eexists. exact (Hpath _ eq_refl).
  - destruct (Hread _ _ _ eq_refl eq_refl eq_refl) as (st' & H & Hc & _).
    exists st'. split; [exact H | exact Hc].
Defined.

(* ================================================================== *)
(** * Properties of the deploy event handler *)

Section DeployProperties.

Variable World : Type.
Variable fulfill :
  Deploy.Goal.t -> World -> World * (Exn + Deploy.Result.t).
Variable updateGoal :
  Deploy.Goal.t -> Deploy.Params.t -> World -> World * (Exn + unit).
Variable stringify : Deploy.Params.t -> string.

Local Abbreviation handleGoal :=
  (Deploy.handleGoal World fulfill updateGoal stringify).
Local Abbreviation failGoal :=
  (Deploy.failGoal World updateGoal stringify).
Local Abbreviation updates := (Deploy.updates World).
Local Abbreviation progress := (Deploy.progress World).
Local Abbreviation world := (Deploy.world World).

Lemma failGoal_cases (g : Deploy.Goal.t) (msg : string)
  (st : Deploy.St World) :
  updates (fst (failGoal g msg st))
    = Deploy.failureParams msg :: updates st
  /\ ((snd (updateGoal g (Deploy.failureParams msg) (world st)) = inr tt
       /\ Deploy.Result.code (snd (failGoal g msg st)) = Some 1%Z
       /\ Deploy.Result.message (snd (failGoal g msg st)) = Some msg
       /\ progress (fst (failGoal g msg st)) = msg :: progress st)
      \/ (exists e rest,
            snd (updateGoal g (Deploy.failureParams msg) (world st)) = inl e
            /\ Deploy.Result.code (snd (failGoal g msg st)) = Some 2%Z
            /\ Deploy.Result.message (snd (failGoal g msg st))
                 = Some (msg ++ "; " ++ rest ++ message e)
            /\ progress (fst (failGoal g msg st))
                 = (rest ++ message e) :: msg :: progress st)).
Proof.
  unfold Deploy.failGoal, Deploy.callUpdate, Deploy.write.
  change ({| Deploy.Params.state := Deploy.failure;
             Deploy.Params.description := Some msg;
             Deploy.Params.error := Some msg;
             Deploy.Params.externalUrls := None |})
    with (Deploy.failureParams msg).
  cbn [Deploy.world Deploy.progress Deploy.updates].
  destruct (updateGoal g (Deploy.failureParams msg) (Deploy.world World st))
    as [w [e | []]]; cbn.
  - split; [reflexivity |]. right.
    exists e.
    exists ("Failed to update SDM goal '" ++ Deploy.goalEventString g
              ++ "' with params '"
              ++ stringify (Deploy.failureParams msg) ++ "': ").
    assert (E : ("Failed to update SDM goal '" ++ Deploy.goalEventString g
                   ++ "' with params '"
                   ++ stringify (Deploy.failureParams msg) ++ "': ")
                  ++ message e
                = "Failed to update SDM goal '" ++ Deploy.goalEventString g
                    ++ "' with params '"
                    ++ stringify (Deploy.failureParams msg) ++ "': "
                    ++ message e).
    { now rewrite !append_assoc. }
    rewrite E. repeat split; reflexivity.
  - split; [reflexivity |]. left. repeat split; reflexivity.
Qed.

(** X20. Whatever fulfilling and updating the goal do, the handler asks
    for exactly one update of the goal, the result that it returns has a
    code, and the state that it asked to record is a failure exactly
    when that code is not zero. *)
Theorem handleGoal_state_agrees_with_code (g : Deploy.Goal.t)
  (st : Deploy.St World) :
  exists p,
    updates (fst (handleGoal g st)) = p :: updates st
    /\ Deploy.Result.code (snd (handleGoal g st))
         = Some (Deploy.codeOf (snd (handleGoal g st)))
    /\ (Deploy.Params.state p = Deploy.failure
        <-> Deploy.codeOf (snd (handleGoal g st)) <> 0%Z).
Proof.
  unfold Deploy.handleGoal, Deploy.callFulfill.
  destruct (fulfill g (Deploy.world World st)) as [w1 [e | result]].
  - cbn [Deploy.world Deploy.progress Deploy.updates].
    set (st1 := {| Deploy.world := w1;
                   Deploy.progress := Deploy.progress World st;
                   Deploy.updates := Deploy.updates World st |}).
    destruct (failGoal_cases g (message e) st1) as [Hu Hc].
    exists (Deploy.failureParams (message e)).
    split; [exact Hu |].
    unfold Deploy.codeOf.
    destruct Hc as [(_ & Hc & _) | (e2 & rest & _ & Hc & _)];
      rewrite Hc; (split; [reflexivity |]);
      (split; [intros _; discriminate | reflexivity]).
  - unfold Deploy.callUpdate, Deploy.write.
    cbn [Deploy.world Deploy.progress Deploy.updates].
    match goal with
    | |- context [updateGoal g ?q w1] =>
        set (p := q); destruct (updateGoal g p w1) as [w2 [e | []]]
    end;
      exists p; cbn [fst snd Deploy.updates];
      (split; [reflexivity |]);
      unfold Deploy.codeOf, Deploy.withMessage, Deploy.withCode, p;
      cbn [Deploy.Result.code Deploy.Params.state];
      destruct (Deploy.Result.code result) as [z |] eqn:Ez;
      cbn [Deploy.truthyCode];
      try (destruct (Z.eqb_spec z 0) as [-> | Hz]);
      cbn [negb Deploy.Result.code]; try rewrite Ez;
      (split; [reflexivity |]);
      (split; [intros H; try discriminate; try assumption
              | intros H; try reflexivity; try (now elim H)]).
Qed.

(** X21. When fulfilling the goal throws, the handler writes the message
    of the exception to the progress log and asks to record a failure
    described by it. The code is 1 and the message is that of the
    exception when the update works; when the update throws too the
    code is 2, and the message and the progress log also tell of the
    failed update, ending in its message. *)
Theorem handleGoal_failed_fulfilment (g : Deploy.Goal.t)
  (st : Deploy.St World) (w1 : World) (e : Exn) :
  fulfill g (world st) = (w1, inl e) ->
  updates (fst (handleGoal g st))
    = Deploy.failureParams (message e) :: updates st
  /\ ((snd (updateGoal g (Deploy.failureParams (message e)) w1) = inr tt
       /\ Deploy.Result.code (snd (handleGoal g st)) = Some 1%Z
       /\ Deploy.Result.message (snd (handleGoal g st)) = Some (message e)
       /\ progress (fst (handleGoal g st)) = message e :: progress st)
      \/ (exists e2 rest,
            snd (updateGoal g (Deploy.failureParams (message e)) w1)
              = inl e2
            /\ Deploy.Result.code (snd (handleGoal g st)) = Some 2%Z
            /\ Deploy.Result.message (snd (handleGoal g st))
                 = Some (message e ++ "; " ++ rest ++ message e2)
            /\ progress (fst (handleGoal g st))
                 = (rest ++ message e2) :: message e :: progress st)).
Proof.
  intros Hf. unfold Deploy.handleGoal, Deploy.callFulfill. rewrite Hf.
  exact (failGoal_cases g (message e)
           {| Deploy.world := w1;
              Deploy.progress := Deploy.progress World st;
              Deploy.updates := Deploy.updates World st |}).
Qed.

(** X22. Once fulfilling the goal has returned a result, a failure to
    update the goal does not change the outcome: the code returned is
    the code of the result, or zero when it has none, and its
    description and links are those of the result, whether the update
    works or throws. *)
Theorem handleGoal_code_after_fulfilment (g : Deploy.Goal.t)
  (st : Deploy.St World) (w1 : World) (result : Deploy.Result.t) :
  fulfill g (world st) = (w1, inr result) ->
  Deploy.Result.code (snd (handleGoal g st))
    = Some (Deploy.codeOf result)
  /\ Deploy.Result.description (snd (handleGoal g st))
       = Deploy.Result.description result
  /\ Deploy.Result.externalUrls (snd (handleGoal g st))
       = Deploy.Result.externalUrls result.
Proof.
  intros Hf. unfold Deploy.handleGoal, Deploy.callFulfill. rewrite Hf.
  unfold Deploy.callUpdate, Deploy.write.
  cbn [Deploy.world Deploy.progress Deploy.updates].
  match goal with
  | |- context [updateGoal g ?q w1] =>
      destruct (updateGoal g q w1) as [w2 [e | []]]
  end;
    unfold Deploy.codeOf, Deploy.withMessage;
    cbn [snd Deploy.Result.code];
    destruct (Deploy.Result.code result) as [z |] eqn:Ez;
    cbn [Deploy.truthyCode];
    try (destruct (Z.eqb_spec z 0) as [-> | Hz]);
    cbn [negb Deploy.withCode Deploy.Result.code Deploy.Result.description
         Deploy.Result.externalUrls];
    try rewrite Ez; repeat split; reflexivity.
Qed.

End DeployProperties.

Lemma handleGoal_failed_fulfilment_witness :
  Deploy.updates nat (fst (Deploy.sampleHandle Deploy.brokenGoal
                             Deploy.sampleStart))
    = [Deploy.failureParams "image not found"].
Proof.
  exact (proj1 (handleGoal_failed_fulfilment nat Deploy.sampleFulfill
                  Deploy.sampleUpdate (fun _ => "{}") Deploy.brokenGoal
                  Deploy.sampleStart 0 (Failure "image not found")
                  eq_refl)).
Defined.

Lemma handleGoal_code_after_fulfilment_witness :
  Deploy.Result.code (snd (Deploy.sampleHandle Deploy.deployGoal
                             Deploy.sampleStart))
    = Some 0%Z.
Proof.
  exact (proj1 (handleGoal_code_after_fulfilment nat Deploy.sampleFulfill
                  Deploy.sampleUpdate (fun _ => "{}") Deploy.deployGoal
                  Deploy.sampleStart 1 _ eq_refl)).
Defined.

(* ================================================================== *)
(** * Properties of the extension pack *)

Lemma startsWith_weaken (n a b : string) :
  startsWith n a = true -> startsWith n (a ++ b) = true.
Proof.
  revert a. induction n as [| c n IH]; intros a H.
  - destruct (a ++ b); reflexivity.
  - destruct a as [| d a]; [discriminate |].
    cbn in *. destruct (Ascii.eqb c d); [now apply IH | discriminate].
Qed.

Lemma includes_append_l (n a b : string) :
  includes n a = true -> includes n (a ++ b) = true.
Proof.
  induction a as [| d a IH]; intros H.
  - cbn in H. rewrite orb_false_r in H.
    destruct n; [| discriminate].
    destruct (EmptyString ++ b); reflexivity.
  - cbn [includes] in H. apply orb_true_iff in H.
    change (String d a ++ b) with (String d (a ++ b)).
    cbn [includes]. apply orb_true_iff.
    destruct H as [H | H].
    + left. apply (startsWith_weaken _ (String d a) b H).
    + right. now apply IH.
Qed.

Lemma includes_append_r (n a b : string) :
  includes n b = true -> includes n (a ++ b) = true.
Proof.
  intros H. induction a as [| d a IH]; [exact H |].
  change (String d a ++ b) with (String d (a ++ b)).
  cbn [includes]. rewrite IH. apply orb_true_r.
Qed.

Lemma includes_concat (sep c : string) (l : list string) :
  In c l -> includes c (String.concat sep l) = true.
Proof.
  induction l as [| x l IH]; intros H; [destruct H |].
  destruct l as [| y l].
  - destruct H as [-> | []]. cbn.
    rewrite <- (append_empty_r c) at 2. apply includes_at_front.
  - change (String.concat sep (x :: y :: l))
      with (x ++ sep ++ String.concat sep (y :: l)).
    destruct H as [-> | H].
    + apply includes_at_front.
    + apply includes_append_r, includes_append_r, IH, H.
Qed.

Section K8Properties.

Variable loadKubeConfig : Exn + K8.KubeConfig.t.
Variable getKubeConfig : option string -> Exn + unit.

Local Abbreviation configure := (K8.configure loadKubeConfig getKubeConfig).

(** How [configure] ends: outside local mode with the registrations
    only; in local mode with the error of loading the kube config, with
    the error of reading its clusters, with the context set, or with
    the refusal of the validation. *)
Lemma configure_cases (options : K8.Options.t) (mode : bool)
  (sdm : K8.Sdm) :
  let sdm2 :=
    match K8.Options.addCommands options with
    | Some true =>
        K8.addCommand "kubeUndeploy" (K8.addEvent "kubernetesDeploy" sdm)
    | _ => K8.addEvent "kubernetesDeploy" sdm
    end in
  (mode = false /\ configure options mode sdm = inr sdm2)
  \/ (mode = true
      /\ exists e, loadKubeConfig = inl e
                   /\ configure options mode sdm = inl e)
  \/ (mode = true
      /\ exists kc e, loadKubeConfig = inr kc /\ K8.clusters kc = inl e
                      /\ configure options mode sdm = inl e)
  \/ (mode = true
      /\ exists kc contexts,
           loadKubeConfig = inr kc /\ K8.clusters kc = inr contexts
           /\ let c := K8.assignedContext kc contexts sdm options in
              (getKubeConfig c = inr tt
               /\ configure options mode sdm
                  = inr (if strictEq c (Some "minikube")
                         then K8.addStartupListener "minikubeStartupListener"
                                (K8.setContext c sdm2)
                         else K8.setContext c sdm2))
              \/ ((exists e, getKubeConfig c = inl e)
                  /\ configure options mode sdm
                     = inl (Failure (K8.contextFailed contexts c)))).
Proof.
  intros sdm2. unfold K8.configure, K8.configureContext.
  fold sdm2.
  destruct mode; [| left; split; reflexivity].
  right.
  destruct loadKubeConfig as [e | kc].
  { left. split; [reflexivity |]. exists e. split; reflexivity. }
  right.
  destruct (K8.clusters kc) as [e | contexts] eqn:Ec.
  { left. split; [reflexivity |]. exists kc, e. repeat split. exact Ec. }
  right. split; [reflexivity |]. exists kc, contexts.
  split; [reflexivity |]. split; [exact Ec |].
  assert (Es : K8.assignedContext kc contexts sdm2 options
               = K8.assignedContext kc contexts sdm options).
  { unfold sdm2, K8.assignedContext.
    destruct (K8.Options.addCommands options) as [[|] |]; reflexivity. }
  rewrite Es. cbv zeta.
  destruct (getKubeConfig (K8.assignedContext kc contexts sdm options))
    as [e | []].
  - right. split; [now exists e | reflexivity].
  - left. split; [reflexivity |].
    destruct (strictEq (K8.assignedContext kc contexts sdm options)
                (Some "minikube")); reflexivity.
Qed.

(** X23. After the pack has configured a machine in local mode, the
    kube config was loaded and the context of the machine is one that
    the validation accepted. It is the context of the options when
    they name one; without one, a machine that had a context
    configured is left with none, and a machine that had none gets
    minikube when a context of the kube config uses that cluster and
    the current context otherwise. *)
Theorem configure_local_context (options : K8.Options.t)
  (sdm sdm' : K8.Sdm) :
  configure options true sdm = inr sdm' ->
  exists kubeConfig contexts,
    loadKubeConfig = inr kubeConfig
    /\ K8.clusters kubeConfig = inr contexts
    /\ getKubeConfig (K8.k8Context sdm') = inr tt
    /\ (truthy (K8.Options.context options) = true ->
        K8.k8Context sdm' = K8.Options.context options)
    /\ (truthy (K8.Options.context options) = false ->
        truthy (K8.k8Context sdm) = true ->
        K8.k8Context sdm' = None)
    /\ (truthy (K8.Options.context options) = false ->
        truthy (K8.k8Context sdm) = false ->
        K8.k8Context sdm'
          = if K8.includesCluster "minikube" contexts
            then Some "minikube"
            else K8.KubeConfig.currentContext kubeConfig).
Proof.
  intros H.
  destruct (configure_cases options true sdm)
    as [(F & _) | [(_ & e & _ & E) | [(_ & kc & e & _ & _ & E)
        | (_ & kc & contexts & Hl & Hc & [(Hok & E) | (_ & E)])]]];
    try discriminate; try (rewrite E in H; discriminate).
  rewrite E in H. exists kc, contexts.
  split; [exact Hl |]. split; [exact Hc |].
  assert (Hk : K8.k8Context sdm'
               = K8.assignedContext kc contexts sdm options).
  { destruct (strictEq (K8.assignedContext kc contexts sdm options)
                (Some "minikube"));
      injection H as <-; reflexivity. }
  rewrite Hk. split; [exact Hok |].
  unfold K8.assignedContext.
  repeat split; intros Ho; try intros Hs; rewrite Ho; try rewrite Hs;
    reflexivity.
Qed.

(** X24. Whenever the pack configures a machine without failing, it has
    registered the deploy event, the undeploy command exactly when the
    options ask for commands, and the minikube startup listener exactly
    when the machine is in local mode and its context has become
    minikube. Outside local mode it never fails and leaves the context
    of the machine as it was. *)
Theorem configure_registrations (options : K8.Options.t) (mode : bool)
  (sdm sdm' : K8.Sdm) :
  configure options mode sdm = inr sdm' ->
  K8.events sdm' = "kubernetesDeploy" :: K8.events sdm
  /\ K8.commands sdm'
       = match K8.Options.addCommands options with
         | Some true => "kubeUndeploy" :: K8.commands sdm
         | _ => K8.commands sdm
         end
  /\ K8.startupListeners sdm'
       = (if mode && strictEq (K8.k8Context sdm') (Some "minikube")
          then "minikubeStartupListener" :: K8.startupListeners sdm
          else K8.startupListeners sdm)
  /\ (mode = false -> K8.k8Context sdm' = K8.k8Context sdm)
  /\ (forall s, exists s', configure options false s = inr s').
Proof.
  intros H.
  assert (Hlast : forall s, exists s', configure options false s = inr s').
  { intros s.
    destruct (configure_cases options false s)
      as [(_ & E) | [(F & _) | [(F & _) | (F & _)]]]; try discriminate.
    eexists. exact E. }
  destruct (configure_cases options mode sdm)
    as [(-> & E) | [(_ & e & _ & E) | [(_ & kc & e & _ & _ & E)
        | (-> & kc & contexts & Hl & Hc & [(Hok & E) | (_ & E)])]]];
    rewrite E in H; try discriminate.
  - injection H as <-.
    destruct (K8.Options.addCommands options) as [[|] |];
      repeat split; try reflexivity; exact Hlast.
  - destruct (strictEq (K8.assignedContext kc contexts sdm options)
                (Some "minikube"))
      eqn:Em; injection H as <-;
      destruct (K8.Options.addCommands options) as [[|] |];
      cbn; rewrite Em;
      repeat split; try reflexivity; try discriminate; exact Hlast.
Qed.

Lemma includes_joined (c : string) (contexts : list (option string)) :
  In (Some c) contexts ->
  includes c (String.concat ", " (map K8.joinable contexts)) = true.
Proof.
  intros H. apply includes_concat.
  change c with (K8.joinable (Some c)). now apply in_map.
Qed.

(** X25. The pack fails to configure a machine in local mode only, and
    in one of three ways. The error of loading the kube config, or of
    reading the cluster of one of its contexts, reaches the caller as
    it is. Otherwise the validation has refused the context that was
    assigned, and the message of the error says so, names that context
    and lists the cluster of every context of the kube config. *)
Theorem configure_failure_lists_contexts (options : K8.Options.t)
  (mode : bool) (sdm : K8.Sdm) (e : Exn) :
  configure options mode sdm = inl e ->
  mode = true
  /\ (loadKubeConfig = inl e
      \/ (exists kubeConfig,
            loadKubeConfig = inr kubeConfig
            /\ K8.clusters kubeConfig = inl e)
      \/ (exists kubeConfig contexts,
            loadKubeConfig = inr kubeConfig
            /\ K8.clusters kubeConfig = inr contexts
            /\ (exists e',
                  getKubeConfig
                    (K8.assignedContext kubeConfig contexts sdm options)
                  = inl e')
            /\ startsWith
                 ("Failed to load Kubernetes cluster context '"
                    ++ interpolate
                         (K8.assignedContext kubeConfig contexts sdm options)
                    ++ "'")
                 (message e) = true
            /\ (forall c, In (Some c) contexts ->
                  includes c (message e) = true))).
Proof.
  intros H.
  destruct (configure_cases options mode sdm)
    as [(_ & E) | [(-> & e1 & Hl & E) | [(-> & kc & e1 & Hl & Hc & E)
        | (-> & kc & contexts & Hl & Hc & [(_ & E) | (Hbad & E)])]]];
    rewrite E in H; try discriminate.
  - injection H as <-. split; [reflexivity |]. left. exact Hl.
  - injection H as <-. split; [reflexivity |]. right. left.
    exists kc. split; assumption.
  - injection H as <-. split; [reflexivity |]. right. right.
    exists kc, contexts. split; [exact Hl |]. split; [exact Hc |].
    split; [exact Hbad |].
    cbn [message]. unfold K8.contextFailed. split.
    + set (c := interpolate (K8.assignedContext kc contexts sdm options)).
      set (tail := String.concat ", " (map K8.joinable contexts)).
      assert (E' : "Failed to load Kubernetes cluster context '" ++ c
                     ++ "'. Available contexts are: " ++ tail
                   = ("Failed to load Kubernetes cluster context '" ++ c
                        ++ "'")
                       ++ ". Available contexts are: " ++ tail).
      { rewrite !append_assoc. reflexivity. }
      rewrite E'. apply startsWith_append.
    + intros c Hin.
      apply includes_append_r, includes_append_r, includes_append_r.
      apply includes_joined, Hin.
Qed.

End K8Properties.

Lemma configure_local_context_witness :
  K8.k8Context
    (K8.addStartupListener "minikubeStartupListener"
       (K8.setContext (Some "minikube")
          (K8.addEvent "kubernetesDeploy" (K8.blankSdm None))))
    = Some "minikube".
Proof.
  destruct (configure_local_context (inr K8.sampleKubeConfig)
              K8.sampleGetKubeConfig (K8.withContext None)
              (K8.blankSdm None)
              (K8.addStartupListener "minikubeStartupListener"
                 (K8.setContext (Some "minikube")
                    (K8.addEvent "kubernetesDeploy" (K8.blankSdm None))))
              eq_refl)
    as (kc & contexts & Hl & Hc & _ & _ & _ & H).
  injection Hl as <-. cbv in Hc. injection Hc as <-.
  exact (H eq_refl eq_refl).
Defined.

Lemma configure_registrations_witness :
  K8.events
    (K8.addStartupListener "minikubeStartupListener"
       (K8.setContext (Some "minikube")
          (K8.addEvent "kubernetesDeploy" (K8.blankSdm None))))
    = ["kubernetesDeploy"].
Proof.
  exact (proj1 (configure_registrations (inr K8.sampleKubeConfig)
                  K8.sampleGetKubeConfig (K8.withContext None) true
                  (K8.blankSdm None)
                  (K8.addStartupListener "minikubeStartupListener"
                     (K8.setContext (Some "minikube")
                        (K8.addEvent "kubernetesDeploy"
                           (K8.blankSdm None))))
                  eq_refl)).
Defined.

Lemma configure_failure_lists_contexts_witness :
  includes "gke-prod"
    ("Failed to load Kubernetes cluster context 'staging'. "
       ++ "Available contexts are: gke-prod, minikube") = true.
Proof.
  destruct (configure_failure_lists_contexts (inr K8.sampleKubeConfig)
              K8.sampleGetKubeConfig (K8.withContext (Some "staging"))
              true (K8.blankSdm None)
              (Failure
                 ("Failed to load Kubernetes cluster context 'staging'. "
                    ++ "Available contexts are: gke-prod, minikube"))
              eq_refl)
    as (_ & [F | [(kc & Hl & F) | (kc & contexts & Hl & Hc & _ & _ & H)]]).
  - discriminate F.
  - injection Hl as <-. cbv in F. discriminate F.
  - injection Hl as <-. cbv in Hc. injection Hc as <-.
    exact (H "gke-prod" (or_introl eq_refl)).
Defined.

(* ================================================================== *)
(** * Properties of the package information *)

Lemma squash_allowed (s : string) (inRun : bool) :
  Pkg.allAllowed (Pkg.squash inRun s) = true.
Proof.
  revert inRun. induction s as [| c s IH]; intros inRun; [reflexivity |].
  cbn [Pkg.squash]. destruct (Pkg.allowed c) eqn:Ec.
  - cbn [Pkg.allAllowed]. now rewrite Ec, IH.
  - destruct inRun; [apply IH |].
    cbn [Pkg.allAllowed]. now rewrite IH.
Qed.

Lemma squash_clean (s : string) (inRun : bool) :
  Pkg.allAllowed s = true -> Pkg.squash inRun s = s.
Proof.
  revert inRun. induction s as [| c s IH]; intros inRun H; [reflexivity |].
  cbn [Pkg.allAllowed] in H. apply andb_true_iff in H as [Hc Hs].
  cbn [Pkg.squash]. rewrite Hc. now rewrite IH.
Qed.

Lemma dropLeadingAt_clean (s : string) :
  Pkg.allAllowed s = true -> Pkg.dropLeadingAt s = s.
Proof.
  destruct s as [| c s]; [reflexivity |].
  cbn [Pkg.allAllowed Pkg.dropLeadingAt]. intros H.
  apply andb_true_iff in H as [Hc _].
  destruct (Ascii.eqb_spec c "@") as [-> | _]; [discriminate | reflexivity].
Qed.

(** X26. Whatever the name and the version of the package are, the
    package information is made of letters, digits, hyphens,
    underscores and dots only. *)
Theorem pkgInfo_safe_characters (name version : option string) :
  Pkg.allAllowed (Pkg.pkgInfo name version) = true.
Proof.
  unfold Pkg.pkgInfo. apply squash_allowed.
Qed.

(** X27. A name and a version that are made of letters, digits,
    hyphens, underscores and dots only come out unchanged, joined by an
    underscore. *)
Theorem pkgInfo_keeps_clean_names (name version : string) :
  Pkg.allAllowed name = true ->
  Pkg.allAllowed version = true ->
  Pkg.pkgInfo (Some name) (Some version) = name ++ "_" ++ version.
Proof.
  intros Hn Hv.
  assert (H : Pkg.allAllowed (name ++ "_" ++ version) = true).
  { clear - Hn Hv. induction name as [| c n IH]; cbn.
    - exact Hv.
    - cbn in Hn. apply andb_true_iff in Hn as [Hc Hn].
      rewrite Hc. now apply IH. }
  unfold Pkg.pkgInfo, interpolate.
  rewrite (dropLeadingAt_clean _ H). now apply squash_clean.
Qed.

Lemma pkgInfo_keeps_clean_names_witness :
  Pkg.pkgInfo (Some "sdm-pack-k8s") (Some "1.0.0-master.2")
    = "sdm-pack-k8s_1.0.0-master.2".
Proof.
  exact (pkgInfo_keeps_clean_names "sdm-pack-k8s" "1.0.0-master.2"
           eq_refl eq_refl).
Defined.
